(** * ml-workspace-template: the preprocessing and feature pipeline

    A shallow embedding of [src/data/preprocessing.py] and
    [src/data/features.py], and the properties of the pipeline stated
    over it.

    - A pandas [DataFrame] is a row count (the length of its index) and
      an ordered list of named columns; a column is a float column or an
      object column of strings.
    - A float is a finite rational or one of the IEEE special values
      [+inf], [-inf], [NaN].  Finite arithmetic is exact: rounding,
      overflow and the sign of zero are not modelled (a zero divisor
      counts as [+0.0], which is what [t - t] yields for a finite [t]).
      A property that depends on the value of a difference, a product
      or a quotient is stated for inputs on which none of these leaves
      the range of the doubles ([no_overflow], [moderate]).
    - An exception raised by the Python code is the [Err] result. *)

From Stdlib Require Import ZArith QArith Qround Qreduction List Sorted String Ascii Bool Lia Lqa.
Import ListNotations.
Local Close Scope Q_scope.
Local Open Scope string_scope.

(** ** Floats *)

Inductive float : Type :=
| Fin (q : Q)
| PInf
| NInf
| NaN.

Definition fin (q : Q) : float := Fin (Qred q).

Definition f0 : float := Fin 0.

Definition isna (x : float) : bool :=
  match x with NaN => true | _ => false end.

Definition is_finite (x : float) : bool :=
  match x with Fin _ => true | _ => false end.

Definition fneg (x : float) : float :=
  match x with
  | Fin q => fin (- q)
  | PInf => NInf
  | NInf => PInf
  | NaN => NaN
  end.

Definition fadd (x y : float) : float :=
  match x, y with
  | NaN, _ | _, NaN => NaN
  | Fin a, Fin b => fin (a + b)
  | PInf, NInf | NInf, PInf => NaN
  | PInf, _ | _, PInf => PInf
  | NInf, _ | _, NInf => NInf
  end.

Definition fsub (x y : float) : float := fadd x (fneg y).

(** The sign of a float that is not NaN: [-1], [0] or [1]. *)
Definition fsign (x : float) : Z :=
  match x with
  | Fin q => Z.sgn (Qnum q)
  | PInf => 1
  | NInf => (-1)
  | NaN => 0
  end.

Definition inf_of_sign (s : Z) : float :=
  if (s <? 0)%Z then NInf else PInf.

Definition fmul (x y : float) : float :=
  match x, y with
  | NaN, _ | _, NaN => NaN
  | Fin a, Fin b => fin (a * b)
  | _, _ =>
      if (fsign x * fsign y =? 0)%Z then NaN
      else inf_of_sign (fsign x * fsign y)
  end.

Definition fdiv (x y : float) : float :=
  match x, y with
  | NaN, _ | _, NaN => NaN
  | Fin a, Fin b =>
      if Qeq_bool b 0 then
        (if Qeq_bool a 0 then NaN else inf_of_sign (fsign x))
      else fin (a / b)
  | Fin _, _ => f0
  | _, Fin b =>
      if Qeq_bool b 0 then x else inf_of_sign (fsign x * fsign y)
  | _, _ => NaN
  end.

(** Comparisons: every comparison with NaN is false. *)
Definition fle (x y : float) : bool :=
  match x, y with
  | NaN, _ | _, NaN => false
  | NInf, _ | _, PInf => true
  | _, NInf | PInf, _ => false
  | Fin a, Fin b => Qle_bool a b
  end.

Definition flt (x y : float) : bool :=
  match x, y with
  | NaN, _ | _, NaN => false
  | _, _ => negb (fle y x)
  end.

Definition fge (x y : float) : bool := fle y x.
Definition fgt (x y : float) : bool := flt y x.

(** ** Results *)

Inductive exn : Type :=
| KeyError (key : string)
| TypeError
| ValueError.

Inductive outcome (A : Type) : Type :=
| Ok (a : A)
| Err (e : exn).
Arguments Ok {A} a.
Arguments Err {A} e.

Definition bind {A B : Type} (m : outcome A) (k : A -> outcome B) : outcome B :=
  match m with
  | Ok a => k a
  | Err e => Err e
  end.

Notation "'let*' x ':=' m 'in' k" := (bind m (fun x => k))
  (at level 10, x name, m at level 100, k at level 200).

(** A [for] loop whose body may raise. *)
Fixpoint for_each {A S : Type} (xs : list A) (body : A -> S -> outcome S) (s : S)
  : outcome S :=
  match xs with
  | [] => Ok s
  | x :: xs' => let* s' := body x s in for_each xs' body s'
  end.

(** ** Data frames *)

Inductive column : Type :=
| NumCol (vs : list float)
| StrCol (vs : list string).

Definition col_len (c : column) : nat :=
  match c with
  | NumCol vs => List.length vs
  | StrCol vs => List.length vs
  end.

Record DataFrame : Type := mkDF {
  nrows : nat;
  cols : list (string * column)
}.

Definition columns (df : DataFrame) : list string := map fst (cols df).

Fixpoint lookup (name : string) (cs : list (string * column)) : option column :=
  match cs with
  | [] => None
  | (n, c) :: cs' => if String.eqb n name then Some c else lookup name cs'
  end.

(** [df[name]] *)
Definition getitem (df : DataFrame) (name : string) : outcome column :=
  match lookup name (cols df) with
  | Some c => Ok c
  | None => Err (KeyError name)
  end.

(** [df[name]] where a float series is needed. *)
Definition get_num (df : DataFrame) (name : string) : outcome (list float) :=
  let* c := getitem df name in
  match c with
  | NumCol vs => Ok vs
  | StrCol _ => Err TypeError
  end.

Fixpoint assign (name : string) (c : column) (cs : list (string * column))
  : list (string * column) :=
  match cs with
  | [] => [(name, c)]
  | (n, c') :: cs' =>
      if String.eqb n name then (n, c) :: cs' else (n, c') :: assign name c cs'
  end.

(** [df[name] = c]: an existing column is replaced where it stands, a new
    one is appended; a value of the wrong length is refused. *)
Definition setitem (df : DataFrame) (name : string) (c : column)
  : outcome DataFrame :=
  if Nat.eqb (col_len c) (nrows df)
  then Ok (mkDF (nrows df) (assign name c (cols df)))
  else Err ValueError.

(** A frame is well formed when its column names are distinct and every
    column has one value per row. *)
Definition wf (df : DataFrame) : Prop :=
  NoDup (columns df) /\
  Forall (fun nc => col_len (snd nc) = nrows df) (cols df).

(** ** Series operations (pandas and numpy) *)

(** [s.diff()] *)
Fixpoint diff_from (prev : float) (vs : list float) : list float :=
  match vs with
  | [] => []
  | v :: vs' => fsub v prev :: diff_from v vs'
  end.

Definition diff (vs : list float) : list float :=
  match vs with
  | [] => []
  | v :: vs' => NaN :: diff_from v vs'
  end.

(** [a / b], element by element *)
Fixpoint div_series (a b : list float) : list float :=
  match a, b with
  | x :: a', y :: b' => fdiv x y :: div_series a' b'
  | _, _ => []
  end.

(** [s.fillna(v)] *)
Definition fillna (v : float) (vs : list float) : list float :=
  map (fun x => if isna x then v else x) vs.

(** [s.fillna(method='ffill')]: a missing value takes the nearest value
    before it, and stays missing when there is none. *)
Fixpoint ffill_from (last : float) (vs : list float) : list float :=
  match vs with
  | [] => []
  | v :: vs' =>
      if isna v then last :: ffill_from last vs' else v :: ffill_from v vs'
  end.

Definition ffill (vs : list float) : list float := ffill_from NaN vs.

(** [s.fillna(method='bfill')]: a missing value takes the nearest value
    after it. *)
Fixpoint bfill (vs : list float) : list float :=
  match vs with
  | [] => []
  | v :: vs' =>
      let r := bfill vs' in
      (if isna v then hd NaN r else v) :: r
  end.

Definition dropna (vs : list float) : list float :=
  filter (fun x => negb (isna x)) vs.

Fixpoint insert_sorted (x : float) (vs : list float) : list float :=
  match vs with
  | [] => [x]
  | v :: vs' => if fle x v then x :: vs else v :: insert_sorted x vs'
  end.

Fixpoint sort (vs : list float) : list float :=
  match vs with
  | [] => []
  | v :: vs' => insert_sorted v (sort vs')
  end.

(** [s.quantile(p)], linear interpolation: missing values are left out;
    with [n] values left, sorted, the result lies at position [p*(n-1)],
    interpolated as [i + (j - i) * fraction] between its two neighbours;
    NaN when no value is left. *)
Definition quantile (p : Q) (vs : list float) : float :=
  let a := sort (dropna vs) in
  match a with
  | [] => NaN
  | _ =>
      let n := List.length a in
      let pos := (p * inject_Z (Z.of_nat (n - 1)))%Q in
      let lo := Z.to_nat (Qfloor pos) in
      let frac := (pos - inject_Z (Qfloor pos))%Q in
      let i := nth lo a NaN in
      let j := nth (Nat.min (lo + 1) (n - 1)) a NaN in
      fadd i (fmul (fsub j i) (fin frac))
  end.

(** [s.clip(lower, upper)] with scalar bounds: a NaN bound is no bound;
    two bounds given in the wrong order are swapped; a missing value
    stays missing. *)
Definition clip_value (lower upper : option float) (v : float) : float :=
  if isna v then v
  else
    let r := match lower with
             | Some l => if fge v l then v else l
             | None => v
             end in
    match upper with
    | Some u => if fle v u then r else u
    | None => r
    end.

Definition clip (lower upper : float) (vs : list float) : list float :=
  let lower := if isna lower then None else Some lower in
  let upper := if isna upper then None else Some upper in
  let '(lower, upper) :=
    match lower, upper with
    | Some l, Some u => if flt u l then (Some u, Some l) else (Some l, Some u)
    | _, _ => (lower, upper)
    end in
  map (clip_value lower upper) vs.

(** [s.min()] and [s.max()]: missing values are skipped; NaN when no
    value is left. *)
Definition smin (vs : list float) : float :=
  match dropna vs with
  | [] => NaN
  | x :: xs => fold_left (fun m v => if flt v m then v else m) xs x
  end.

Definition smax (vs : list float) : float :=
  match dropna vs with
  | [] => NaN
  | x :: xs => fold_left (fun m v => if flt m v then v else m) xs x
  end.

(** The same on an object column of strings. *)
Definition str_min (vs : list string) : option string :=
  match vs with
  | [] => None
  | x :: xs => Some (fold_left (fun m v => if String.ltb v m then v else m) xs x)
  end.

Definition str_max (vs : list string) : option string :=
  match vs with
  | [] => None
  | x :: xs => Some (fold_left (fun m v => if String.ltb m v then v else m) xs x)
  end.

Definition fsum (vs : list float) : float := fold_left fadd vs f0.

Definition of_nat (n : nat) : float := Fin (inject_Z (Z.of_nat n)).

(** The rows [max(0, i-w+1) .. i] of a series. *)
Definition window_at (w i : nat) (vs : list float) : list float :=
  skipn (i + 1 - w) (firstn (i + 1) vs).

(** [vs[a:b]] for [0 <= a]. *)
Definition slice {A : Type} (a b : Z) (vs : list A) : list A :=
  firstn (Z.to_nat (b - a)) (skipn (Z.to_nat a) vs).

(** [np.argmax]: the first index of the largest value; a NaN counts as
    the largest; an empty array is refused. *)
Fixpoint argmax_from (best : float) (besti i : nat) (vs : list float) : nat :=
  match vs with
  | [] => besti
  | v :: vs' =>
      if negb (isna best) && (isna v || flt best v)
      then argmax_from v i (S i) vs'
      else argmax_from best besti (S i) vs'
  end.

Definition argmax (vs : list float) : outcome nat :=
  match vs with
  | [] => Err ValueError
  | v :: vs' => Ok (argmax_from v 0 1 vs')
  end.

(** [np.max]: the largest value, NaN if there is one. *)
Definition amax (vs : list float) : float :=
  match vs with
  | [] => NaN
  | v :: vs' =>
      fold_left (fun best v =>
                   if negb (isna best) && (isna v || flt best v) then v else best)
                vs' v
  end.

(** [np.fft.rfftfreq(n)]: the bins [k / n] for [k = 0 .. n/2]. *)
Definition rfftfreq (n : nat) : list float :=
  map (fun k => fin (inject_Z (Z.of_nat k) / inject_Z (Z.of_nat n)))
      (seq 0 (n / 2 + 1)).

Definition channels (df : DataFrame) : list string :=
  filter (fun c => negb (String.eqb c "Time" || String.eqb c "label")) (columns df).

Definition columns_or_default (data : DataFrame) (columns : option (list string))
  : list string :=
  match columns with
  | Some cs => cs
  | None => channels data
  end.

(** ** preprocessing.py *)

Definition fill_column (c : column) : column :=
  match c with
  | NumCol vs => NumCol (bfill (ffill vs))
  | StrCol vs => StrCol vs
  end.

(** [df.fillna(method='ffill').fillna(method='bfill')], on every column. *)
Definition fillna_frame (df : DataFrame) : DataFrame :=
  mkDF (nrows df) (map (fun nc => (fst nc, fill_column (snd nc))) (cols df)).

Definition clean_step (column : string) (cleaned_data : DataFrame)
  : outcome DataFrame :=
  if String.eqb column "Time" then Ok cleaned_data
  else
    let* s := get_num cleaned_data column in
    let Q1 := quantile 0.25 s in
    let Q3 := quantile 0.75 s in
    let IQR := fsub Q3 Q1 in
    let lower_bound := fsub Q1 (fmul (Fin 1.5) IQR) in
    let upper_bound := fadd Q3 (fmul (Fin 1.5) IQR) in
    setitem cleaned_data column (NumCol (clip lower_bound upper_bound s)).

Definition clean_data (data : DataFrame) : outcome DataFrame :=
  let cleaned_data := data in
  let cleaned_data := fillna_frame cleaned_data in
  for_each (columns cleaned_data) clean_step cleaned_data.

Definition normalize_step (column : string) (normalized_data : DataFrame)
  : outcome DataFrame :=
  if String.eqb column "Time" then Ok normalized_data
  else
    let* c := getitem normalized_data column in
    match c with
    | NumCol vs =>
        let min_val := smin vs in
        let max_val := smax vs in
        if fgt max_val min_val then
          setitem normalized_data column
            (NumCol (map (fun v => fdiv (fsub v min_val) (fsub max_val min_val)) vs))
        else Ok normalized_data
    | StrCol vs =>
        match str_min vs, str_max vs with
        | Some min_val, Some max_val =>
            (* [max_val > min_val] holds, then a string is subtracted *)
            if String.ltb min_val max_val then Err TypeError
            else Ok normalized_data
        | _, _ => Ok normalized_data
        end
    end.

Definition normalize_data (data : DataFrame) : outcome DataFrame :=
  let normalized_data := data in
  for_each (columns normalized_data) normalize_step normalized_data.

(** A row of the label table: [Time(Seconds)], [Length(Seconds)],
    [Label(string)]. *)
Record LabelRow : Type := mkLabel {
  Time_Seconds : float;
  Length_Seconds : float;
  Label_string : string
}.

Definition in_range (start_time end_time t : float) : bool :=
  fge t start_time && fle t end_time.

(** [result.loc[mask, 'label'] = label_value] *)
Fixpoint set_where (mask : list bool) (v : string) (ls : list string)
  : list string :=
  match mask, ls with
  | m :: mask', l :: ls' => (if m then v else l) :: set_where mask' v ls'
  | _, _ => ls
  end.

Definition get_str (df : DataFrame) (name : string) : outcome (list string) :=
  let* c := getitem df name in
  match c with
  | StrCol vs => Ok vs
  | NumCol _ => Err TypeError
  end.

Definition label_step (label_row : LabelRow) (result : DataFrame)
  : outcome DataFrame :=
  let start_time := Time_Seconds label_row in
  let end_time := fadd start_time (Length_Seconds label_row) in
  let label_value := Label_string label_row in
  let* t := get_num result "Time" in
  let mask := map (in_range start_time end_time) t in
  let* l := get_str result "label" in
  setitem result "label" (StrCol (set_where mask label_value l)).

Definition add_label_column (data : DataFrame) (labels : option (list LabelRow))
  : outcome DataFrame :=
  match labels with
  | None | Some [] => Ok data
  | Some rows =>
      let result := data in
      let* result := setitem result "label"
                       (StrCol (repeat "NotReady" (nrows result))) in
      for_each rows label_step result
  end.

Definition preprocess_data (data : DataFrame) (labels : option (list LabelRow))
  (clean normalize add_labels : bool) : outcome DataFrame :=
  let result := data in
  let* result := if clean then clean_data result else Ok result in
  let* result := if normalize then normalize_data result else Ok result in
  let* result :=
    match labels with
    | Some _ => if add_labels then add_label_column result labels else Ok result
    | None => Ok result
    end in
  Ok result.

(** ** features.py *)

Section Features.

(** Two numpy functions are taken as they are: the square root, and the
    magnitude [np.abs(np.fft.rfft(window))[k]] of bin [k] of the real
    transform of a window. *)
Variable fsqrt : float -> float.
Variable rfft_mag : list float -> nat -> float.

(** [np.abs(np.fft.rfft(window))]: [n/2 + 1] bins for [n] samples. *)
Definition rfft_abs (window : list float) : list float :=
  map (rfft_mag window) (seq 0 (List.length window / 2 + 1)).

(** pandas hands a column to its window kernels with every infinite
    value replaced by NaN. *)
Definition inf_to_nan (x : float) : float :=
  match x with
  | PInf | NInf => NaN
  | _ => x
  end.

(** [s.rolling(window=w, min_periods=1).f()]: at row [i] the statistic
    of rows [max(0, i-w+1) .. i], infinite values taken as missing; a
    window below 1 is refused. *)
Definition rolling (w : Z) (f : list float -> float) (vs : list float)
  : outcome (list float) :=
  if (w <? 1)%Z then Err ValueError
  else Ok (map (fun i => f (window_at (Z.to_nat w) i (map inf_to_nan vs)))
               (seq 0 (List.length vs))).

Definition mean (win : list float) : float :=
  match dropna win with
  | [] => NaN
  | xs => fdiv (fsum xs) (of_nat (List.length xs))
  end.

(** Sample standard deviation: NaN with fewer than two values. *)
Definition std (win : list float) : float :=
  let xs := dropna win in
  if (List.length xs <? 2)%nat then NaN
  else
    let m := fdiv (fsum xs) (of_nat (List.length xs)) in
    fsqrt (fdiv (fsum (map (fun x => fmul (fsub x m) (fsub x m)) xs))
                (of_nat (List.length xs - 1))).

Definition rolling_step (window_size : Z) (col : string) (result : DataFrame)
  : outcome DataFrame :=
  let* s := get_num result col in
  let* m := rolling window_size mean s in
  let* result := setitem result (col ++ "_rolling_mean") (NumCol m) in
  let* s := get_num result col in
  let* sd := rolling window_size std s in
  let* result := setitem result (col ++ "_rolling_std") (NumCol (fillna f0 sd)) in
  let* s := get_num result col in
  let* mn := rolling window_size smin s in
  let* result := setitem result (col ++ "_rolling_min") (NumCol mn) in
  let* s := get_num result col in
  let* mx := rolling window_size smax s in
  setitem result (col ++ "_rolling_max") (NumCol mx).

Definition calculate_rolling_statistics (data : DataFrame) (window_size : Z)
  (columns : option (list string)) : outcome DataFrame :=
  let result := data in
  let columns := columns_or_default data columns in
  for_each columns (rolling_step window_size) result.

Definition derivatives_step (col : string) (result : DataFrame)
  : outcome DataFrame :=
  let* v := get_num result col in
  let* t := get_num result "Time" in
  let* result := setitem result (col ++ "_deriv1")
                   (NumCol (div_series (diff v) (diff t))) in
  let* d1 := get_num result (col ++ "_deriv1") in
  let* t := get_num result "Time" in
  let* result := setitem result (col ++ "_deriv2")
                   (NumCol (div_series (diff d1) (diff t))) in
  let* d1 := get_num result (col ++ "_deriv1") in
  let* result := setitem result (col ++ "_deriv1") (NumCol (fillna f0 d1)) in
  let* d2 := get_num result (col ++ "_deriv2") in
  setitem result (col ++ "_deriv2") (NumCol (fillna f0 d2)).

Definition calculate_derivatives (data : DataFrame)
  (columns : option (list string)) : outcome DataFrame :=
  let result := data in
  let columns := columns_or_default data columns in
  for_each columns derivatives_step result.

(** [xs.append(x)] *)
Definition append1 {A : Type} (xs : list A) (x : A) : list A := (xs ++ [x])%list.

(** The body of the loop over rows: the pair of lists grows by one
    value each. *)
Definition spectral_row (data : DataFrame) (col : string) (window_size : Z)
  (i : nat) (acc : list float * list float)
  : outcome (list float * list float) :=
  let '(dominant_freq, dominant_magnitude) := acc in
  let start_idx := Z.max 0 (Z.of_nat i - window_size + 1) in
  let* c := getitem data col in
  match c with
  | NumCol vs =>
      let window := slice start_idx (Z.of_nat i + 1) vs in
      if (10 <? List.length window)%nat then
        let fft_vals := rfft_abs window in
        let fft_freq := rfftfreq (List.length window) in
        let* k := argmax (tl fft_vals) in
        let idx := (k + 1)%nat in
        if (idx <? List.length fft_freq)%nat then
          Ok (append1 dominant_freq (nth idx fft_freq NaN),
              append1 dominant_magnitude (nth idx fft_vals NaN))
        else Ok (append1 dominant_freq f0, append1 dominant_magnitude f0)
      else Ok (append1 dominant_freq f0, append1 dominant_magnitude f0)
  | StrCol vs =>
      let window := slice start_idx (Z.of_nat i + 1) vs in
      if (10 <? List.length window)%nat then Err TypeError
      else Ok (append1 dominant_freq f0, append1 dominant_magnitude f0)
  end.

Definition frequency_step (data : DataFrame) (window_size : Z) (col : string)
  (result : DataFrame) : outcome DataFrame :=
  let* lists :=
    for_each (seq 0 (nrows data)) (spectral_row data col window_size) ([], []) in
  let '(dominant_freq, dominant_magnitude) := lists in
  let* result := setitem result (col ++ "_dom_freq") (NumCol dominant_freq) in
  setitem result (col ++ "_dom_mag") (NumCol dominant_magnitude).

Definition extract_frequency_features (data : DataFrame)
  (columns : option (list string)) (window_size : Z) : outcome DataFrame :=
  let result := data in
  let columns := columns_or_default data columns in
  for_each columns (frequency_step data window_size) result.

Definition feature_engineering (data : DataFrame)
  (include_rolling include_derivatives include_frequency : bool)
  (window_size : Z) : outcome DataFrame :=
  let result := data in
  let columns := channels data in
  let* result :=
    if include_rolling
    then calculate_rolling_statistics result window_size (Some columns)
    else Ok result in
  let* result :=
    if include_derivatives
    then calculate_derivatives result (Some columns)
    else Ok result in
  let* result :=
    if include_frequency
    then extract_frequency_features result (Some columns) (window_size * 5)
    else Ok result in
  Ok result.

End Features.

(** * Vocabulary of the properties *)

(** ** Sequences of column assignments

    [updates s names s']: the frame [s'] is [s] after the assignments
    [s[name] = ...] for the names of [names], in that order, none of
    which was refused. *)

Inductive updates : DataFrame -> list string -> DataFrame -> Prop :=
| updates_nil s : updates s [] s
| updates_cons s name c s' names s'' :
    setitem s name c = Ok s' -> updates s' names s'' ->
    updates s (name :: names) s''.

(** [keeps s s']: [s'] is [s] after assignments to columns other than
    [Time]. *)
Definition keeps (s s' : DataFrame) : Prop :=
  exists names, updates s names s' /\ ~ In "Time" names.

Definition rolling_suffixes : list string :=
  ["_rolling_mean"; "_rolling_std"; "_rolling_min"; "_rolling_max"].
Definition derivative_suffixes : list string := ["_deriv1"; "_deriv2"].
Definition frequency_suffixes : list string := ["_dom_freq"; "_dom_mag"].

Definition with_suffixes (suffixes : list string) (col : string) : list string :=
  map (fun suffix => col ++ suffix) suffixes.

(** [zero_at k d]: row [k] of the series [d], when there is one, is 0. *)
Definition zero_at (k : nat) (d : list float) : Prop :=
  forall x, nth_error d k = Some x -> x = f0.

Definition nan_at (k : nat) (d : list float) : Prop :=
  forall x, nth_error d k = Some x -> x = NaN.

(** What one iteration leaves in the two columns of [col]. *)
Definition derivatives_of (s : DataFrame) (col : string) : Prop :=
  exists d1 d2,
    lookup (col ++ "_deriv1") (cols s) = Some (NumCol d1) /\
    lookup (col ++ "_deriv2") (cols s) = Some (NumCol d2) /\
    List.length d1 = nrows s /\ List.length d2 = nrows s /\
    zero_at 0 d1 /\ zero_at 0 d2 /\ zero_at 1 d2.

(** The pair that row [i] adds to the two lists of a channel. *)
Definition spectral_value (rfft_mag : list float -> nat -> float)
  (data : DataFrame) (col : string) (window_size : Z) (i : nat)
  : outcome (float * float) :=
  let start_idx := Z.max 0 (Z.of_nat i - window_size + 1) in
  let* c := getitem data col in
  match c with
  | NumCol vs =>
      let window := slice start_idx (Z.of_nat i + 1) vs in
      if (10 <? List.length window)%nat then
        let fft_vals := rfft_abs rfft_mag window in
        let fft_freq := rfftfreq (List.length window) in
        let* k := argmax (tl fft_vals) in
        let idx := (k + 1)%nat in
        if (idx <? List.length fft_freq)%nat
        then Ok (nth idx fft_freq NaN, nth idx fft_vals NaN)
        else Ok (f0, f0)
      else Ok (f0, f0)
  | StrCol vs =>
      let window := slice start_idx (Z.of_nat i + 1) vs in
      if (10 <? List.length window)%nat then Err TypeError else Ok (f0, f0)
  end.

(** The trailing window of row [i] holds at most 10 rows. *)
Definition small_window (window_size : Z) (i : nat) : Prop :=
  (Z.of_nat i + 1 - Z.max 0 (Z.of_nat i - window_size + 1) <= 10)%Z.

(** A column that is 0 wherever the window is small. *)
Definition zero_on_small_windows (data : DataFrame) (window_size : Z)
  (c : option column) : Prop :=
  exists vs, c = Some (NumCol vs) /\
    forall i, i < nrows data -> small_window window_size i ->
              nth_error vs i = Some f0.

(** ** Example tables *)

Definition num (z : Z) : float := Fin (inject_Z z).

(** Three rows, [Time = [0, 1, 2]] and one channel [value = [0, 10, 30]]. *)
Definition three_rows : DataFrame :=
  mkDF 3 [("Time", NumCol [num 0; num 1; num 2]);
          ("value", NumCol [num 0; num 10; num 30])].

(** The same channel with the last timestamp repeated: [Time = [0, 1, 1]]. *)
Definition duplicate_timestamp : DataFrame :=
  mkDF 3 [("Time", NumCol [num 0; num 1; num 1]);
          ("value", NumCol [num 0; num 10; num 30])].

(** ** Labels *)

(** The interval of a label row contains [t], both ends included. *)
Definition covers (r : LabelRow) (t : float) : bool :=
  in_range (Time_Seconds r) (fadd (Time_Seconds r) (Length_Seconds r)) t.

(** The label of the last row of the label table, in iteration order,
    whose interval contains [t]; the sentinel when there is none. *)
Definition label_at (rows : list LabelRow) (t : float) : string :=
  match find (fun r => covers r t) (rev rows) with
  | Some r => Label_string r
  | None => "NotReady"
  end.

(** ** Finite values *)

Definition finite_or_missing (x : float) : bool := is_finite x || isna x.

(** [has_value x r]: [x] is the finite float of value [r]. *)
Definition has_value (x : float) (r : Q) : Prop :=
  exists q, x = Fin q /\ (q == r)%Q.

(** The value of a finite float. *)
Definition value_of (x : float) : Q :=
  match x with
  | Fin q => q
  | _ => 0%Q
  end.

(** A series in ascending order. *)
Definition ascending : list float -> Prop :=
  StronglySorted (fun x y => fle x y = true).

(** The value that linear interpolation gives at position [p * (n-1)]
    of the [n] sorted finite values [a]. *)
Definition interpolate (a : list float) (p : Q) : Q :=
  let n := List.length a in
  let pos := (p * inject_Z (Z.of_nat (n - 1)))%Q in
  let lo := Z.to_nat (Qfloor pos) in
  let i := value_of (nth lo a NaN) in
  let j := value_of (nth (Nat.min (lo + 1) (n - 1)) a NaN) in
  (i + (j - i) * (pos - inject_Z (Qfloor pos)))%Q.

(** ** The two cleaning steps on one column *)

(** What [clean_data] leaves in a column that holds [s] after the fill. *)
Definition iqr_clip (s : list float) : list float :=
  let Q1 := quantile 0.25 s in
  let Q3 := quantile 0.75 s in
  let IQR := fsub Q3 Q1 in
  let lower_bound := fsub Q1 (fmul (Fin 1.5) IQR) in
  let upper_bound := fadd Q3 (fmul (Fin 1.5) IQR) in
  clip lower_bound upper_bound s.

(** What [normalize_data] leaves in a column that holds [vs]. *)
Definition min_max_scale (vs : list float) : list float :=
  let min_val := smin vs in
  let max_val := smax vs in
  if fgt max_val min_val
  then map (fun v => fdiv (fsub v min_val) (fsub max_val min_val)) vs
  else vs.

(** The suffixes of the stages that [feature_engineering] runs. *)
Definition enabled_suffixes
  (include_rolling include_derivatives include_frequency : bool) : list string :=
  ((if include_rolling then rolling_suffixes else []) ++
   (if include_derivatives then derivative_suffixes else []) ++
   (if include_frequency then frequency_suffixes else []))%list.

(** The last character of a string. *)
Fixpoint last_char (s : string) : option ascii :=
  match s with
  | EmptyString => None
  | String c EmptyString => Some c
  | String _ s' => last_char s'
  end.

(** One missing timestamp: [Time = [0, NaN, 2]]. *)
Definition gap_in_time : DataFrame :=
  mkDF 3 [("Time", NumCol [num 0; NaN; num 2]);
          ("value", NumCol [num 0; num 10; num 30])].

(** ** Tables on which the stages return *)

(** Every column but [skip] is a float column. *)
Definition numeric_except (skip : string) (df : DataFrame) : Prop :=
  forall name c, In (name, c) (cols df) -> name = skip \/ exists vs, c = NumCol vs.

(** A well-formed frame whose columns, [skip] apart, are numeric and
    among which are the columns [needed]. *)
Definition ready (skip : string) (needed : list string) (s : DataFrame) : Prop :=
  wf s /\ numeric_except skip s /\ incl needed (columns s) /\ ~ In skip needed.

(** A stage keeps the row count of [data], and a well-formed frame well
    formed. *)
Definition preserves_rows (data : DataFrame) (r : outcome DataFrame) : Prop :=
  forall out, r = Ok out -> nrows out = nrows data /\ (wf data -> wf out).

Definition returns (r : outcome DataFrame) : Prop := exists out, r = Ok out.

(** Five rows with one outlier in the channel. *)
Definition five_rows : DataFrame :=
  mkDF 5 [("Time", NumCol [num 0; num 1; num 2; num 3; num 4]);
          ("value", NumCol [num 1; num 2; num 3; num 4; num 100])].

(** Twelve rows: enough for one spectral window. *)
Definition twelve_values : list float :=
  [num 0; num 3; num 1; num 4; num 1; num 5; num 9; num 2; num 6; num 5;
   num 3; num 5].

Definition twelve_rows : DataFrame :=
  mkDF 12 [("Time", NumCol (map (fun k => num (Z.of_nat k)) (seq 0 12)));
           ("value", NumCol twelve_values)].

(** One labelled interval, [[1, 2]]. *)
Definition one_peak : list LabelRow := [mkLabel (num 1) (num 1) "Peak"].

(** Two functions to run the feature stages on the examples; the
    properties below hold whatever the two functions are.  The square
    root is rounded down on numerator and denominator; the magnitude of
    bin [k] is taken from sample [k] of the window. *)
Definition example_sqrt (x : float) : float :=
  match x with
  | Fin v => fin (Z.sqrt (Qnum v) # Pos.sqrt (Qden v))
  | PInf => PInf
  | _ => NaN
  end.

Definition example_spectrum (window : list float) (k : nat) : float :=
  nth k window f0.

(** The columns other than [Time]. *)
Definition other_columns (data : DataFrame) : list string :=
  filter (fun c => negb (String.eqb c "Time")) (columns data).

(** A channel with two missing samples: [value = [NaN, 10, NaN, 30]]. *)
Definition gap_in_value : DataFrame :=
  mkDF 4 [("Time", NumCol [num 0; num 1; num 2; num 3]);
          ("value", NumCol [NaN; num 10; NaN; num 30])].


(** ** Feature names *)

(** A list of suffixes under which [c ++ suffix] names one column and
    one suffix only. *)
Definition unambiguous (suffixes : list string) : Prop :=
  forall c c' suffix suffix',
    In suffix suffixes -> In suffix' suffixes ->
    c ++ suffix = c' ++ suffix' -> c = c' /\ suffix = suffix'.

(** No selected column is named like a feature of a selected column. *)
Definition no_feature_named (suffixes : list string) (cs : list string) : Prop :=
  forall c suffix, In c cs -> In suffix suffixes -> ~ In (c ++ suffix) cs.

(** The series [s.rolling(window=w, min_periods=1).f()] for [1 <= w]. *)
Definition rolling_values (w : Z) (f : list float -> float) (vs : list float)
  : list float :=
  map (fun i => f (window_at (Z.to_nat w) i (map inf_to_nan vs)))
      (seq 0 (List.length vs)).

(** The sum of the values of a series of finite floats. *)
Definition total (xs : list float) : Q :=
  fold_right (fun x acc => (value_of x + acc)%Q) 0%Q xs.

(** The two derivative columns of a channel [vs] over the timestamps
    [ts], as [calculate_derivatives] computes them. *)
Definition first_derivative (vs ts : list float) : list float :=
  div_series (diff vs) (diff ts).

Definition second_derivative (vs ts : list float) : list float :=
  div_series (diff (first_derivative vs ts)) (diff ts).

(** A float that is NaN or 0. *)
Definition zero_or_missing (x : float) : Prop := x = NaN \/ x = f0.

(** A channel that holds 5 throughout, over a repeated timestamp:
    [Time = [0, 1, 1]], [value = [5, 5, 5]]. *)
Definition steady_channel : DataFrame :=
  mkDF 3 [("Time", NumCol [num 0; num 1; num 1]);
          ("value", NumCol [num 5; num 5; num 5])].

(** A table without a [Time] column. *)
Definition untimed : DataFrame := mkDF 2 [("value", NumCol [num 1; num 2])].

(** The three rows with a [label] column. *)
Definition labelled_rows : DataFrame :=
  mkDF 3 [("Time", NumCol [num 0; num 1; num 2]);
          ("value", NumCol [num 0; num 10; num 30]);
          ("label", StrCol ["NotReady"; "Peak"; "Peak"])].

(** ** The range of the doubles *)

(** The arithmetic of [fin] is exact; a double rounds, and a result
    beyond [2^1024 - 2^971] overflows to an infinity.  The properties
    that depend on the value of a difference, a product or a quotient
    are stated where no such result leaves the range of the doubles:
    [no_overflow q] keeps [q] within [2^1023], which leaves room for
    the rounding of the operands. *)
Definition no_overflow (q : Q) : Prop :=
  (- inject_Z (2 ^ 1023) <= q <= inject_Z (2 ^ 1023))%Q.

(** A missing value, or a finite one within [2^1021]: between such
    values the quartiles, their distance, 1.5 times that distance and
    the two fences of [clean_data] all stay within [2^1023]. *)
Definition moderate (x : float) : bool :=
  match x with
  | Fin q =>
      (Qle_bool (- inject_Z (2 ^ 1021)) q && Qle_bool q (inject_Z (2 ^ 1021)))%Q
  | NaN => true
  | PInf | NInf => false
  end.

(** Columns with infinite values. *)
Definition two_infinite_values : DataFrame :=
  mkDF 2 [("Time", NumCol [num 0; num 1]);
          ("value", NumCol [NInf; PInf])].


(** * Properties *)

(** ** Column names *)

Lemma length_append (s t : string) :
  String.length (s ++ t) = String.length s + String.length t.
Proof. induction s as [|a s IH]; simpl; [reflexivity | now rewrite IH]. Qed.

Lemma append_not_Time (c suffix : string) :
  4 < String.length suffix -> c ++ suffix <> "Time".
Proof.
  intros Hlen Heq.
  apply (f_equal String.length) in Heq.
  rewrite length_append in Heq. simpl in Heq. lia.
Qed.

Lemma append_suffix_inj (s s' t t' : string) :
  String.length t = String.length t' ->
  s ++ t = s' ++ t' -> s = s' /\ t = t'.
Proof.
  revert s'. induction s as [|a s IH]; intros [|a' s'] Hlen Heq; simpl in *.
  - now split.
  - apply (f_equal String.length) in Heq. simpl in Heq.
    rewrite length_append in Heq. lia.
  - apply (f_equal String.length) in Heq. simpl in Heq.
    rewrite length_append in Heq. lia.
  - injection Heq as -> Heq. destruct (IH s' Hlen Heq) as [-> ->]. now split.
Qed.

Lemma deriv2_not_deriv1 (c c' : string) : c ++ "_deriv2" <> c' ++ "_deriv1".
Proof.
  intros Heq. apply append_suffix_inj in Heq; [|reflexivity].
  destruct Heq as [_ Heq]. discriminate.
Qed.

(** ** Frames: lookup and assignment *)

Lemma lookup_assign_same name c cs : lookup name (assign name c cs) = Some c.
Proof.
  induction cs as [|[n c'] cs IH]; simpl.
  - now rewrite String.eqb_refl.
  - destruct (String.eqb n name) eqn:E; simpl; rewrite E; auto.
Qed.

Lemma lookup_assign_other name name' c cs :
  name <> name' -> lookup name' (assign name c cs) = lookup name' cs.
Proof.
  intros Hne. induction cs as [|[n c'] cs IH]; simpl.
  - apply String.eqb_neq in Hne. now rewrite Hne.
  - destruct (String.eqb n name) eqn:E; simpl.
    + apply String.eqb_eq in E. subst n.
      apply String.eqb_neq in Hne. now rewrite Hne.
    + destruct (String.eqb n name'); auto.
Qed.

Lemma in_names_assign name c cs x :
  In x (map fst (assign name c cs)) <-> x = name \/ In x (map fst cs).
Proof.
  induction cs as [|[n c'] cs IH]; simpl.
  - intuition.
  - destruct (String.eqb n name) eqn:E; simpl.
    + apply String.eqb_eq in E. subst n. intuition.
    + rewrite IH. intuition.
Qed.

Lemma names_assign_present name c cs :
  In name (map fst cs) -> map fst (assign name c cs) = map fst cs.
Proof.
  induction cs as [|[n c'] cs IH]; simpl; [tauto|].
  intros Hin. destruct (String.eqb n name) eqn:E; simpl; [reflexivity|].
  f_equal. apply IH. destruct Hin as [->|]; [|assumption].
  now rewrite String.eqb_refl in E.
Qed.

Lemma names_assign_absent name c cs :
  ~ In name (map fst cs) -> map fst (assign name c cs) = (map fst cs ++ [name])%list.
Proof.
  induction cs as [|[n c'] cs IH]; simpl; [reflexivity|].
  intros Hnin. destruct (String.eqb n name) eqn:E; simpl.
  - apply String.eqb_eq in E. tauto.
  - f_equal. apply IH. tauto.
Qed.

Lemma NoDup_assign name c cs :
  NoDup (map fst cs) -> NoDup (map fst (assign name c cs)).
Proof.
  intros Hnd. destruct (in_dec string_dec name (map fst cs)) as [Hin|Hnin].
  - now rewrite names_assign_present.
  - rewrite names_assign_absent by assumption.
    apply NoDup_app; [assumption| constructor; [simpl; tauto|constructor] |].
    intros x Hx [<-|[]]. contradiction.
Qed.

Lemma Forall_assign (P : string * column -> Prop) name c cs :
  (forall n, P (n, c)) -> Forall P cs -> Forall P (assign name c cs).
Proof.
  intros Hc. induction 1 as [|[n c'] cs Hx Hcs IH]; simpl.
  - constructor; auto.
  - destruct (String.eqb n name); constructor; auto.
Qed.

Lemma lookup_in name cs c : lookup name cs = Some c -> In (name, c) cs.
Proof.
  induction cs as [|[n c'] cs IH]; simpl; [discriminate|].
  destruct (String.eqb n name) eqn:E.
  - apply String.eqb_eq in E. intros [= ->]. subst. now left.
  - auto.
Qed.

Lemma lookup_none name cs : lookup name cs = None <-> ~ In name (map fst cs).
Proof.
  induction cs as [|[n c'] cs IH]; simpl; [tauto|].
  destruct (String.eqb n name) eqn:E.
  - apply String.eqb_eq in E. intuition discriminate.
  - apply String.eqb_neq in E. rewrite IH. tauto.
Qed.

Lemma in_lookup name cs :
  In name (map fst cs) -> exists c, lookup name cs = Some c.
Proof.
  intros Hin. destruct (lookup name cs) eqn:E; [eauto|].
  apply lookup_none in E. contradiction.
Qed.

(** ** Results and loops *)

Lemma bind_ok {A B : Type} (m : outcome A) (k : A -> outcome B) (b : B) :
  bind m k = Ok b -> exists a, m = Ok a /\ k a = Ok b.
Proof. destruct m; simpl; [eauto | discriminate]. Qed.

Ltac inv_bind H :=
  let a := fresh "a" in
  let Ha := fresh "Ha" in
  apply bind_ok in H; destruct H as (a & Ha & H).

Lemma for_each_app {A S : Type} (xs ys : list A) (body : A -> S -> outcome S) s :
  for_each (xs ++ ys)%list body s = let* s' := for_each xs body s in for_each ys body s'.
Proof.
  revert s. induction xs as [|x xs IH]; intros s; simpl; [reflexivity|].
  destruct (body x s); simpl; auto.
Qed.

Lemma for_each_single {A S : Type} (x : A) (body : A -> S -> outcome S) s :
  for_each [x] body s = body x s.
Proof. simpl. now destruct (body x s). Qed.

(** A step relation kept by every iteration is kept by the loop. *)
Lemma for_each_rel {A S : Type} (R : S -> S -> Prop)
  (xs : list A) (body : A -> S -> outcome S) :
  (forall s, R s s) ->
  (forall s1 s2 s3, R s1 s2 -> R s2 s3 -> R s1 s3) ->
  (forall x s s', In x xs -> body x s = Ok s' -> R s s') ->
  forall s s', for_each xs body s = Ok s' -> R s s'.
Proof.
  intros Hrefl Htrans. induction xs as [|x xs IH]; intros Hbody s s' H; simpl in H.
  - injection H as <-. apply Hrefl.
  - inv_bind H. apply Htrans with a.
    + apply (Hbody x); [now left | assumption].
    + apply IH; [|assumption]. intros y t t' Hy. apply Hbody. now right.
Qed.

Lemma setitem_ok s name c s' :
  setitem s name c = Ok s' ->
  col_len c = nrows s /\ s' = mkDF (nrows s) (assign name c (cols s)).
Proof.
  unfold setitem. destruct (Nat.eqb (col_len c) (nrows s)) eqn:E; [|discriminate].
  apply Nat.eqb_eq in E. intros [= <-]. now split.
Qed.

Lemma updates_one s name c s' : setitem s name c = Ok s' -> updates s [name] s'.
Proof. intros H. econstructor; [eassumption | constructor]. Qed.

Lemma updates_app s ns s' ms s'' :
  updates s ns s' -> updates s' ms s'' -> updates s (ns ++ ms)%list s''.
Proof.
  induction 1 as [|s name c s1 ns s2 Hset Hup IH]; simpl; [auto|].
  intros H. econstructor; [eassumption | auto].
Qed.

Lemma updates_nrows s ns s' : updates s ns s' -> nrows s' = nrows s.
Proof.
  induction 1 as [|s name c s1 ns s2 Hset Hup IH]; [reflexivity|].
  apply setitem_ok in Hset. destruct Hset as [_ ->]. exact IH.
Qed.

Lemma setitem_wf s name c s' : setitem s name c = Ok s' -> wf s -> wf s'.
Proof.
  intros Hset [Hnd Hlen]. apply setitem_ok in Hset. destruct Hset as [Hc ->].
  split; simpl.
  - now apply NoDup_assign.
  - now apply Forall_assign.
Qed.

Lemma updates_wf s ns s' : updates s ns s' -> wf s -> wf s'.
Proof.
  induction 1 as [|s name c s1 ns s2 Hset Hup IH]; [auto|].
  intros Hwf. apply IH. eapply setitem_wf; eassumption.
Qed.

Lemma updates_lookup s ns s' name :
  updates s ns s' -> ~ In name ns ->
  lookup name (cols s') = lookup name (cols s).
Proof.
  induction 1 as [|s n c s1 ns s2 Hset Hup IH]; [reflexivity|].
  intros Hnin. simpl in Hnin. rewrite IH by tauto.
  apply setitem_ok in Hset. destruct Hset as [_ ->]. simpl.
  apply lookup_assign_other. tauto.
Qed.


Lemma for_each_updates {A : Type} (names : A -> list string)
  (xs : list A) (body : A -> DataFrame -> outcome DataFrame) :
  (forall x s s', body x s = Ok s' -> updates s (names x) s') ->
  forall s s', for_each xs body s = Ok s' -> updates s (flat_map names xs) s'.
Proof.
  intros Hbody. induction xs as [|x xs IH]; intros s s' H; simpl in H.
  - injection H as <-. constructor.
  - inv_bind H. simpl. eapply updates_app; eauto.
Qed.

Lemma keeps_refl s : keeps s s.
Proof. exists []. split; [constructor | simpl; tauto]. Qed.

Lemma keeps_trans s1 s2 s3 : keeps s1 s2 -> keeps s2 s3 -> keeps s1 s3.
Proof.
  intros (ns & H1 & N1) (ms & H2 & N2). exists (ns ++ ms)%list. split.
  - eapply updates_app; eassumption.
  - rewrite in_app_iff. tauto.
Qed.

Lemma keeps_nrows s s' : keeps s s' -> nrows s' = nrows s.
Proof. intros (ns & H & _). eapply updates_nrows; eassumption. Qed.

Lemma keeps_wf s s' : keeps s s' -> wf s -> wf s'.
Proof. intros (ns & H & _). eapply updates_wf; eassumption. Qed.

Lemma keeps_Time s s' :
  keeps s s' -> lookup "Time" (cols s') = lookup "Time" (cols s).
Proof. intros (ns & H & N). eapply updates_lookup; eassumption. Qed.

Lemma for_each_keeps {A : Type} (xs : list A)
  (body : A -> DataFrame -> outcome DataFrame) :
  (forall x s s', In x xs -> body x s = Ok s' -> keeps s s') ->
  forall s s', for_each xs body s = Ok s' -> keeps s s'.
Proof. apply for_each_rel; [exact keeps_refl | exact keeps_trans]. Qed.

(** ** The assignments of each stage *)

Lemma with_suffixes_not_Time suffixes col :
  Forall (fun suffix => 4 < String.length suffix) suffixes ->
  ~ In "Time" (with_suffixes suffixes col).
Proof.
  unfold with_suffixes. intros Hall Hin. apply in_map_iff in Hin.
  destruct Hin as (suffix & Heq & Hin).
  rewrite Forall_forall in Hall. eapply append_not_Time; eauto.
Qed.

Ltac inv_binds H :=
  repeat (let a := fresh "a" in
          let Ha := fresh "Ha" in
          apply bind_ok in H; destruct H as (a & Ha & H)).

Ltac chain_updates :=
  repeat (first [ eapply updates_cons; [eassumption|] | apply updates_nil ]).

Lemma derivatives_step_updates col s s' :
  derivatives_step col s = Ok s' ->
  updates s (with_suffixes derivative_suffixes col
             ++ with_suffixes derivative_suffixes col)%list s'.
Proof.
  unfold derivatives_step. intros H. inv_binds H. simpl. chain_updates.
Qed.

Lemma clean_step_updates col s s' :
  clean_step col s = Ok s' ->
  updates s (if String.eqb col "Time" then [] else [col]) s'.
Proof.
  unfold clean_step. destruct (String.eqb col "Time").
  - intros [= <-]. constructor.
  - intros H. inv_binds H. chain_updates.
Qed.

Lemma normalize_step_keeps col s s' : normalize_step col s = Ok s' -> keeps s s'.
Proof.
  unfold normalize_step. destruct (String.eqb col "Time") eqn:E.
  - intros [= <-]. apply keeps_refl.
  - apply String.eqb_neq in E. intros H. inv_bind H. destruct a as [vs|vs].
    + destruct (fgt (smax vs) (smin vs)).
      * exists [col]. split; [now apply updates_one in H | simpl; intuition].
      * injection H as <-. apply keeps_refl.
    + destruct (str_min vs), (str_max vs); try (injection H as <-; apply keeps_refl).
      destruct (String.ltb s0 s1); [discriminate|].
      injection H as <-. apply keeps_refl.
Qed.

Lemma label_step_updates row s s' :
  label_step row s = Ok s' -> updates s ["label"] s'.
Proof. unfold label_step. intros H. inv_binds H. chain_updates. Qed.

Section Stages.

Variable fsqrt : float -> float.
Variable rfft_mag : list float -> nat -> float.

Lemma rolling_step_updates w col s s' :
  rolling_step fsqrt w col s = Ok s' ->
  updates s (with_suffixes rolling_suffixes col) s'.
Proof.
  unfold rolling_step. intros H. inv_binds H. simpl. chain_updates.
Qed.

Lemma frequency_step_updates data w col s s' :
  frequency_step rfft_mag data w col s = Ok s' ->
  updates s (with_suffixes frequency_suffixes col) s'.
Proof.
  unfold frequency_step. intros H. inv_bind H. destruct a as [fs ms].
  inv_binds H. simpl. chain_updates.
Qed.

End Stages.

(** ** Lengths of series *)

Lemma length_ffill_from last vs :
  List.length (ffill_from last vs) = List.length vs.
Proof.
  revert last. induction vs as [|v vs IH]; intros last; simpl; [reflexivity|].
  destruct (isna v); simpl; now rewrite IH.
Qed.

Lemma length_bfill vs : List.length (bfill vs) = List.length vs.
Proof. induction vs as [|v vs IH]; simpl; [reflexivity | now rewrite IH]. Qed.

Lemma col_len_fill c : col_len (fill_column c) = col_len c.
Proof.
  destruct c as [vs|vs]; simpl; [|reflexivity].
  unfold ffill. now rewrite length_bfill, length_ffill_from.
Qed.

Lemma length_clip lo hi vs : List.length (clip lo hi vs) = List.length vs.
Proof.
  unfold clip.
  destruct (isna lo), (isna hi); try destruct (flt hi lo); apply length_map.
Qed.

Lemma length_diff vs : List.length (diff vs) = List.length vs.
Proof.
  destruct vs as [|v vs]; simpl; [reflexivity|]. f_equal.
  revert v. induction vs as [|x vs IH]; intros v; simpl; [reflexivity|].
  now rewrite IH.
Qed.

Lemma length_div_series a b :
  List.length a = List.length b -> List.length (div_series a b) = List.length a.
Proof.
  revert b. induction a as [|x a IH]; intros [|y b] H; simpl in *;
    try reflexivity; try discriminate.
  f_equal. apply IH. lia.
Qed.

Lemma length_fillna v vs : List.length (fillna v vs) = List.length vs.
Proof. apply length_map. Qed.

Lemma length_set_where mask v ls :
  List.length (set_where mask v ls) = List.length ls.
Proof.
  revert ls. induction mask as [|m mask IH]; intros [|l ls]; simpl; auto.
Qed.

(** ** Frames after each stage *)

Lemma columns_fillna_frame df : columns (fillna_frame df) = columns df.
Proof.
  unfold columns, fillna_frame. simpl. rewrite map_map. reflexivity.
Qed.

Lemma lookup_fillna_frame name df :
  lookup name (cols (fillna_frame df)) =
  option_map fill_column (lookup name (cols df)).
Proof.
  unfold fillna_frame. simpl.
  induction (cols df) as [|[n c] cs IH]; simpl; [reflexivity|].
  destruct (String.eqb n name); [reflexivity | exact IH].
Qed.

Lemma wf_fillna_frame df : wf df -> wf (fillna_frame df).
Proof.
  intros [Hnd Hlen]. split.
  - now rewrite columns_fillna_frame.
  - unfold fillna_frame. simpl. rewrite Forall_map.
    eapply Forall_impl; [|exact Hlen].
    intros [n c] H. simpl in *. now rewrite col_len_fill.
Qed.

Lemma clean_data_keeps df out :
  clean_data df = Ok out -> keeps (fillna_frame df) out.
Proof.
  unfold clean_data. apply for_each_keeps.
  intros col s s' _ H. apply clean_step_updates in H.
  destruct (String.eqb col "Time") eqn:E.
  - inversion H. apply keeps_refl.
  - apply String.eqb_neq in E. exists [col]. split; [assumption|].
    simpl. intuition.
Qed.

Lemma normalize_data_keeps df out : normalize_data df = Ok out -> keeps df out.
Proof.
  unfold normalize_data. apply for_each_keeps.
  intros col s s' _. apply normalize_step_keeps.
Qed.

Lemma add_label_column_keeps df labels out :
  add_label_column df labels = Ok out -> keeps df out.
Proof.
  unfold add_label_column. destruct labels as [[|row rows]|];
    try (intros [= <-]; apply keeps_refl).
  intros H. inv_bind H. apply keeps_trans with a.
  - exists ["label"]. split; [now apply updates_one in Ha|].
    simpl. intros [E|[]]. discriminate.
  - revert H. apply for_each_keeps. intros r s s' _ Hs.
    apply label_step_updates in Hs. exists ["label"]. split; [assumption|].
    simpl. intros [E|[]]. discriminate.
Qed.

Lemma derivatives_updates data cs out :
  calculate_derivatives data cs = Ok out ->
  updates data
    (flat_map (fun col => with_suffixes derivative_suffixes col
                          ++ with_suffixes derivative_suffixes col)%list
              (columns_or_default data cs)) out.
Proof.
  unfold calculate_derivatives. apply for_each_updates.
  intros col s s'. apply derivatives_step_updates.
Qed.

Lemma suffixed_not_Time suffixes cs :
  Forall (fun suffix => 4 < String.length suffix) suffixes ->
  ~ In "Time" (flat_map (with_suffixes suffixes) cs).
Proof.
  intros Hall Hin. apply in_flat_map in Hin. destruct Hin as (c & _ & Hin).
  revert Hin. now apply with_suffixes_not_Time.
Qed.

Lemma derivatives_keeps data cs out :
  calculate_derivatives data cs = Ok out -> keeps data out.
Proof.
  intros H. apply derivatives_updates in H. eexists. split; [exact H|].
  intros Hin. apply in_flat_map in Hin. destruct Hin as (c & _ & Hin).
  assert (Hnot : ~ In "Time" (with_suffixes derivative_suffixes c)).
  { apply with_suffixes_not_Time. repeat constructor; simpl; lia. }
  apply in_app_iff in Hin. tauto.
Qed.

Section StageFrames.

Variable fsqrt : float -> float.
Variable rfft_mag : list float -> nat -> float.

Lemma rolling_updates data w cs out :
  calculate_rolling_statistics fsqrt data w cs = Ok out ->
  updates data
    (flat_map (with_suffixes rolling_suffixes) (columns_or_default data cs)) out.
Proof.
  unfold calculate_rolling_statistics. apply for_each_updates.
  intros col s s'. apply rolling_step_updates.
Qed.

Lemma frequency_updates data cs w out :
  extract_frequency_features rfft_mag data cs w = Ok out ->
  updates data
    (flat_map (with_suffixes frequency_suffixes) (columns_or_default data cs)) out.
Proof.
  unfold extract_frequency_features. apply for_each_updates.
  intros col s s'. apply frequency_step_updates.
Qed.

Lemma rolling_keeps data w cs out :
  calculate_rolling_statistics fsqrt data w cs = Ok out -> keeps data out.
Proof.
  intros H. apply rolling_updates in H. eexists. split; [exact H|].
  apply suffixed_not_Time. unfold rolling_suffixes.
  repeat constructor; simpl; lia.
Qed.

Lemma frequency_keeps data cs w out :
  extract_frequency_features rfft_mag data cs w = Ok out -> keeps data out.
Proof.
  intros H. apply frequency_updates in H. eexists. split; [exact H|].
  apply suffixed_not_Time. repeat constructor; simpl; lia.
Qed.

End StageFrames.

(** ** calculate_derivatives: the first rows *)

Lemma get_num_lookup s name vs :
  get_num s name = Ok vs <-> lookup name (cols s) = Some (NumCol vs).
Proof.
  unfold get_num, getitem. destruct (lookup name (cols s)) as [[v|v]|]; simpl;
    split; intros H; try discriminate; congruence.
Qed.

Lemma get_str_lookup s name vs :
  get_str s name = Ok vs <-> lookup name (cols s) = Some (StrCol vs).
Proof.
  unfold get_str, getitem. destruct (lookup name (cols s)) as [[v|v]|]; simpl;
    split; intros H; try discriminate; congruence.
Qed.

Lemma fillna_zero_at k d : nan_at k d -> zero_at k (fillna f0 d).
Proof.
  unfold nan_at, zero_at, fillna. intros H x Hx.
  rewrite nth_error_map in Hx. destruct (nth_error d k) as [y|] eqn:E; [|discriminate].
  injection Hx as <-. now rewrite (H y eq_refl).
Qed.

Lemma fsub_NaN_r x : fsub x NaN = NaN.
Proof. now destruct x. Qed.

Lemma div_series_nan_0 a b : nan_at 0 (div_series (diff a) b).
Proof.
  intros x. destruct a as [|v a]; simpl; [discriminate|].
  destruct b as [|y b]; simpl; [discriminate|]. now intros [= <-].
Qed.

Lemma div_series_nan_1 a b : nan_at 0 a -> nan_at 1 (div_series (diff a) b).
Proof.
  intros Ha x. destruct a as [|v [|w a]]; simpl; try discriminate.
  - destruct b; discriminate.
  - destruct b as [|y [|z b]]; simpl; try discriminate.
    intros [= <-]. rewrite (Ha v eq_refl), fsub_NaN_r. reflexivity.
Qed.

Lemma deriv1_not_deriv2 col : col ++ "_deriv1" <> col ++ "_deriv2".
Proof. intros H. symmetry in H. revert H. apply deriv2_not_deriv1. Qed.

Lemma derivatives_step_spec col s s' :
  derivatives_step col s = Ok s' ->
  exists v t,
    get_num s col = Ok v /\ get_num s "Time" = Ok t /\
    let d1 := div_series (diff v) (diff t) in
    let d2 := div_series (diff d1) (diff t) in
    lookup (col ++ "_deriv1") (cols s') = Some (NumCol (fillna f0 d1)) /\
    lookup (col ++ "_deriv2") (cols s') = Some (NumCol (fillna f0 d2)) /\
    List.length d1 = nrows s /\ List.length d2 = nrows s.
Proof.
  unfold derivatives_step. intros H.
  assert (HT : col ++ "_deriv1" <> "Time") by (apply append_not_Time; simpl; lia).
  pose proof (deriv1_not_deriv2 col) as H12.
  inv_bind H. rename a into v, Ha into Hv.
  inv_bind H. rename a into t, Ha into Ht.
  inv_bind H. rename a into s1, Ha into Hs1.
  inv_bind H. rename a into d1, Ha into Hd1.
  inv_bind H. rename a into t', Ha into Ht'.
  inv_bind H. rename a into s2, Ha into Hs2.
  inv_bind H. rename a into d1', Ha into Hd1'.
  inv_bind H. rename a into s3, Ha into Hs3.
  inv_bind H. rename a into d2, Ha into Hd2.
  apply setitem_ok in Hs1, Hs2, Hs3, H.
  destruct Hs1 as [L1 ->], Hs2 as [L2 ->], Hs3 as [L3 ->], H as [L4 ->].
  apply get_num_lookup in Hd1, Ht', Hd1', Hd2. simpl in *.
  rewrite lookup_assign_same in Hd1. injection Hd1 as <-.
  rewrite lookup_assign_other in Ht' by assumption.
  apply get_num_lookup in Ht. rewrite Ht in Ht'. injection Ht' as <-.
  rewrite lookup_assign_other, lookup_assign_same in Hd1' by congruence.
  injection Hd1' as <-.
  rewrite lookup_assign_other, lookup_assign_same in Hd2 by congruence.
  injection Hd2 as <-.
  exists v, t. split; [assumption|]. split; [now apply get_num_lookup|].
  simpl. rewrite lookup_assign_other by congruence.
  rewrite lookup_assign_same, lookup_assign_same. auto.
Qed.

Lemma derivatives_step_establishes col s s' :
  derivatives_step col s = Ok s' -> derivatives_of s' col.
Proof.
  intros H. pose proof (derivatives_step_updates _ _ _ H) as Hup.
  apply updates_nrows in Hup.
  apply derivatives_step_spec in H.
  destruct H as (v & t & _ & _ & H1 & H2 & L1 & L2).
  eexists _, _. split; [exact H1|]. split; [exact H2|].
  rewrite !length_fillna, Hup. repeat split; try assumption.
  - apply fillna_zero_at, div_series_nan_0.
  - apply fillna_zero_at, div_series_nan_0.
  - apply fillna_zero_at, div_series_nan_1, div_series_nan_0.
Qed.

Lemma derivatives_step_preserves col col' s s' :
  derivatives_step col' s = Ok s' -> derivatives_of s col -> derivatives_of s' col.
Proof.
  intros H Hcol. destruct (string_dec col col') as [->|Hne].
  - eapply derivatives_step_establishes; eassumption.
  - apply derivatives_step_updates in H.
    destruct Hcol as (d1 & d2 & H1 & H2 & Hrest).
    exists d1, d2.
    rewrite (updates_nrows _ _ _ H).
    rewrite !(updates_lookup _ _ _ _ H); [tauto| |].
    + simpl. intros [E|[E|[E|[E|[]]]]];
        try (apply append_suffix_inj in E; [|reflexivity]; destruct E; congruence).
    + simpl. intros [E|[E|[E|[E|[]]]]];
        try (apply append_suffix_inj in E; [|reflexivity]; destruct E; congruence).
Qed.

Lemma derivatives_loop_preserves col cs s s' :
  for_each cs derivatives_step s = Ok s' ->
  derivatives_of s col -> derivatives_of s' col.
Proof.
  revert s. induction cs as [|c cs IH]; intros s H Hcol; simpl in H.
  - now injection H as <-.
  - inv_bind H. eapply IH; [eassumption|].
    eapply derivatives_step_preserves; eassumption.
Qed.

Lemma derivatives_loop cs s s' :
  for_each cs derivatives_step s = Ok s' ->
  forall col, In col cs -> derivatives_of s' col.
Proof.
  revert s. induction cs as [|c cs IH]; intros s H col Hin; simpl in *; [tauto|].
  inv_bind H. destruct Hin as [<-|Hin].
  - eapply derivatives_loop_preserves; [eassumption|].
    eapply derivatives_step_establishes; eassumption.
  - eapply IH; eassumption.
Qed.

(** ** extract_frequency_features: the loop over rows *)

Lemma length_slice_le {A : Type} (a b : Z) (vs : list A) :
  List.length (slice a b vs) <= Z.to_nat (b - a).
Proof. unfold slice. rewrite length_firstn. lia. Qed.

Section Spectral.

Variable rfft_mag : list float -> nat -> float.

Lemma spectral_row_value data col w i fs ms :
  spectral_row rfft_mag data col w i (fs, ms) =
  let* p := spectral_value rfft_mag data col w i in
  Ok (append1 fs (fst p), append1 ms (snd p)).
Proof.
  unfold spectral_row, spectral_value.
  destruct (getitem data col) as [[vs|vs]|e]; simpl; [| |reflexivity].
  - destruct (Nat.ltb 10 _); [|reflexivity].
    destruct (argmax _); simpl; [|reflexivity].
    destruct (Nat.ltb _ _); reflexivity.
  - destruct (Nat.ltb 10 _); reflexivity.
Qed.

(** The two lists after the rows [a .. a+n-1]: one value more per row,
    the value of that row. *)
Lemma spectral_loop data col w n : forall a fs ms fs' ms',
  for_each (seq a n) (spectral_row rfft_mag data col w) (fs, ms) = Ok (fs', ms') ->
  List.length fs' = List.length fs + n /\
  List.length ms' = List.length ms + n /\
  forall k, k < n ->
    exists f m,
      spectral_value rfft_mag data col w (a + k) = Ok (f, m) /\
      nth_error fs' (List.length fs + k) = Some f /\
      nth_error ms' (List.length ms + k) = Some m.
Proof.
  induction n as [|n IH]; intros a fs ms fs' ms' H.
  - simpl in H. injection H as <- <-. repeat split; intros; lia.
  - rewrite seq_S, for_each_app in H. inv_bind H. destruct a0 as [fs1 ms1].
    destruct (IH _ _ _ _ _ Ha) as (L1 & L2 & Hrows).
    rewrite for_each_single, spectral_row_value in H. inv_bind H.
    destruct a0 as [f m]. simpl in H. injection H as <- <-.
    unfold append1. rewrite !length_app. simpl.
    repeat split; try lia.
    intros k Hk. destruct (Nat.eq_dec k n) as [->|Hne].
    + exists f, m. split; [assumption|].
      rewrite !nth_error_app2 by lia.
      replace (_ - _) with 0 by lia. replace (List.length ms + n - _) with 0 by lia.
      now split.
    + destruct (Hrows k) as (f' & m' & Hv & Hf & Hm); [lia|].
      exists f', m'. split; [assumption|].
      rewrite !nth_error_app1 by lia. now split.
Qed.

Lemma spectral_value_small data col w i f m :
  small_window w i ->
  spectral_value rfft_mag data col w i = Ok (f, m) -> f = f0 /\ m = f0.
Proof.
  unfold small_window, spectral_value. intros Hsmall H. inv_bind H.
  destruct a as [vs|vs].
  - pose proof (length_slice_le (Z.max 0 (Z.of_nat i - w + 1)) (Z.of_nat i + 1) vs) as L.
    destruct (Nat.ltb_spec 10 (List.length
      (slice (Z.max 0 (Z.of_nat i - w + 1)) (Z.of_nat i + 1) vs))) as [Hlt|Hge];
      [lia|].
    now injection H as <- <-.
  - pose proof (length_slice_le (Z.max 0 (Z.of_nat i - w + 1)) (Z.of_nat i + 1) vs) as L.
    destruct (Nat.ltb_spec 10 (List.length
      (slice (Z.max 0 (Z.of_nat i - w + 1)) (Z.of_nat i + 1) vs))) as [Hlt|Hge];
      [lia|].
    now injection H as <- <-.
Qed.

Lemma frequency_step_spec data w col s s' :
  frequency_step rfft_mag data w col s = Ok s' ->
  exists fs ms,
    for_each (seq 0 (nrows data)) (spectral_row rfft_mag data col w) ([], [])
      = Ok (fs, ms) /\
    cols s' = assign (col ++ "_dom_mag") (NumCol ms)
                (assign (col ++ "_dom_freq") (NumCol fs) (cols s)).
Proof.
  unfold frequency_step. intros H. inv_bind H. destruct a as [fs ms].
  inv_bind H. apply setitem_ok in Ha0, H.
  destruct Ha0 as [_ ->], H as [_ ->]. simpl. eauto.
Qed.

Lemma frequency_step_small data w col s s' :
  frequency_step rfft_mag data w col s = Ok s' ->
  zero_on_small_windows data w (lookup (col ++ "_dom_freq") (cols s')) /\
  zero_on_small_windows data w (lookup (col ++ "_dom_mag") (cols s')) /\
  forall name, zero_on_small_windows data w (lookup name (cols s)) ->
               zero_on_small_windows data w (lookup name (cols s')).
Proof.
  intros H. apply frequency_step_spec in H. destruct H as (fs & ms & Hloop & ->).
  apply spectral_loop in Hloop. destruct Hloop as (_ & _ & Hrows). simpl in Hrows.
  assert (Hfs : zero_on_small_windows data w (Some (NumCol fs))).
  { exists fs. split; [reflexivity|]. intros i Hi Hsmall.
    destruct (Hrows i Hi) as (f & m & Hv & Hf & _).
    now destruct (spectral_value_small _ _ _ _ _ _ Hsmall Hv) as [<- _]. }
  assert (Hms : zero_on_small_windows data w (Some (NumCol ms))).
  { exists ms. split; [reflexivity|]. intros i Hi Hsmall.
    destruct (Hrows i Hi) as (f & m & Hv & _ & Hm).
    now destruct (spectral_value_small _ _ _ _ _ _ Hsmall Hv) as [_ <-]. }
  assert (Hany : forall name,
    zero_on_small_windows data w (lookup name (cols s)) ->
    zero_on_small_windows data w
      (lookup name (assign (col ++ "_dom_mag") (NumCol ms)
                      (assign (col ++ "_dom_freq") (NumCol fs) (cols s))))).
  { intros name Hname.
    destruct (string_dec (col ++ "_dom_mag") name) as [<-|N1].
    - now rewrite lookup_assign_same.
    - rewrite lookup_assign_other by assumption.
      destruct (string_dec (col ++ "_dom_freq") name) as [<-|N2].
      + now rewrite lookup_assign_same.
      + now rewrite lookup_assign_other by assumption. }
  split; [|split; [|exact Hany]].
  - destruct (string_dec (col ++ "_dom_mag") (col ++ "_dom_freq")) as [E|N].
    + rewrite <- E, lookup_assign_same. exact Hms.
    + rewrite lookup_assign_other, lookup_assign_same by assumption. exact Hfs.
  - now rewrite lookup_assign_same.
Qed.

Lemma frequency_loop_small data w cs : forall s s',
  for_each cs (frequency_step rfft_mag data w) s = Ok s' ->
  (forall name, zero_on_small_windows data w (lookup name (cols s)) ->
                zero_on_small_windows data w (lookup name (cols s'))) /\
  forall col, In col cs ->
    zero_on_small_windows data w (lookup (col ++ "_dom_freq") (cols s')) /\
    zero_on_small_windows data w (lookup (col ++ "_dom_mag") (cols s')).
Proof.
  induction cs as [|c cs IH]; intros s s' H; simpl in H.
  - injection H as <-. split; [auto | intros col []].
  - inv_bind H. destruct (IH _ _ H) as [Hkeep Hcs].
    destruct (frequency_step_small _ _ _ _ _ Ha) as (Hf & Hm & Hstep).
    split; [auto|]. intros col [<-|Hin]; [split; auto | auto].
Qed.

End Spectral.

(** ** np.argmax and np.max *)

Lemma fle_trans x y z : fle x y = true -> fle y z = true -> fle x z = true.
Proof.
  destruct x as [a| | |], y as [b| | |], z as [c| | |]; simpl;
    try discriminate; try reflexivity.
  rewrite !Qle_bool_iff. apply Qle_trans.
Qed.

Lemma fle_total x y :
  isna x = false -> isna y = false -> fle x y = true \/ fle y x = true.
Proof.
  destruct x as [a| | |], y as [b| | |]; simpl; try discriminate; auto.
  intros _ _. rewrite !Qle_bool_iff.
  destruct (Qlt_le_dec a b) as [H|H]; [left; now apply Qlt_le_weak | now right].
Qed.

Lemma fle_refl x : isna x = false -> fle x x = true.
Proof. intros H. destruct (fle_total x x H H); assumption. Qed.

Lemma flt_fle x y : flt x y = true -> fle x y = true.
Proof.
  intros H. assert (isna x = false /\ isna y = false) as [Hx Hy].
  { destruct x, y; simpl in *; auto; discriminate. }
  destruct (fle_total x y Hx Hy) as [|Hyx]; [assumption|].
  destruct x, y; simpl in *; try discriminate; rewrite Hyx in H; discriminate.
Qed.

Lemma not_flt_fle x y :
  isna x = false -> isna y = false -> flt x y = false -> fle y x = true.
Proof.
  destruct x, y; simpl; try discriminate; auto;
    intros _ _ H; apply negb_false_iff in H; assumption.
Qed.

(** One step of [np.argmax] and [np.max]: the running best value. *)
Lemma argmax_from_spec vs : forall pre best bi,
  nth_error pre bi = Some best ->
  let k := argmax_from best bi (List.length pre) vs in
  k < List.length pre + List.length vs /\
  nth_error (pre ++ vs)%list k =
    Some (fold_left (fun best v =>
                       if negb (isna best) && (isna v || flt best v) then v else best)
                    vs best).
Proof.
  induction vs as [|v vs IH]; intros pre best bi Hbest; simpl.
  - assert (bi < List.length pre) by (apply nth_error_Some; congruence).
    rewrite app_nil_r. split; [lia | assumption].
  - assert (Hbi : bi < List.length pre) by (apply nth_error_Some; congruence).
    destruct (negb (isna best) && (isna v || flt best v)).
    + specialize (IH (pre ++ [v])%list v (List.length pre)).
      rewrite length_app in IH. simpl in IH.
      replace (List.length pre + 1) with (S (List.length pre)) in IH by lia.
      rewrite <- app_assoc in IH. simpl in IH.
      destruct IH as [IH1 IH2].
      * rewrite nth_error_app2 by lia. now rewrite Nat.sub_diag.
      * split; [lia | assumption].
    + specialize (IH (pre ++ [v])%list best bi).
      rewrite length_app in IH. simpl in IH.
      replace (List.length pre + 1) with (S (List.length pre)) in IH by lia.
      rewrite <- app_assoc in IH. simpl in IH.
      destruct IH as [IH1 IH2].
      * now rewrite nth_error_app1 by lia.
      * split; [lia | assumption].
Qed.

Lemma argmax_spec v vs :
  exists k, argmax (v :: vs) = Ok k /\ k < List.length (v :: vs) /\
            nth_error (v :: vs) k = Some (amax (v :: vs)).
Proof.
  exists (argmax_from v 0 1 vs). split; [reflexivity|].
  apply (argmax_from_spec vs [v] v 0). reflexivity.
Qed.

(** The running best value is NaN or bounds every value seen. *)
Lemma amax_fold_upper vs : forall best,
  let r := fold_left (fun best v =>
                        if negb (isna best) && (isna v || flt best v) then v else best)
                     vs best in
  isna r = true \/
  (fle best r = true /\ forall x, In x vs -> fle x r = true).
Proof.
  induction vs as [|v vs IH]; intros best; simpl.
  - destruct (isna best) eqn:E; [now left|]. right. split; [now apply fle_refl | tauto].
  - destruct (isna best) eqn:Eb; simpl.
    + destruct (IH best) as [H|[H _]]; [now left|].
      destruct best; simpl in *; discriminate.
    + destruct (isna v) eqn:Ev; simpl.
      * destruct (IH v) as [H|[H _]]; [now left|].
        destruct v; simpl in *; discriminate.
      * destruct (flt best v) eqn:Elt.
        -- destruct (IH v) as [H|[H1 H2]]; [now left|]. right. split.
           ++ eapply fle_trans; [apply flt_fle; eassumption | assumption].
           ++ intros x [<-|Hx]; auto.
        -- destruct (IH best) as [H|[H1 H2]]; [now left|]. right.
           split; [assumption|]. intros x [<-|Hx]; auto.
           eapply fle_trans; [|eassumption]. now apply not_flt_fle.
Qed.

Lemma amax_upper vs x :
  In x vs -> isna (amax vs) = true \/ fle x (amax vs) = true.
Proof.
  destruct vs as [|v vs]; [intros []|]. simpl.
  intros Hin. destruct (amax_fold_upper vs v) as [H|[H1 H2]]; [now left|].
  right. destruct Hin as [<-|Hin]; auto.
Qed.

Lemma length_rfft_abs rfft_mag window :
  List.length (rfft_abs rfft_mag window) = List.length window / 2 + 1.
Proof. unfold rfft_abs. now rewrite length_map, length_seq. Qed.

Lemma length_rfftfreq n : List.length (rfftfreq n) = n / 2 + 1.
Proof. unfold rfftfreq. now rewrite length_map, length_seq. Qed.

(** ** The dominant bin, the first derivative rows, the small windows *)

(** C10. In [extract_frequency_features], for a window of more than 10
    samples the index [idx = argmax(fft_vals[1:]) + 1] is a valid index
    of the frequency bins, so the row takes the first branch and never
    the fallback [(0, 0)]; the magnitude it reports is the largest
    magnitude of the bins [1 ..]: it is [np.max] of them, and unless it
    is NaN no such bin exceeds it. *)
Theorem dominant_bin_is_valid :
  forall (rfft_mag : list float -> nat -> float)
         (data : DataFrame) (col : string) (window_size : Z) (i : nat)
         (dominant_freq dominant_magnitude vs : list float),
    getitem data col = Ok (NumCol vs) ->
    let window :=
      slice (Z.max 0 (Z.of_nat i - window_size + 1)) (Z.of_nat i + 1) vs in
    let fft_vals := rfft_abs rfft_mag window in
    let fft_freq := rfftfreq (List.length window) in
    10 < List.length window ->
    exists k idx,
      argmax (tl fft_vals) = Ok k /\ idx = k + 1 /\
      idx < List.length fft_freq /\ idx < List.length fft_vals /\
      spectral_row rfft_mag data col window_size i
                   (dominant_freq, dominant_magnitude)
        = Ok (append1 dominant_freq (nth idx fft_freq NaN),
              append1 dominant_magnitude (nth idx fft_vals NaN)) /\
      nth idx fft_vals NaN = amax (tl fft_vals) /\
      forall b, 1 <= b < List.length fft_vals ->
        isna (nth idx fft_vals NaN) = true \/
        fle (nth b fft_vals NaN) (nth idx fft_vals NaN) = true.
Proof.
  intros rfft_mag data col w i fs ms vs Hcol window fft_vals fft_freq Hlen.
  assert (Lv : List.length fft_vals = List.length window / 2 + 1)
    by apply length_rfft_abs.
  assert (Lf : List.length fft_freq = List.length window / 2 + 1)
    by apply length_rfftfreq.
  assert (Hhalf : 5 <= List.length window / 2).
  { apply Nat.div_le_lower_bound; lia. }
  destruct fft_vals as [|dc bins] eqn:Evals; [cbn [List.length] in Lv; lia|].
  destruct bins as [|b0 bins]; [cbn [List.length] in Lv; lia|].
  cbn [List.length] in Lv.
  destruct (argmax_spec b0 bins) as (k & Hk & Hlt & Hnth).
  exists k, (k + 1). simpl tl.
  assert (Hidx : nth (k + 1) (dc :: b0 :: bins) NaN = amax (b0 :: bins)).
  { replace (k + 1) with (S k) by lia.
    change (nth (S k) (dc :: b0 :: bins) NaN) with (nth k (b0 :: bins) NaN).
    now apply nth_error_nth. }
  split; [exact Hk|]. split; [reflexivity|].
  cbn [List.length] in *.
  split; [lia|]. split; [lia|].
  split; [|split; [exact Hidx|]].
  - unfold spectral_row. rewrite Hcol. simpl bind. fold window.
    destruct (Nat.ltb_spec 10 (List.length window)) as [_|]; [|lia].
    fold fft_freq. change (rfft_abs rfft_mag window) with fft_vals.
    rewrite Evals. simpl tl. rewrite Hk. simpl bind.
    destruct (Nat.ltb_spec (k + 1) (List.length fft_freq)) as [_|Hge];
      [reflexivity | lia].
  - intros b [Hb1 Hb2]. rewrite Hidx.
    destruct b as [|b]; [lia|].
    change (nth (S b) (dc :: b0 :: bins) NaN) with (nth b (b0 :: bins) NaN).
    apply amax_upper. apply nth_In. cbn [List.length]. lia.
Qed.

Lemma zero_at_nth k d : zero_at k d -> k < List.length d -> nth_error d k = Some f0.
Proof.
  intros Hz Hk. destruct (nth_error d k) as [x|] eqn:E.
  - now rewrite (Hz x E).
  - apply nth_error_None in E. lia.
Qed.

(** C6. [calculate_derivatives] reports [deriv1] at row 0 as 0 and
    [deriv2] at rows 0 and 1 as 0, for every channel it is run on; on
    the table with [Time = [0, 1, 2]] and [value = [0, 10, 30]] it gives
    [deriv1 = [0, 10, 20]] and [deriv2 = [0, 0, 10]]. *)
Theorem derivatives_first_rows_zero :
  (forall (data : DataFrame) (columns : option (list string)) (out : DataFrame)
          (col : string),
      calculate_derivatives data columns = Ok out ->
      In col (columns_or_default data columns) ->
      exists deriv1 deriv2,
        getitem out (col ++ "_deriv1") = Ok (NumCol deriv1) /\
        getitem out (col ++ "_deriv2") = Ok (NumCol deriv2) /\
        List.length deriv1 = nrows data /\ List.length deriv2 = nrows data /\
        (0 < nrows data ->
         nth_error deriv1 0 = Some f0 /\ nth_error deriv2 0 = Some f0) /\
        (1 < nrows data -> nth_error deriv2 1 = Some f0)) /\
  calculate_derivatives three_rows None =
    Ok (mkDF 3 [("Time", NumCol [num 0; num 1; num 2]);
                ("value", NumCol [num 0; num 10; num 30]);
                ("value_deriv1", NumCol [num 0; num 10; num 20]);
                ("value_deriv2", NumCol [num 0; num 0; num 10])]).
Proof.
  split; [|vm_compute; reflexivity].
  intros data columns out col H Hin.
  pose proof (derivatives_keeps _ _ _ H) as Hkeep. apply keeps_nrows in Hkeep.
  unfold calculate_derivatives in H.
  destruct (derivatives_loop _ _ _ H col Hin)
    as (d1 & d2 & H1 & H2 & L1 & L2 & Z1 & Z2 & Z3).
  exists d1, d2. unfold getitem. rewrite H1, H2, L1, L2, Hkeep.
  repeat split; try reflexivity.
  - apply zero_at_nth; [assumption | lia].
  - apply zero_at_nth; [assumption | lia].
  - intros Hn. apply zero_at_nth; [assumption | lia].
Qed.

(** C5, at a duplicate timestamp.  With [Time = [0, 1, 1]] and
    [value = [0, 10, 30]] the code divides [30 - 10] by [1 - 1]:
    [deriv1] at row 2 is [+inf], and so is [deriv2]; [fillna(0)] only
    replaces NaN. *)
Theorem derivatives_at_duplicate_timestamp :
  calculate_derivatives duplicate_timestamp None =
    Ok (mkDF 3 [("Time", NumCol [num 0; num 1; num 1]);
                ("value", NumCol [num 0; num 10; num 30]);
                ("value_deriv1", NumCol [num 0; num 10; PInf]);
                ("value_deriv2", NumCol [num 0; num 0; PInf])]).
Proof. vm_compute. reflexivity. Qed.

(** C7. In the output of [extract_frequency_features], for every channel
    it is run on and every row whose trailing window holds at most 10
    samples, the dominant frequency and the dominant magnitude are 0. *)
Theorem small_window_reports_zero :
  forall (rfft_mag : list float -> nat -> float)
         (data : DataFrame) (columns : option (list string)) (window_size : Z)
         (out : DataFrame) (col : string) (i : nat),
    extract_frequency_features rfft_mag data columns window_size = Ok out ->
    In col (columns_or_default data columns) ->
    i < nrows data ->
    (Z.of_nat i + 1 - Z.max 0 (Z.of_nat i - window_size + 1) <= 10)%Z ->
    exists dom_freq dom_mag,
      getitem out (col ++ "_dom_freq") = Ok (NumCol dom_freq) /\
      getitem out (col ++ "_dom_mag") = Ok (NumCol dom_mag) /\
      nth_error dom_freq i = Some f0 /\
      nth_error dom_mag i = Some f0.
Proof.
  intros rfft_mag data columns w out col i H Hin Hi Hsmall.
  unfold extract_frequency_features in H.
  apply frequency_loop_small in H. destruct H as [_ H].
  destruct (H col Hin) as [(fs & Hfs & Zf) (ms & Hms & Zm)].
  exists fs, ms. unfold getitem. rewrite Hfs, Hms.
  repeat split; [apply Zf | apply Zm]; assumption.
Qed.

(** ** add_label_column *)

Lemma nth_error_set_where mask v ls i m l :
  nth_error mask i = Some m -> nth_error ls i = Some l ->
  nth_error (set_where mask v ls) i = Some (if m then v else l).
Proof.
  revert ls i. induction mask as [|m' mask IH]; intros [|l' ls] [|i]; simpl;
    try discriminate.
  - now intros [= ->] [= ->].
  - apply IH.
Qed.

Lemma overwrite_last rows t l :
  fold_left (fun acc r => if covers r t then Label_string r else acc) rows l =
  match find (fun r => covers r t) (rev rows) with
  | Some r => Label_string r
  | None => l
  end.
Proof.
  induction rows as [|r rows IH] using rev_ind; [reflexivity|].
  rewrite fold_left_app, rev_app_distr. simpl.
  destruct (covers r t); [reflexivity | exact IH].
Qed.

Lemma label_step_spec r s ts ls :
  get_num s "Time" = Ok ts -> get_str s "label" = Ok ls ->
  List.length ls = nrows s ->
  label_step r s =
    Ok (mkDF (nrows s)
          (assign "label"
             (StrCol (set_where (map (covers r) ts) (Label_string r) ls))
             (cols s))).
Proof.
  intros Hts Hls Hlen. unfold label_step. rewrite Hts. simpl bind.
  rewrite Hls. simpl bind. unfold setitem. simpl col_len.
  rewrite length_set_where, Hlen, Nat.eqb_refl. reflexivity.
Qed.

Lemma label_loop rows : forall s ts ls,
  get_num s "Time" = Ok ts -> get_str s "label" = Ok ls ->
  List.length ls = nrows s ->
  exists s' ls',
    for_each rows label_step s = Ok s' /\
    get_str s' "label" = Ok ls' /\ List.length ls' = nrows s /\
    forall i t l, nth_error ts i = Some t -> nth_error ls i = Some l ->
      nth_error ls' i =
        Some (fold_left (fun acc r => if covers r t then Label_string r else acc)
                        rows l).
Proof.
  induction rows as [|r rows IH]; intros s ts ls Hts Hls Hlen.
  - exists s, ls. simpl. repeat split; auto.
  - simpl for_each. rewrite (label_step_spec r s ts ls Hts Hls Hlen). simpl bind.
    set (ls1 := set_where (map (covers r) ts) (Label_string r) ls).
    set (s1 := mkDF _ _).
    destruct (IH s1 ts ls1) as (s' & ls' & Hloop & Hget & Hl & Hrows).
    + apply get_num_lookup. apply get_num_lookup in Hts. subst s1. simpl.
      rewrite lookup_assign_other by discriminate. exact Hts.
    + apply get_str_lookup. subst s1. simpl. apply lookup_assign_same.
    + subst ls1 s1. simpl. now rewrite length_set_where.
    + exists s', ls'. repeat split; try assumption.
      intros i t l Ht Hl'. simpl fold_left. apply Hrows; [assumption|].
      subst ls1. apply nth_error_set_where; [|assumption].
      rewrite nth_error_map, Ht. reflexivity.
Qed.

Lemma add_label_column_rows data row rows times :
  get_num data "Time" = Ok times ->
  exists out labels,
    add_label_column data (Some (row :: rows)) = Ok out /\
    nrows out = nrows data /\
    get_str out "label" = Ok labels /\
    List.length labels = nrows data /\
    forall i t, i < nrows data -> nth_error times i = Some t ->
      nth_error labels i = Some (label_at (row :: rows) t).
Proof.
  intros Hts. unfold add_label_column.
  unfold setitem at 1. simpl col_len. rewrite repeat_length, Nat.eqb_refl.
  simpl bind.
  set (s1 := mkDF _ _).
  destruct (label_loop (row :: rows) s1 times (repeat "NotReady" (nrows data)))
    as (s' & ls' & Hloop & Hget & Hl & Hrows).
  - apply get_num_lookup. apply get_num_lookup in Hts. subst s1. simpl.
    rewrite lookup_assign_other by discriminate. exact Hts.
  - apply get_str_lookup. subst s1. simpl. apply lookup_assign_same.
  - subst s1. simpl. apply repeat_length.
  - exists s', ls'. split; [exact Hloop|].
    assert (Hn : nrows s' = nrows data).
    { apply (for_each_rel (fun a b => nrows b = nrows a)) in Hloop;
        [exact Hloop | reflexivity | intros; congruence |].
      intros r s t _ Hs. apply label_step_updates in Hs.
      now apply updates_nrows in Hs. }
    split; [exact Hn|]. split; [exact Hget|]. split; [exact Hl|].
    intros i t Hi Ht. unfold label_at. rewrite <- overwrite_last.
    apply Hrows; [assumption|]. now apply nth_error_repeat.
Qed.

Lemma add_label_column_total data labels times :
  get_num data "Time" = Ok times -> returns (add_label_column data labels).
Proof.
  intros Hts. destruct labels as [[|row rows]|]; try (now exists data).
  destruct (add_label_column_rows data row rows times Hts) as (out & _ & H & _).
  now exists out.
Qed.

(** C4, as the code has it.  With at least one label row, and a numeric
    [Time] column in the table, [add_label_column] returns the table
    with a [label] column of one value per row: the label of the last
    label row in iteration order whose interval
    [[start_time, start_time + duration]] contains the row's [Time],
    and ["NotReady"] when no interval contains it.  With an empty label
    table, or none, the table comes back as it was. *)
Theorem label_of_last_covering_interval :
  (forall (data : DataFrame) (row : LabelRow) (rows : list LabelRow)
          (times : list float),
      get_num data "Time" = Ok times ->
      exists out labels,
        add_label_column data (Some (row :: rows)) = Ok out /\
        nrows out = nrows data /\
        get_str out "label" = Ok labels /\
        List.length labels = nrows data /\
        forall i t, i < nrows data -> nth_error times i = Some t ->
          nth_error labels i = Some (label_at (row :: rows) t)) /\
  (forall data : DataFrame,
      add_label_column data (Some []) = Ok data /\
      add_label_column data None = Ok data).
Proof.
  split; [exact add_label_column_rows | intros data; split; reflexivity].
Qed.

(** C4 fails for an empty label table: no [label] column is added. *)
Lemma empty_label_table_adds_no_column :
  ~ exists out labels,
      add_label_column three_rows (Some []) = Ok out /\
      get_str out "label" = Ok labels.
Proof. intros (out & labels & [= <-] & H). vm_compute in H. discriminate. Qed.

(** ** Arithmetic on finite floats *)

Lemma has_value_Fin q : has_value (Fin q) q.
Proof. exists q. split; [reflexivity | apply Qeq_refl]. Qed.

Lemma has_value_fin q : has_value (fin q) q.
Proof. exists (Qred q). split; [reflexivity | apply Qred_correct]. Qed.

Lemma has_value_finite x : is_finite x = true -> has_value x (value_of x).
Proof. destruct x; try discriminate. intros _. apply has_value_Fin. Qed.

Lemma has_value_eq x r r' : has_value x r -> (r == r')%Q -> has_value x r'.
Proof. intros (q & -> & H) E. exists q. split; [reflexivity | now rewrite H]. Qed.

Lemma has_value_add x y a b :
  has_value x a -> has_value y b -> has_value (fadd x y) (a + b)%Q.
Proof.
  intros (p & -> & Hp) (q & -> & Hq). simpl.
  eapply has_value_eq; [apply has_value_fin | now rewrite Hp, Hq].
Qed.

Lemma has_value_neg x a : has_value x a -> has_value (fneg x) (- a)%Q.
Proof.
  intros (p & -> & Hp). simpl.
  eapply has_value_eq; [apply has_value_fin | now rewrite Hp].
Qed.

Lemma has_value_sub x y a b :
  has_value x a -> has_value y b -> has_value (fsub x y) (a - b)%Q.
Proof.
  intros Hx Hy. unfold fsub, Qminus. apply has_value_add; [assumption|].
  now apply has_value_neg.
Qed.

Lemma has_value_mul x y a b :
  has_value x a -> has_value y b -> has_value (fmul x y) (a * b)%Q.
Proof.
  intros (p & -> & Hp) (q & -> & Hq). simpl.
  eapply has_value_eq; [apply has_value_fin | now rewrite Hp, Hq].
Qed.

Lemma has_value_div x y a b :
  has_value x a -> has_value y b -> ~ (b == 0)%Q ->
  has_value (fdiv x y) (a / b)%Q.
Proof.
  intros (p & -> & Hp) (q & -> & Hq) Hb. simpl.
  destruct (Qeq_bool q 0) eqn:E.
  - apply Qeq_bool_iff in E. rewrite Hq in E. contradiction.
  - eapply has_value_eq; [apply has_value_fin | now rewrite Hp, Hq].
Qed.

Lemma has_value_fle x y a b :
  has_value x a -> has_value y b -> (fle x y = true <-> (a <= b)%Q).
Proof.
  intros (p & -> & Hp) (q & -> & Hq). simpl.
  rewrite Qle_bool_iff, Hp, Hq. tauto.
Qed.

Lemma has_value_flt x y a b :
  has_value x a -> has_value y b -> (flt x y = true <-> (a < b)%Q).
Proof.
  intros (p & -> & Hp) (q & -> & Hq). simpl.
  rewrite negb_true_iff, <- not_true_iff_false, Qle_bool_iff, Hp, Hq.
  split; [apply Qnot_le_lt | apply Qlt_not_le].
Qed.

Lemma has_value_not_na x a : has_value x a -> isna x = false.
Proof. now intros (p & -> & _). Qed.

Lemma has_value_unique x a b : has_value x a -> has_value x b -> (a == b)%Q.
Proof.
  intros (p & -> & Hp) (q & [= <-] & Hq). now rewrite <- Hp, <- Hq.
Qed.

(** ** Sorting *)

Lemma Forall_insert_sorted (P : float -> Prop) x vs :
  P x -> Forall P vs -> Forall P (insert_sorted x vs).
Proof.
  intros Hx. induction 1 as [|v vs Hv Hvs IH]; simpl.
  - constructor; auto.
  - destruct (fle x v); constructor; auto.
Qed.

Lemma Forall_sort (P : float -> Prop) vs : Forall P vs -> Forall P (sort vs).
Proof.
  induction 1 as [|v vs Hv Hvs IH]; simpl; [constructor|].
  now apply Forall_insert_sorted.
Qed.

Lemma length_insert_sorted x vs :
  List.length (insert_sorted x vs) = S (List.length vs).
Proof.
  induction vs as [|v vs IH]; simpl; [reflexivity|].
  destruct (fle x v); simpl; [reflexivity | now rewrite IH].
Qed.

Lemma length_sort vs : List.length (sort vs) = List.length vs.
Proof.
  induction vs as [|v vs IH]; simpl; [reflexivity|].
  now rewrite length_insert_sorted, IH.
Qed.

Lemma in_insert_sorted x y vs : In y (insert_sorted x vs) -> y = x \/ In y vs.
Proof.
  induction vs as [|v vs IH]; simpl.
  - intuition.
  - destruct (fle x v); simpl; intuition.
Qed.

Lemma ascending_insert x vs :
  isna x = false -> Forall (fun v => isna v = false) vs ->
  ascending vs -> ascending (insert_sorted x vs).
Proof.
  intros Hx. induction vs as [|v vs IH]; intros Hna Hs; simpl.
  - repeat constructor.
  - inversion Hna as [|? ? Hv' Hna']; subst.
    inversion Hs as [|? ? Hs' Hv]; subst.
    destruct (fle x v) eqn:E.
    + constructor; [assumption|]. constructor; [assumption|].
      rewrite Forall_forall in Hv |- *. intros y Hy.
      eapply fle_trans; [exact E | auto].
    + constructor; [now apply IH|].
      rewrite Forall_forall in Hv |- *. intros y Hy.
      apply in_insert_sorted in Hy. destruct Hy as [->|Hy]; [|auto].
      destruct (fle_total x v Hx Hv'); congruence.
Qed.

Lemma ascending_sort vs :
  Forall (fun v => isna v = false) vs -> ascending (sort vs).
Proof.
  induction 1 as [|v vs Hv Hvs IH]; simpl; [constructor|].
  apply ascending_insert; [assumption | now apply Forall_sort | assumption].
Qed.

Lemma ascending_nth vs i j :
  ascending vs -> Forall (fun v => isna v = false) vs ->
  i <= j -> j < List.length vs ->
  fle (nth i vs NaN) (nth j vs NaN) = true.
Proof.
  intros Hs. revert i j. induction Hs as [|v vs Hs IH Hv]; intros i j Hna Hij Hj.
  - simpl in Hj. lia.
  - inversion Hna as [|? ? Hv' Hna']; subst.
    destruct i as [|i], j as [|j]; simpl in *; try lia.
    + now apply fle_refl.
    + rewrite Forall_forall in Hv. apply Hv, nth_In. lia.
    + apply IH; [assumption | lia | lia].
Qed.

(** ** Quantiles *)

Lemma dropna_finite vs :
  Forall (fun v => finite_or_missing v = true) vs ->
  Forall (fun v => is_finite v = true) (dropna vs).
Proof.
  induction 1 as [|v vs Hv Hvs IH]; simpl; [constructor|].
  destruct v; simpl in *; try discriminate; auto.
Qed.

Lemma finite_not_na vs :
  Forall (fun v => is_finite v = true) vs -> Forall (fun v => isna v = false) vs.
Proof. apply Forall_impl. intros [| | |]; simpl; congruence. Qed.

Lemma inject_Z_nonneg z : (0 <= z)%Z -> (0 <= inject_Z z)%Q.
Proof. intros H. change 0%Q with (inject_Z 0). now rewrite <- Zle_Qle. Qed.

Lemma position_bounds p m :
  (0 <= p)%Q -> (p <= 1)%Q ->
  let pos := (p * inject_Z (Z.of_nat m))%Q in
  (0 <= Qfloor pos)%Z /\ (Qfloor pos <= Z.of_nat m)%Z /\
  (inject_Z (Qfloor pos) <= pos)%Q /\ (pos < inject_Z (Qfloor pos) + 1)%Q.
Proof.
  intros Hp0 Hp1 pos.
  assert (Hm : (0 <= inject_Z (Z.of_nat m))%Q).
  { apply inject_Z_nonneg. lia. }
  assert (H0 : (0 <= pos)%Q) by (unfold pos; nra).
  assert (H1 : (pos <= inject_Z (Z.of_nat m))%Q) by (unfold pos; nra).
  repeat split.
  - apply Qfloor_resp_le in H0. exact H0.
  - apply Qfloor_resp_le in H1. now rewrite Qfloor_Z in H1.
  - apply Qfloor_le.
  - pose proof (Qlt_floor pos) as H. rewrite inject_Z_plus in H. exact H.
Qed.

Lemma match_nonempty {A B : Type} (l : list A) (x y : B) :
  l <> [] -> match l with [] => x | _ :: _ => y end = y.
Proof. destruct l; [contradiction | reflexivity]. Qed.

Lemma lerp_lower (i j t : Q) :
  (i <= j)%Q -> (0 <= t)%Q -> (i <= i + (j - i) * t)%Q.
Proof.
  intros Hij Ht. assert (0 <= (j - i) * t)%Q by (apply Qmult_le_0_compat; lra).
  lra.
Qed.

Lemma lerp_upper (i j t : Q) :
  (i <= j)%Q -> (t <= 1)%Q -> (i + (j - i) * t <= j)%Q.
Proof.
  intros Hij Ht.
  assert (0 <= (j - i) * (1 - t))%Q by (apply Qmult_le_0_compat; lra).
  lra.
Qed.

Lemma lerp_monotone (i j t1 t2 : Q) :
  (i <= j)%Q -> (t1 <= t2)%Q -> (i + (j - i) * t1 <= i + (j - i) * t2)%Q.
Proof.
  intros Hij Ht.
  assert (0 <= (j - i) * (t2 - t1))%Q by (apply Qmult_le_0_compat; lra).
  lra.
Qed.

Section Quantile.

Variable a : list float.
Hypothesis a_finite : Forall (fun v => is_finite v = true) a.
Hypothesis a_ascending : ascending a.
Hypothesis a_nonempty : a <> [].

Let n := List.length a.
Let f (k : nat) : Q := value_of (nth k a NaN).

Lemma nth_has_value k : k < n -> has_value (nth k a NaN) (f k).
Proof.
  intros Hk. apply has_value_finite.
  rewrite Forall_forall in a_finite. apply a_finite, nth_In. exact Hk.
Qed.

Lemma nth_monotone i j : i <= j -> j < n -> (f i <= f j)%Q.
Proof.
  intros Hij Hj.
  apply (has_value_fle (nth i a NaN) (nth j a NaN)).
  - apply nth_has_value. lia.
  - now apply nth_has_value.
  - apply ascending_nth; auto. now apply finite_not_na.
Qed.

Lemma n_positive : 0 < n.
Proof. unfold n. destruct a; [contradiction | simpl; lia]. Qed.

Lemma interpolate_monotone p1 p2 :
  (0 <= p1)%Q -> (p1 <= p2)%Q -> (p2 <= 1)%Q ->
  (interpolate a p1 <= interpolate a p2)%Q.
Proof.
  intros H0 H12 H1. pose proof n_positive as Hn.
  unfold interpolate. fold n. fold f.
  set (m := inject_Z (Z.of_nat (n - 1))).
  assert (Hm : (0 <= m)%Q) by (unfold m; apply inject_Z_nonneg; lia).
  destruct (position_bounds p1 (n - 1)) as (A1 & B1 & C1 & D1); [lra | lra |].
  destruct (position_bounds p2 (n - 1)) as (A2 & B2 & C2 & D2); [lra | lra |].
  fold m in A1, B1, C1, D1, A2, B2, C2, D2.
  assert (Hpos : (p1 * m <= p2 * m)%Q) by nra.
  assert (Hz : (Qfloor (p1 * m) <= Qfloor (p2 * m))%Z)
    by now apply Qfloor_resp_le.
  set (z1 := Qfloor (p1 * m)) in *. set (z2 := Qfloor (p2 * m)) in *.
  set (l1 := Z.to_nat z1). set (l2 := Z.to_nat z2).
  assert (Hl1 : l1 < n) by (unfold l1; lia).
  assert (Hl2 : l2 < n) by (unfold l2; lia).
  assert (Hj1 : Nat.min (l1 + 1) (n - 1) < n) by lia.
  assert (Hj2 : Nat.min (l2 + 1) (n - 1) < n) by lia.
  assert (M1 : (f l1 <= f (Nat.min (l1 + 1) (n - 1)))%Q)
    by (apply nth_monotone; lia).
  assert (M2 : (f l2 <= f (Nat.min (l2 + 1) (n - 1)))%Q)
    by (apply nth_monotone; lia).
  destruct (Z.eq_dec z1 z2) as [E|N].
  - assert (El : l1 = l2) by (unfold l1, l2; now rewrite E).
    rewrite <- El in *. rewrite <- E.
    apply lerp_monotone; [exact M1 | lra].
  - assert (M12 : (f (Nat.min (l1 + 1) (n - 1)) <= f l2)%Q).
    { apply nth_monotone; [unfold l1, l2; lia | assumption]. }
    apply Qle_trans with (f (Nat.min (l1 + 1) (n - 1)));
      [apply lerp_upper; [exact M1 | lra]|].
    apply Qle_trans with (f l2); [exact M12|].
    apply lerp_lower; [exact M2 | lra].
Qed.

Lemma interpolate_is_quantile p vs :
  a = sort (dropna vs) -> (0 <= p)%Q -> (p <= 1)%Q ->
  has_value (quantile p vs) (interpolate a p).
Proof.
  intros Ha H0 H1. pose proof n_positive as Hn.
  unfold quantile. rewrite <- Ha. rewrite match_nonempty by assumption.
  unfold interpolate. fold n.
  destruct (position_bounds p (n - 1)) as (A & B & _ & _); [assumption..|].
  set (pos := (p * inject_Z (Z.of_nat (n - 1)))%Q) in *.
  set (lo := Z.to_nat (Qfloor pos)).
  assert (Hlo : lo < n) by (unfold lo; lia).
  assert (Hj : Nat.min (lo + 1) (n - 1) < n) by lia.
  apply has_value_add; [now apply nth_has_value|].
  apply has_value_mul; [|apply has_value_fin].
  apply has_value_sub; now apply nth_has_value.
Qed.

End Quantile.

(** ** Loops that rewrite one column per iteration *)

Lemma for_each_columnwise
  (T : string -> option column -> option column -> Prop)
  (body : string -> DataFrame -> outcome DataFrame) :
  (forall x s s', body x s = Ok s' ->
     T x (lookup x (cols s)) (lookup x (cols s')) /\
     forall y, y <> x -> lookup y (cols s') = lookup y (cols s)) ->
  forall xs, NoDup xs -> forall s s', for_each xs body s = Ok s' ->
    (forall x, In x xs -> T x (lookup x (cols s)) (lookup x (cols s'))) /\
    (forall y, ~ In y xs -> lookup y (cols s') = lookup y (cols s)).
Proof.
  intros Hbody. induction xs as [|x xs IH]; intros Hnd s s' H; simpl in H.
  - injection H as <-. split; [intros x [] | reflexivity].
  - inv_bind H. inversion Hnd as [|? ? Hx Hnd']; subst.
    destruct (Hbody _ _ _ Ha) as [Hstep Hother].
    destruct (IH Hnd' _ _ H) as [Hin Hout].
    split.
    + intros y [<-|Hy].
      * now rewrite (Hout x Hx).
      * rewrite <- (Hother y); [now apply Hin|]. intros ->. contradiction.
    + intros y Hy. simpl in Hy. rewrite Hout by tauto. apply Hother. intuition.
Qed.

Lemma clean_step_column col s s' :
  clean_step col s = Ok s' ->
  (col <> "Time" -> forall vs, lookup col (cols s) = Some (NumCol vs) ->
     lookup col (cols s') = Some (NumCol (iqr_clip vs))) /\
  forall y, y <> col -> lookup y (cols s') = lookup y (cols s).
Proof.
  unfold clean_step. destruct (String.eqb col "Time") eqn:E.
  - apply String.eqb_eq in E. intros [= <-]. split; [congruence | reflexivity].
  - intros H. inv_bind H. apply setitem_ok in H. destruct H as [_ ->]. simpl.
    split.
    + intros _ vs Hvs. apply get_num_lookup in Ha. rewrite Hvs in Ha.
      injection Ha as <-. now rewrite lookup_assign_same.
    + intros y Hy. apply lookup_assign_other. congruence.
Qed.

Lemma normalize_step_column col s s' :
  normalize_step col s = Ok s' ->
  (col <> "Time" -> forall vs, lookup col (cols s) = Some (NumCol vs) ->
     lookup col (cols s') = Some (NumCol (min_max_scale vs))) /\
  forall y, y <> col -> lookup y (cols s') = lookup y (cols s).
Proof.
  unfold normalize_step. destruct (String.eqb col "Time") eqn:E.
  - apply String.eqb_eq in E. intros [= <-]. split; [congruence | reflexivity].
  - intros H. inv_bind H. unfold getitem in Ha.
    destruct (lookup col (cols s)) as [c|] eqn:Hc; [|discriminate].
    injection Ha as <-. destruct c as [vs|vs].
    + split.
      * intros _ vs' [= <-]. unfold min_max_scale.
        destruct (fgt (smax vs) (smin vs)).
        -- apply setitem_ok in H. destruct H as [_ ->]. simpl.
           now rewrite lookup_assign_same.
        -- now injection H as <-.
      * intros y Hy. destruct (fgt (smax vs) (smin vs)).
        -- apply setitem_ok in H. destruct H as [_ ->]. simpl.
           apply lookup_assign_other. congruence.
        -- now injection H as <-.
    + assert (s' = s) as ->.
      { destruct (str_min vs), (str_max vs); try congruence.
        destruct (String.ltb _ _); congruence. }
      split; [|reflexivity]. intros _ vs'. congruence.
Qed.

Lemma clean_data_column df out col vs :
  wf df -> clean_data df = Ok out -> col <> "Time" ->
  lookup col (cols df) = Some (NumCol vs) ->
  lookup col (cols out) = Some (NumCol (iqr_clip (bfill (ffill vs)))).
Proof.
  intros [Hnd _] H Hcol Hvs. unfold clean_data in H.
  apply (for_each_columnwise
           (fun x c c' => x <> "Time" -> forall vs, c = Some (NumCol vs) ->
                          c' = Some (NumCol (iqr_clip vs)))) in H.
  - destruct H as [H _]. apply (H col); [| assumption |].
    + rewrite columns_fillna_frame. apply lookup_in in Hvs.
      apply (in_map fst) in Hvs. exact Hvs.
    + rewrite lookup_fillna_frame, Hvs. reflexivity.
  - intros x s s'. apply clean_step_column.
  - now rewrite columns_fillna_frame.
Qed.


(** ** Filling, quartiles and clipping *)

Lemma ffill_from_finite_or_missing last vs :
  finite_or_missing last = true ->
  Forall (fun v => finite_or_missing v = true) vs ->
  Forall (fun v => finite_or_missing v = true) (ffill_from last vs).
Proof.
  intros Hlast H. revert last Hlast.
  induction H as [|v vs Hv Hvs IH]; intros last Hlast; simpl; [constructor|].
  destruct (isna v); constructor; auto.
Qed.

Lemma bfill_finite_or_missing vs :
  Forall (fun v => finite_or_missing v = true) vs ->
  Forall (fun v => finite_or_missing v = true) (bfill vs).
Proof.
  induction 1 as [|v vs Hv Hvs IH]; simpl; [constructor|].
  constructor; [|assumption].
  destruct (isna v); [|assumption].
  destruct (bfill vs) as [|w ws]; simpl; [reflexivity|].
  now inversion IH.
Qed.

Lemma fill_finite_or_missing vs :
  Forall (fun v => finite_or_missing v = true) vs ->
  Forall (fun v => finite_or_missing v = true) (bfill (ffill vs)).
Proof.
  intros H. apply bfill_finite_or_missing.
  now apply ffill_from_finite_or_missing.
Qed.

Lemma ffill_from_no_missing last vs :
  Forall (fun v => isna v = false) vs -> ffill_from last vs = vs.
Proof.
  intros H. revert last. induction H as [|v vs Hv Hvs IH]; intros last; simpl;
    [reflexivity|].
  rewrite Hv. now rewrite IH.
Qed.

Lemma bfill_no_missing vs : Forall (fun v => isna v = false) vs -> bfill vs = vs.
Proof.
  induction 1 as [|v vs Hv Hvs IH]; simpl; [reflexivity|].
  now rewrite Hv, IH.
Qed.

Lemma fill_no_missing vs :
  Forall (fun v => isna v = false) vs -> bfill (ffill vs) = vs.
Proof.
  intros H. unfold ffill. rewrite ffill_from_no_missing by assumption.
  now apply bfill_no_missing.
Qed.

Lemma dropna_nonempty vs v : In v vs -> isna v = false -> dropna vs <> [].
Proof.
  intros Hin Hv Hnil. assert (In v (dropna vs)) as H.
  { apply filter_In. split; [assumption | now rewrite Hv]. }
  rewrite Hnil in H. contradiction.
Qed.

Lemma quartiles_ordered vs :
  Forall (fun v => finite_or_missing v = true) vs -> dropna vs <> [] ->
  exists q1 q3,
    has_value (quantile 0.25 vs) q1 /\ has_value (quantile 0.75 vs) q3 /\
    (q1 <= q3)%Q.
Proof.
  intros Hvs Hne.
  pose proof (dropna_finite vs Hvs) as Hfin.
  assert (Ha : Forall (fun v => is_finite v = true) (sort (dropna vs)))
    by now apply Forall_sort.
  assert (Hs : ascending (sort (dropna vs)))
    by now apply ascending_sort, finite_not_na.
  assert (Hn : sort (dropna vs) <> []).
  { intros E. apply (f_equal (@List.length float)) in E.
    rewrite length_sort in E. destruct (dropna vs); [contradiction | discriminate]. }
  exists (interpolate (sort (dropna vs)) 0.25), (interpolate (sort (dropna vs)) 0.75).
  split; [|split].
  - apply interpolate_is_quantile; auto; lra.
  - apply interpolate_is_quantile; auto; lra.
  - apply interpolate_monotone; auto; lra.
Qed.

Lemma flt_negb_fle x y :
  isna x = false -> isna y = false -> flt x y = negb (fle y x).
Proof. destruct x, y; simpl; try discriminate; reflexivity. Qed.

Lemma fle_not_na x y : fle x y = true -> isna x = false /\ isna y = false.
Proof. destruct x, y; simpl; try discriminate; auto. Qed.

(** Clipping between two ordered bounds: the nearest bound replaces a
    value outside, and the result lies between the bounds. *)
Lemma clip_value_ordered lo hi v :
  fle lo hi = true ->
  clip_value (Some lo) (Some hi) v =
    (if flt v lo then lo else if flt hi v then hi else v) /\
  (isna v = false ->
   fle lo (clip_value (Some lo) (Some hi) v) = true /\
   fle (clip_value (Some lo) (Some hi) v) hi = true).
Proof.
  intros Hle. destruct (fle_not_na _ _ Hle) as [Hlo Hhi].
  unfold clip_value, fge. destruct (isna v) eqn:Hv.
  - split; [|discriminate]. destruct v; try discriminate.
    destruct lo, hi; reflexivity.
  - rewrite (flt_negb_fle v lo), (flt_negb_fle hi v) by assumption.
    destruct (fle lo v) eqn:E1, (fle v hi) eqn:E2; simpl.
    + auto.
    + split; [reflexivity|]. intros _. split; [assumption | now apply fle_refl].
    + split; [reflexivity|]. intros _. split; [now apply fle_refl | assumption].
    + destruct (fle_total lo v Hlo Hv) as [H|H]; [congruence|].
      rewrite (fle_trans _ _ _ H Hle) in E2. discriminate.
Qed.

Lemma clip_ordered lo hi vs :
  fle lo hi = true -> clip lo hi vs = map (clip_value (Some lo) (Some hi)) vs.
Proof.
  intros Hle. destruct (fle_not_na _ _ Hle) as [Hlo Hhi].
  unfold clip. rewrite Hlo, Hhi, (flt_negb_fle hi lo), Hle by assumption.
  reflexivity.
Qed.

Lemma clip_no_bounds vs : clip NaN NaN vs = vs.
Proof.
  unfold clip. simpl. rewrite <- (map_id vs) at 2. apply map_ext.
  intros v. unfold clip_value. now destruct (isna v).
Qed.

Lemma quantile_all_missing p vs : dropna vs = [] -> quantile p vs = NaN.
Proof. intros H. unfold quantile. now rewrite H. Qed.

Lemma iqr_clip_spec s :
  Forall (fun v => finite_or_missing v = true) s ->
  let Q1 := quantile 0.25 s in
  let Q3 := quantile 0.75 s in
  let IQR := fsub Q3 Q1 in
  let lower_bound := fsub Q1 (fmul (Fin 1.5) IQR) in
  let upper_bound := fadd Q3 (fmul (Fin 1.5) IQR) in
  (forall i v, nth_error s i = Some v ->
     nth_error (iqr_clip s) i =
       Some (if flt v lower_bound then lower_bound
             else if flt upper_bound v then upper_bound else v)) /\
  (forall v, In v (iqr_clip s) -> isna v = false ->
     fle lower_bound v = true /\ fle v upper_bound = true).
Proof.
  intros Hs Q1 Q3 IQR lower_bound upper_bound.
  destruct (dropna s) as [|x xs] eqn:Hdrop.
  - assert (E1 : Q1 = NaN) by now apply quantile_all_missing.
    assert (E3 : Q3 = NaN) by now apply quantile_all_missing.
    assert (El : lower_bound = NaN) by (unfold lower_bound, IQR; now rewrite E1, E3).
    assert (Eu : upper_bound = NaN) by (unfold upper_bound, IQR; now rewrite E1, E3).
    unfold iqr_clip. fold Q1 Q3 IQR lower_bound upper_bound.
    rewrite El, Eu, clip_no_bounds. split.
    + intros i v Hv. rewrite Hv. destruct v; reflexivity.
    + intros v Hin Hv. exfalso. apply (dropna_nonempty s v Hin Hv Hdrop).
  - destruct (quartiles_ordered s Hs) as (q1 & q3 & H1 & H3 & Hle);
      [rewrite Hdrop; discriminate|].
    fold Q1 in H1. fold Q3 in H3.
    assert (HI : has_value IQR (q3 - q1)) by now apply has_value_sub.
    assert (HM : has_value (fmul (Fin 1.5) IQR) (1.5 * (q3 - q1)))
      by (apply has_value_mul; [apply has_value_Fin | exact HI]).
    assert (Hlo : has_value lower_bound (q1 - 1.5 * (q3 - q1)))
      by now apply has_value_sub.
    assert (Hhi : has_value upper_bound (q3 + 1.5 * (q3 - q1)))
      by now apply has_value_add.
    assert (Hbounds : fle lower_bound upper_bound = true).
    { apply (has_value_fle _ _ _ _ Hlo Hhi). lra. }
    unfold iqr_clip. fold Q1 Q3 IQR lower_bound upper_bound.
    rewrite clip_ordered by assumption. split.
    + intros i v Hv. rewrite nth_error_map, Hv. simpl. f_equal.
      now apply clip_value_ordered.
    + intros v Hin Hv. apply in_map_iff in Hin. destruct Hin as (v0 & <- & _).
      apply clip_value_ordered; [assumption|].
      destruct v0; try reflexivity. discriminate.
Qed.

Lemma moderate_finite_or_missing vs :
  Forall (fun v => moderate v = true) vs ->
  Forall (fun v => finite_or_missing v = true) vs.
Proof.
  intros H. eapply Forall_impl; [|exact H].
  intros [q| | |]; simpl; auto.
Qed.

(** C2, as the code has it.  For every column other than [Time] that
    holds missing values or finite numbers within [2^1021]: after
    [clean_data] the column holds, row for row, the values it had after
    the forward and backward fill (the column as it is before the clip;
    the input column itself when nothing is missing), each one outside
    [[Q1 - 1.5 IQR, Q3 + 1.5 IQR]] replaced by the nearest bound, where
    [Q1] and [Q3] are the 25th and 75th percentiles of that pre-clip
    column; so every value of the column lies within the range, and no
    row is removed.  The bound on the values keeps the two fences
    finite. *)
Theorem clean_data_clips_to_iqr_range :
  forall (data out : DataFrame) (column : string) (vs : list float),
    wf data ->
    clean_data data = Ok out ->
    column <> "Time" ->
    getitem data column = Ok (NumCol vs) ->
    Forall (fun v => moderate v = true) vs ->
    let s := bfill (ffill vs) in
    let Q1 := quantile 0.25 s in
    let Q3 := quantile 0.75 s in
    let IQR := fsub Q3 Q1 in
    let lower_bound := fsub Q1 (fmul (Fin 1.5) IQR) in
    let upper_bound := fadd Q3 (fmul (Fin 1.5) IQR) in
    exists cleaned,
      getitem out column = Ok (NumCol cleaned) /\
      nrows out = nrows data /\
      List.length cleaned = List.length vs /\
      (Forall (fun v => isna v = false) vs -> s = vs) /\
      (forall i v, nth_error s i = Some v ->
         nth_error cleaned i =
           Some (if flt v lower_bound then lower_bound
                 else if flt upper_bound v then upper_bound else v)) /\
      (forall v, In v cleaned -> isna v = false ->
         fle lower_bound v = true /\ fle v upper_bound = true).
Proof.
  intros data out column vs Hwf Hclean Hcol Hget Hmod s Q1 Q3 IQR lo hi.
  pose proof (moderate_finite_or_missing vs Hmod) as Hvs.
  assert (Hlook : lookup column (cols data) = Some (NumCol vs)).
  { unfold getitem in Hget. destruct (lookup column (cols data)); congruence. }
  pose proof (clean_data_column _ _ _ _ Hwf Hclean Hcol Hlook) as Hout.
  fold s in Hout.
  exists (iqr_clip s). unfold getitem. rewrite Hout.
  split; [reflexivity|]. split.
  { apply clean_data_keeps, keeps_nrows in Hclean. exact Hclean. }
  split.
  { unfold iqr_clip. rewrite length_clip. unfold s, ffill.
    now rewrite length_bfill, length_ffill_from. }
  split; [apply fill_no_missing|].
  apply iqr_clip_spec. now apply fill_finite_or_missing.
Qed.

(** C2 fails on infinite values.  On [value = [-inf, +inf]] both
    quartiles are NaN, and so are the two fences; no comparison with a
    fence holds, [clean_data] returns the column as it was, and its
    values are not within the range. *)
Lemma clean_data_clips_no_infinite_value :
  exists out,
    clean_data two_infinite_values = Ok out /\
    getitem two_infinite_values "value" = Ok (NumCol [NInf; PInf]) /\
    getitem out "value" = Ok (NumCol [NInf; PInf]) /\
    let s := bfill (ffill [NInf; PInf]) in
    let Q1 := quantile 0.25 s in
    let Q3 := quantile 0.75 s in
    let IQR := fsub Q3 Q1 in
    let lower_bound := fsub Q1 (fmul (Fin 1.5) IQR) in
    let upper_bound := fadd Q3 (fmul (Fin 1.5) IQR) in
    lower_bound = NaN /\ upper_bound = NaN /\
    ~ (fle lower_bound NInf = true /\ fle NInf upper_bound = true) /\
    ~ (fle lower_bound PInf = true /\ fle PInf upper_bound = true).
Proof.
  eexists. split; [vm_compute; reflexivity|].
  split; [reflexivity|]. split; [reflexivity|].
  split; [vm_compute; reflexivity|]. split; [vm_compute; reflexivity|].
  split; intros [H _]; vm_compute in H; discriminate.
Qed.

(** ** Minimum and maximum of a series *)

Lemma dropna_not_na vs : Forall (fun v => isna v = false) (dropna vs).
Proof.
  apply Forall_forall. intros v Hv. apply filter_In in Hv.
  destruct Hv as [_ Hv]. now apply negb_true_iff in Hv.
Qed.

Lemma fold_min_spec xs : forall x,
  Forall (fun v => isna v = false) (x :: xs) ->
  let m := fold_left (fun m v => if flt v m then v else m) xs x in
  In m (x :: xs) /\ forall v, In v (x :: xs) -> fle m v = true.
Proof.
  induction xs as [|y ys IH]; intros x Hna; simpl.
  - inversion Hna; subst. split; [now left|].
    intros v [<-|[]]. now apply fle_refl.
  - inversion Hna as [|? ? Hx Hna']; subst.
    inversion Hna' as [|? ? Hy Hys]; subst.
    set (x' := if flt y x then y else x).
    assert (Hx' : isna x' = false) by (unfold x'; destruct (flt y x); assumption).
    destruct (IH x') as [Hin Hle]; [now constructor|].
    assert (Hxx : fle x' x = true /\ fle x' y = true).
    { unfold x'. destruct (flt y x) eqn:E.
      - split; [now apply flt_fle | now apply fle_refl].
      - split; [now apply fle_refl | now apply not_flt_fle]. }
    split.
    + destruct Hin as [<-|Hin]; [|now right; right].
      unfold x'. destruct (flt y x); [right; now left | now left].
    + intros v [<-|[<-|Hv]].
      * eapply fle_trans; [apply Hle; now left | tauto].
      * eapply fle_trans; [apply Hle; now left | tauto].
      * apply Hle. now right.
Qed.

Lemma fold_max_spec xs : forall x,
  Forall (fun v => isna v = false) (x :: xs) ->
  let m := fold_left (fun m v => if flt m v then v else m) xs x in
  In m (x :: xs) /\ forall v, In v (x :: xs) -> fle v m = true.
Proof.
  induction xs as [|y ys IH]; intros x Hna; simpl.
  - inversion Hna; subst. split; [now left|].
    intros v [<-|[]]. now apply fle_refl.
  - inversion Hna as [|? ? Hx Hna']; subst.
    inversion Hna' as [|? ? Hy Hys]; subst.
    set (x' := if flt x y then y else x).
    assert (Hx' : isna x' = false) by (unfold x'; destruct (flt x y); assumption).
    destruct (IH x') as [Hin Hle]; [now constructor|].
    assert (Hxx : fle x x' = true /\ fle y x' = true).
    { unfold x'. destruct (flt x y) eqn:E.
      - split; [now apply flt_fle | now apply fle_refl].
      - split; [now apply fle_refl | now apply not_flt_fle]. }
    split.
    + destruct Hin as [<-|Hin]; [|now right; right].
      unfold x'. destruct (flt x y); [right; now left | now left].
    + intros v [<-|[<-|Hv]].
      * eapply fle_trans; [|apply Hle; now left]. tauto.
      * eapply fle_trans; [|apply Hle; now left]. tauto.
      * apply Hle. now right.
Qed.

Lemma smin_spec vs :
  dropna vs <> [] ->
  In (smin vs) (dropna vs) /\ forall v, In v (dropna vs) -> fle (smin vs) v = true.
Proof.
  intros Hne. unfold smin. pose proof (dropna_not_na vs) as Hna.
  destruct (dropna vs) as [|x xs]; [contradiction|].
  now apply fold_min_spec.
Qed.

Lemma smax_spec vs :
  dropna vs <> [] ->
  In (smax vs) (dropna vs) /\ forall v, In v (dropna vs) -> fle v (smax vs) = true.
Proof.
  intros Hne. unfold smax. pose proof (dropna_not_na vs) as Hna.
  destruct (dropna vs) as [|x xs]; [contradiction|].
  now apply fold_max_spec.
Qed.


(** ** Min-max scaling *)

Lemma fin_canonical r c : (r == c)%Q -> fin r = Fin (Qred c).
Proof. intros H. unfold fin. f_equal. now apply Qred_complete. Qed.

Section Scaling.

Variables (min_val max_val : float) (a b : Q).
Hypothesis min_value : has_value min_val a.
Hypothesis max_value : has_value max_val b.
Hypothesis range : (a < b)%Q.






End Scaling.

Lemma finite_in_dropna vs v :
  Forall (fun v => finite_or_missing v = true) vs -> In v (dropna vs) ->
  has_value v (value_of v).
Proof.
  intros Hvs Hin. apply has_value_finite.
  pose proof (dropna_finite vs Hvs) as H. rewrite Forall_forall in H. now apply H.
Qed.




(** ** The Time column *)

Lemma getitem_lookup s s' name :
  lookup name (cols s') = lookup name (cols s) -> getitem s' name = getitem s name.
Proof. unfold getitem. now intros ->. Qed.

(** C9, as the code has it.  [normalize_data],
    [calculate_rolling_statistics], [calculate_derivatives] and
    [extract_frequency_features] return the [Time] column of their
    input, value for value.  [clean_data] returns it after the forward
    and backward fill that it applies to every column: identical when
    no timestamp is missing. *)
Theorem time_column_after_each_step :
  forall (fsqrt : float -> float) (rfft_mag : list float -> nat -> float)
         (data out : DataFrame) (columns : option (list string))
         (window_size : Z),
    (normalize_data data = Ok out -> getitem out "Time" = getitem data "Time") /\
    (calculate_rolling_statistics fsqrt data window_size columns = Ok out ->
     getitem out "Time" = getitem data "Time") /\
    (calculate_derivatives data columns = Ok out ->
     getitem out "Time" = getitem data "Time") /\
    (extract_frequency_features rfft_mag data columns window_size = Ok out ->
     getitem out "Time" = getitem data "Time") /\
    (clean_data data = Ok out ->
     getitem out "Time" = getitem (fillna_frame data) "Time" /\
     forall times,
       getitem data "Time" = Ok (NumCol times) ->
       Forall (fun t => isna t = false) times ->
       getitem out "Time" = Ok (NumCol times)).
Proof.
  intros fsqrt rfft_mag data out columns w.
  split; [|split; [|split; [|split]]]; intros H.
  - apply getitem_lookup, keeps_Time. now apply normalize_data_keeps.
  - apply getitem_lookup, keeps_Time. eapply rolling_keeps; eassumption.
  - apply getitem_lookup, keeps_Time. eapply derivatives_keeps; eassumption.
  - apply getitem_lookup, keeps_Time. eapply frequency_keeps; eassumption.
  - apply clean_data_keeps, keeps_Time in H. split.
    { now apply getitem_lookup. }
    intros times Htimes Hna.
    unfold getitem in *. rewrite H, lookup_fillna_frame.
    destruct (lookup "Time" (cols data)) as [c|]; [|discriminate].
    injection Htimes as ->. simpl. now rewrite fill_no_missing.
Qed.

(** C9 fails for [clean_data] on a table with a missing timestamp: the
    fill replaces it. *)
Lemma clean_data_fills_missing_time :
  exists out,
    clean_data gap_in_time = Ok out /\
    getitem gap_in_time "Time" = Ok (NumCol [num 0; NaN; num 2]) /\
    getitem out "Time" = Ok (NumCol [num 0; num 0; num 2]) /\
    getitem out "Time" <> getitem gap_in_time "Time".
Proof.
  eexists. split; [vm_compute; reflexivity|].
  split; [reflexivity|]. split; [reflexivity|]. discriminate.
Qed.

(** ** feature_engineering: the columns it adds *)

Lemma last_char_append s t : t <> "" -> last_char (s ++ t) = last_char t.
Proof.
  intros Ht. induction s as [|c s IH]; [reflexivity|].
  simpl. rewrite IH. destruct (s ++ t) eqn:E; [|reflexivity].
  destruct s; simpl in E; [contradiction | discriminate].
Qed.

Lemma in_suffixed suffixes cs name :
  In name (flat_map (with_suffixes suffixes) cs) <->
  exists channel suffix,
    In channel cs /\ In suffix suffixes /\ name = channel ++ suffix.
Proof.
  rewrite in_flat_map. unfold with_suffixes. split.
  - intros (c & Hc & Hin). apply in_map_iff in Hin.
    destruct Hin as (suffix & <- & Hs). eauto.
  - intros (c & suffix & Hc & Hs & ->). exists c. split; [assumption|].
    apply in_map_iff. eauto.
Qed.

Section FeatureEngineering.

Variable fsqrt : float -> float.
Variable rfft_mag : list float -> nat -> float.

Lemma feature_engineering_updates data r d f w out :
  feature_engineering fsqrt rfft_mag data r d f w = Ok out ->
  exists names,
    updates data names out /\
    forall name, In name names <->
      exists channel suffix,
        In channel (channels data) /\ In suffix (enabled_suffixes r d f) /\
        name = channel ++ suffix.
Proof.
  unfold feature_engineering. intros H.
  inv_bind H. rename a into s1, Ha into H1.
  inv_bind H. rename a into s2, Ha into H2.
  inv_bind H. rename a into s3, Ha into H3.
  injection H as <-.
  assert (U1 : updates data
            (if r then flat_map (with_suffixes rolling_suffixes) (channels data)
             else []) s1).
  { destruct r; [now apply rolling_updates in H1 | injection H1 as <-; constructor]. }
  assert (U2 : updates s1
            (if d then flat_map (fun col => with_suffixes derivative_suffixes col
                                   ++ with_suffixes derivative_suffixes col)%list
                           (channels data)
             else []) s2).
  { destruct d; [now apply derivatives_updates in H2 | injection H2 as <-; constructor]. }
  assert (U3 : updates s2
            (if f then flat_map (with_suffixes frequency_suffixes) (channels data)
             else []) s3).
  { destruct f; [now apply frequency_updates in H3 | injection H3 as <-; constructor]. }
  eexists. split; [eapply updates_app; [exact U1 | eapply updates_app; eassumption]|].
  intros name. unfold enabled_suffixes. rewrite !in_app_iff. split.
  - intros [Hn|[Hn|Hn]].
    + destruct r; [|contradiction]. apply in_suffixed in Hn.
      destruct Hn as (c & sfx & Hc & Hs & ->). exists c, sfx.
      rewrite !in_app_iff. auto.
    + destruct d; [|contradiction]. apply in_flat_map in Hn.
      destruct Hn as (c & Hc & Hn). apply in_app_iff in Hn.
      assert (Hn' : In name (with_suffixes derivative_suffixes c)) by tauto.
      apply in_map_iff in Hn'. destruct Hn' as (sfx & <- & Hs).
      exists c, sfx. rewrite !in_app_iff. auto.
    + destruct f; [|contradiction]. apply in_suffixed in Hn.
      destruct Hn as (c & sfx & Hc & Hs & ->). exists c, sfx.
      rewrite !in_app_iff. auto.
  - intros (c & sfx & Hc & Hs & ->). rewrite !in_app_iff in Hs.
    destruct Hs as [Hs|[Hs|Hs]].
    + left. destruct r; [|contradiction]. apply in_suffixed. eauto.
    + right; left. destruct d; [|contradiction]. apply in_flat_map.
      exists c. split; [assumption|]. apply in_app_iff. left.
      apply in_map_iff. eauto.
    + right; right. destruct f; [|contradiction]. apply in_suffixed. eauto.
Qed.

End FeatureEngineering.


(** ** The stages return on well-formed numeric tables *)

Lemma in_assign name c cs n c' :
  In (n, c') (assign name c cs) -> (n, c') = (name, c) \/ In (n, c') cs.
Proof.
  induction cs as [|[m d] cs IH]; simpl.
  - intuition.
  - destruct (String.eqb m name) eqn:E; simpl.
    + apply String.eqb_eq in E. subst m. intuition.
    + intuition.
Qed.

Lemma for_each_total {A S : Type} (I : S -> Prop)
  (xs : list A) (body : A -> S -> outcome S) :
  (forall x s, In x xs -> I s -> exists s', body x s = Ok s' /\ I s') ->
  forall s, I s -> exists s', for_each xs body s = Ok s' /\ I s'.
Proof.
  induction xs as [|x xs IH]; intros Hbody s Hs; simpl.
  - eauto.
  - destruct (Hbody x s) as (s1 & H1 & I1); [now left | assumption |].
    rewrite H1. simpl. apply IH; [|assumption].
    intros y t Hy. apply Hbody. now right.
Qed.

Lemma ready_get_num skip needed s col :
  ready skip needed s -> In col needed ->
  exists vs, get_num s col = Ok vs /\ List.length vs = nrows s.
Proof.
  intros ([_ Hlen] & Hnum & Hincl & Hskip) Hcol.
  destruct (in_lookup col (cols s)) as (c & Hc); [now apply Hincl|].
  pose proof (lookup_in _ _ _ Hc) as Hin.
  destruct (Hnum _ _ Hin) as [->|(vs & ->)]; [contradiction|].
  exists vs. split; [now apply get_num_lookup|].
  rewrite Forall_forall in Hlen. apply (Hlen _ Hin).
Qed.

Lemma ready_setitem skip needed s name vs :
  ready skip needed s -> List.length vs = nrows s ->
  exists s', setitem s name (NumCol vs) = Ok s' /\
             ready skip needed s' /\ nrows s' = nrows s /\
             get_num s' name = Ok vs /\
             forall other, other <> name -> get_num s' other = get_num s other.
Proof.
  intros (Hwf & Hnum & Hincl & Hskip) Hlen.
  unfold setitem. simpl col_len. rewrite Hlen, Nat.eqb_refl.
  eexists. split; [reflexivity|].
  assert (Hset : setitem s name (NumCol vs)
                 = Ok (mkDF (nrows s) (assign name (NumCol vs) (cols s)))).
  { unfold setitem. simpl col_len. now rewrite Hlen, Nat.eqb_refl. }
  split; [|split; [reflexivity|split]].
  - split; [eapply setitem_wf; eassumption|]. split; [|split; [|assumption]].
    + intros n c Hin. simpl in Hin. apply in_assign in Hin.
      destruct Hin as [[= -> ->]|Hin]; [right; eauto | eauto].
    + intros x Hx. unfold columns. simpl. apply in_names_assign.
      right. now apply Hincl.
  - apply get_num_lookup. simpl. apply lookup_assign_same.
  - intros other Hother. unfold get_num, getitem. simpl.
    rewrite lookup_assign_other by congruence. reflexivity.
Qed.

Lemma rolling_total w f vs :
  (1 <= w)%Z ->
  exists m, rolling w f vs = Ok m /\ List.length m = List.length vs.
Proof.
  intros Hw. unfold rolling. destruct (Z.ltb_spec w 1); [lia|].
  eexists. split; [reflexivity|]. now rewrite length_map, length_seq.
Qed.

Ltac use_get R col :=
  let v := fresh "v" in
  let Hv := fresh "Hv" in
  let Lv := fresh "Lv" in
  destruct (ready_get_num _ _ _ col R) as (v & Hv & Lv);
  [auto | rewrite Hv; cbn [bind]].

Ltac use_set R name vs :=
  let s := fresh "s" in
  let Hs := fresh "Hs" in
  let R' := fresh "R" in
  let N := fresh "N" in
  let G := fresh "G" in
  let O := fresh "O" in
  destruct (ready_setitem _ _ _ name vs R) as (s & Hs & R' & N & G & O);
  [ | rewrite Hs; cbn [bind]].

Section Totality.

Variable fsqrt : float -> float.
Variable rfft_mag : list float -> nat -> float.

Lemma rolling_step_total needed w col s :
  ready "label" needed s -> In col needed -> (1 <= w)%Z ->
  exists s', rolling_step fsqrt w col s = Ok s' /\
             ready "label" needed s' /\ nrows s' = nrows s.
Proof.
  intros R Hcol Hw. unfold rolling_step.
  use_get R col. destruct (rolling_total w mean v Hw) as (m & Hm & Lm).
  rewrite Hm. cbn [bind]. use_set R (col ++ "_rolling_mean") m; [congruence|].
  use_get R0 col. destruct (rolling_total w (std fsqrt) v0 Hw) as (m0 & Hm0 & Lm0).
  rewrite Hm0. cbn [bind].
  use_set R0 (col ++ "_rolling_std") (fillna f0 m0);
    [rewrite length_fillna; congruence|].
  use_get R1 col. destruct (rolling_total w smin v1 Hw) as (m1 & Hm1 & Lm1).
  rewrite Hm1. cbn [bind]. use_set R1 (col ++ "_rolling_min") m1; [congruence|].
  use_get R2 col. destruct (rolling_total w smax v2 Hw) as (m2 & Hm2 & Lm2).
  rewrite Hm2. cbn [bind].
  destruct (ready_setitem _ _ _ (col ++ "_rolling_max") m2 R2)
    as (s3 & Hs3 & R3 & N3 & _); [congruence|].
  exists s3. split; [exact Hs3|]. split; [exact R3 | congruence].
Qed.

Lemma derivatives_step_total needed col s :
  ready "label" needed s -> In col needed -> In "Time" needed ->
  exists s', derivatives_step col s = Ok s' /\
             ready "label" needed s' /\ nrows s' = nrows s.
Proof.
  intros R Hcol Htime. unfold derivatives_step.
  assert (HT1 : "Time" <> col ++ "_deriv1").
  { intros E. symmetry in E. revert E. apply append_not_Time. simpl. lia. }
  assert (HT2 : "Time" <> col ++ "_deriv2").
  { intros E. symmetry in E. revert E. apply append_not_Time. simpl. lia. }
  pose proof (deriv1_not_deriv2 col) as H12.
  use_get R col. use_get R "Time".
  assert (L1 : List.length (div_series (diff v) (diff v0)) = nrows s).
  { rewrite length_div_series; rewrite !length_diff; congruence. }
  use_set R (col ++ "_deriv1") (div_series (diff v) (diff v0)); [assumption|].
  rewrite G. cbn [bind]. rewrite (O "Time" HT1), Hv0. cbn [bind].
  assert (L2 : List.length (div_series (diff (div_series (diff v) (diff v0)))
                                       (diff v0)) = nrows s0).
  { rewrite length_div_series; rewrite !length_diff; congruence. }
  use_set R0 (col ++ "_deriv2")
          (div_series (diff (div_series (diff v) (diff v0))) (diff v0));
    [assumption|].
  rewrite (O0 (col ++ "_deriv1") H12), G. cbn [bind].
  use_set R1 (col ++ "_deriv1") (fillna f0 (div_series (diff v) (diff v0)));
    [rewrite length_fillna; congruence|].
  rewrite (O1 (col ++ "_deriv2")), G0 by congruence. cbn [bind].
  destruct (ready_setitem _ _ _ (col ++ "_deriv2")
              (fillna f0 (div_series (diff (div_series (diff v) (diff v0)))
                                     (diff v0))) R2)
    as (s3 & Hs3 & R3 & N3 & _); [rewrite length_fillna; congruence|].
  exists s3. split; [exact Hs3|]. split; [exact R3 | congruence].
Qed.

Lemma spectral_value_total data col w i vs :
  getitem data col = Ok (NumCol vs) ->
  exists p, spectral_value rfft_mag data col w i = Ok p.
Proof.
  intros Hcol. unfold spectral_value. rewrite Hcol. cbn [bind].
  set (window := slice _ _ vs).
  destruct (Nat.ltb_spec 10 (List.length window)) as [Hlt|Hge]; [|eauto].
  pose proof (length_rfft_abs rfft_mag window) as Lv.
  assert (Hhalf : 5 <= List.length window / 2)
    by (apply Nat.div_le_lower_bound; lia).
  destruct (rfft_abs rfft_mag window) as [|dc [|b0 bins]];
    cbn [List.length] in Lv; try lia.
  destruct (argmax_spec b0 bins) as (k & Hk & _).
  cbn [tl]. rewrite Hk. cbn [bind].
  destruct (Nat.ltb (k + 1) _); eauto.
Qed.

Lemma spectral_loop_total data col w vs n : forall a fs ms,
  getitem data col = Ok (NumCol vs) ->
  exists fs' ms',
    for_each (seq a n) (spectral_row rfft_mag data col w) (fs, ms)
      = Ok (fs', ms') /\
    List.length fs' = List.length fs + n /\
    List.length ms' = List.length ms + n.
Proof.
  induction n as [|n IH]; intros a fs ms Hcol.
  - exists fs, ms. simpl. repeat split; lia.
  - cbn [seq for_each]. rewrite spectral_row_value.
    destruct (spectral_value_total data col w a vs Hcol) as ([f m] & Hp).
    rewrite Hp. cbn [bind fst snd].
    destruct (IH (S a) (append1 fs f) (append1 ms m) Hcol)
      as (fs' & ms' & Hloop & Lf & Lm).
    exists fs', ms'. split; [exact Hloop|].
    unfold append1 in Lf, Lm. rewrite length_app in Lf, Lm. simpl in Lf, Lm.
    split; lia.
Qed.

Lemma frequency_step_total needed data w col s :
  ready "label" needed s -> nrows s = nrows data ->
  (exists vs, getitem data col = Ok (NumCol vs)) ->
  exists s', frequency_step rfft_mag data w col s = Ok s' /\
             ready "label" needed s' /\ nrows s' = nrows data.
Proof.
  intros R Hn (vs & Hcol). unfold frequency_step.
  destruct (spectral_loop_total data col w vs (nrows data) 0 [] [] Hcol)
    as (fs & ms & Hloop & Lf & Lm).
  rewrite Hloop. cbn [bind]. simpl in Lf, Lm.
  use_set R (col ++ "_dom_freq") fs; [congruence|].
  destruct (ready_setitem _ _ _ (col ++ "_dom_mag") ms R0)
    as (s1 & Hs1 & R1 & N1 & _); [congruence|].
  exists s1. split; [exact Hs1|]. split; [exact R1 | congruence].
Qed.

End Totality.

Lemma in_channels data c :
  In c (channels data) <-> In c (columns data) /\ c <> "Time" /\ c <> "label".
Proof.
  unfold channels. rewrite filter_In, negb_true_iff, orb_false_iff.
  rewrite !String.eqb_neq. tauto.
Qed.

Lemma get_num_getitem s col vs :
  get_num s col = Ok vs -> getitem s col = Ok (NumCol vs).
Proof.
  intros H. apply get_num_lookup in H. unfold getitem. now rewrite H.
Qed.

Section StageTotality.

Variable fsqrt : float -> float.
Variable rfft_mag : list float -> nat -> float.

Lemma rolling_stage_total needed data w columns :
  ready "label" needed data -> incl (columns_or_default data columns) needed ->
  (1 <= w)%Z ->
  exists out, calculate_rolling_statistics fsqrt data w columns = Ok out /\
              ready "label" needed out /\ nrows out = nrows data.
Proof.
  intros R Hincl Hw. unfold calculate_rolling_statistics.
  destruct (for_each_total
              (fun s => ready "label" needed s /\ nrows s = nrows data)
              (columns_or_default data columns) (rolling_step fsqrt w))
    with (s := data) as (out & Hout & Rout & Nout); [| now split | eauto].
  intros col s Hcol [Rs Ns].
  destruct (rolling_step_total fsqrt needed w col s Rs) as (s' & Hs' & R' & N');
    [now apply Hincl | assumption |].
  exists s'. repeat split; try assumption; try apply R'. congruence.
Qed.

Lemma derivatives_stage_total needed data columns :
  ready "label" needed data -> incl (columns_or_default data columns) needed ->
  In "Time" needed ->
  exists out, calculate_derivatives data columns = Ok out /\
              ready "label" needed out /\ nrows out = nrows data.
Proof.
  intros R Hincl Htime. unfold calculate_derivatives.
  destruct (for_each_total
              (fun s => ready "label" needed s /\ nrows s = nrows data)
              (columns_or_default data columns) derivatives_step)
    with (s := data) as (out & Hout & Rout & Nout); [| now split | eauto].
  intros col s Hcol [Rs Ns].
  destruct (derivatives_step_total needed col s Rs) as (s' & Hs' & R' & N');
    [now apply Hincl | assumption |].
  exists s'. repeat split; try assumption; try apply R'. congruence.
Qed.

Lemma frequency_stage_total needed data w columns :
  ready "label" needed data -> incl (columns_or_default data columns) needed ->
  exists out, extract_frequency_features rfft_mag data columns w = Ok out /\
              ready "label" needed out /\ nrows out = nrows data.
Proof.
  intros R Hincl. unfold extract_frequency_features.
  destruct (for_each_total
              (fun s => ready "label" needed s /\ nrows s = nrows data)
              (columns_or_default data columns)
              (frequency_step rfft_mag data w))
    with (s := data) as (out & Hout & Rout & Nout); [| now split | eauto].
  intros col s Hcol [Rs Ns].
  destruct (frequency_step_total rfft_mag needed data w col s Rs Ns)
    as (s' & Hs' & R' & N').
  - destruct (ready_get_num _ _ _ col R) as (vs & Hvs & _); [now apply Hincl|].
    exists vs. now apply get_num_getitem.
  - exists s'. repeat split; try assumption; apply R'.
Qed.

Lemma ready_channels data :
  wf data -> numeric_except "label" data -> In "Time" (columns data) ->
  ready "label" ("Time" :: channels data) data.
Proof.
  intros Hwf Hnum Htime. split; [assumption|]. split; [assumption|]. split.
  - intros c [<-|Hc]; [assumption|]. now apply in_channels in Hc.
  - intros [E|Hc]; [discriminate|]. apply in_channels in Hc. tauto.
Qed.

Lemma feature_engineering_total data r d f w :
  wf data -> numeric_except "label" data -> In "Time" (columns data) ->
  (1 <= w)%Z ->
  returns (feature_engineering fsqrt rfft_mag data r d f w).
Proof.
  intros Hwf Hnum Htime Hw.
  pose proof (ready_channels data Hwf Hnum Htime) as R.
  set (needed := "Time" :: channels data) in *.
  assert (Hincl : forall s, incl (columns_or_default s (Some (channels data))) needed).
  { intros s c Hc. now right. }
  unfold feature_engineering, returns.
  assert (E1 : exists s1,
    (if r then calculate_rolling_statistics fsqrt data w (Some (channels data))
     else Ok data) = Ok s1 /\ ready "label" needed s1).
  { destruct r; [|eauto].
    destruct (rolling_stage_total needed data w (Some (channels data)) R)
      as (s1 & H1 & R1 & _); eauto. }
  destruct E1 as (s1 & H1 & R1). rewrite H1. cbn [bind].
  assert (E2 : exists s2,
    (if d then calculate_derivatives s1 (Some (channels data)) else Ok s1) = Ok s2 /\
    ready "label" needed s2).
  { destruct d; [|eauto].
    destruct (derivatives_stage_total needed s1 (Some (channels data)) R1)
      as (s2 & H2 & R2 & _); eauto. now left. }
  destruct E2 as (s2 & H2 & R2). rewrite H2. cbn [bind].
  assert (E3 : exists s3,
    (if f then extract_frequency_features rfft_mag s2 (Some (channels data)) (w * 5)
     else Ok s2) = Ok s3).
  { destruct f; [|eauto].
    destruct (frequency_stage_total needed s2 (w * 5) (Some (channels data)) R2)
      as (s3 & H3 & _); eauto. }
  destruct E3 as (s3 & H3). rewrite H3. cbn [bind]. eauto.
Qed.

End StageTotality.

(** ** The preprocessing stages return on numeric tables *)

Lemma ready_fillna_frame needed data :
  ready "Time" needed data -> ready "Time" needed (fillna_frame data).
Proof.
  intros (Hwf & Hnum & Hincl & Hskip). split; [now apply wf_fillna_frame|].
  split; [|split; [now rewrite columns_fillna_frame | assumption]].
  intros n c Hin. unfold fillna_frame in Hin. simpl in Hin.
  apply in_map_iff in Hin. destruct Hin as ([n' c'] & [= <- <-] & Hin).
  destruct (Hnum _ _ Hin) as [->|(vs & ->)]; [now left | right; simpl; eauto].
Qed.

Lemma clean_step_total needed col s :
  ready "Time" needed s -> (col <> "Time" -> In col needed) ->
  exists s', clean_step col s = Ok s' /\ ready "Time" needed s'.
Proof.
  intros R Hcol. unfold clean_step.
  destruct (String.eqb col "Time") eqn:E; [eauto|].
  apply String.eqb_neq in E. use_get R col.
  destruct (ready_setitem _ _ _ col
              (clip (fsub (quantile 0.25 v)
                       (fmul (Fin 1.5) (fsub (quantile 0.75 v) (quantile 0.25 v))))
                    (fadd (quantile 0.75 v)
                       (fmul (Fin 1.5) (fsub (quantile 0.75 v) (quantile 0.25 v))))
                    v) R)
    as (s' & Hs' & R' & _); [now rewrite length_clip|].
  eauto.
Qed.

Lemma normalize_step_total needed col s :
  ready "Time" needed s -> (col <> "Time" -> In col needed) ->
  exists s', normalize_step col s = Ok s' /\ ready "Time" needed s'.
Proof.
  intros R Hcol. unfold normalize_step.
  destruct (String.eqb col "Time") eqn:E; [eauto|].
  apply String.eqb_neq in E.
  destruct (ready_get_num _ _ _ col R) as (v & Hv & Lv); [auto|].
  rewrite (get_num_getitem _ _ _ Hv). cbn [bind].
  destruct (fgt (smax v) (smin v)); [|eauto].
  destruct (ready_setitem _ _ _ col
              (map (fun x => fdiv (fsub x (smin v)) (fsub (smax v) (smin v))) v) R)
    as (s' & Hs' & R' & _); [now rewrite length_map|].
  eauto.
Qed.

Lemma ready_other_columns data :
  wf data -> numeric_except "Time" data -> ready "Time" (other_columns data) data.
Proof.
  intros Hwf Hnum. split; [assumption|]. split; [assumption|].
  unfold other_columns. split.
  - intros c Hc. now apply filter_In in Hc.
  - intros Hin. apply filter_In in Hin. destruct Hin as [_ Hin]. discriminate.
Qed.

Lemma in_other_columns data c :
  In c (columns data) -> c <> "Time" -> In c (other_columns data).
Proof.
  intros Hc Hne. apply filter_In. split; [assumption|].
  apply negb_true_iff. now apply String.eqb_neq.
Qed.

Lemma clean_data_total needed data :
  ready "Time" needed data ->
  (forall c, In c (columns data) -> c <> "Time" -> In c needed) ->
  exists out, clean_data data = Ok out /\ ready "Time" needed out.
Proof.
  intros R Hall. unfold clean_data. apply for_each_total.
  - intros col s Hcol Rs. apply clean_step_total; [assumption|].
    intros Hne. apply Hall; [|assumption]. now rewrite columns_fillna_frame in Hcol.
  - now apply ready_fillna_frame.
Qed.

Lemma normalize_data_total needed data cs :
  ready "Time" needed data ->
  (forall c, In c cs -> c <> "Time" -> In c needed) ->
  columns data = cs ->
  exists out, normalize_data data = Ok out /\ ready "Time" needed out.
Proof.
  intros R Hall Hcs. unfold normalize_data. rewrite Hcs. apply for_each_total.
  - intros col s Hcol Rs. apply normalize_step_total; [assumption|].
    intros Hne. now apply Hall.
  - assumption.
Qed.

Lemma clean_data_returns data :
  wf data -> numeric_except "Time" data ->
  exists out, clean_data data = Ok out /\ wf out /\ numeric_except "Time" out.
Proof.
  intros Hwf Hnum.
  destruct (clean_data_total (other_columns data) data) as (out & H & R).
  - now apply ready_other_columns.
  - apply in_other_columns.
  - exists out. split; [assumption|]. split; apply R.
Qed.

Lemma normalize_data_returns data :
  wf data -> numeric_except "Time" data ->
  exists out, normalize_data data = Ok out /\ wf out /\ numeric_except "Time" out.
Proof.
  intros Hwf Hnum.
  destruct (normalize_data_total (other_columns data) data (columns data))
    as (out & H & R).
  - now apply ready_other_columns.
  - apply in_other_columns.
  - reflexivity.
  - exists out. split; [assumption|]. split; apply R.
Qed.

Lemma clean_data_has_time data out times :
  clean_data data = Ok out -> get_num data "Time" = Ok times ->
  get_num out "Time" = Ok (bfill (ffill times)).
Proof.
  intros H Ht. apply clean_data_keeps, keeps_Time in H.
  apply get_num_lookup. apply get_num_lookup in Ht.
  now rewrite H, lookup_fillna_frame, Ht.
Qed.

Lemma normalize_data_has_time data out times :
  normalize_data data = Ok out -> get_num data "Time" = Ok times ->
  get_num out "Time" = Ok times.
Proof.
  intros H Ht. apply normalize_data_keeps, keeps_Time in H.
  apply get_num_lookup. apply get_num_lookup in Ht. now rewrite H.
Qed.

Lemma preprocess_data_total data labels clean normalize add_labels times :
  wf data -> numeric_except "Time" data -> get_num data "Time" = Ok times ->
  returns (preprocess_data data labels clean normalize add_labels).
Proof.
  intros Hwf Hnum Ht. unfold preprocess_data, returns.
  assert (E1 : exists s1 t1,
    (if clean then clean_data data else Ok data) = Ok s1 /\
    wf s1 /\ numeric_except "Time" s1 /\ get_num s1 "Time" = Ok t1).
  { destruct clean; [|eauto 6].
    destruct (clean_data_returns data Hwf Hnum) as (s1 & H1 & W1 & N1).
    exists s1, (bfill (ffill times)).
    split; [assumption|]. split; [assumption|]. split; [assumption|].
    eapply clean_data_has_time; eassumption. }
  destruct E1 as (s1 & t1 & H1 & W1 & N1 & T1). rewrite H1. cbn [bind].
  assert (E2 : exists s2,
    (if normalize then normalize_data s1 else Ok s1) = Ok s2 /\
    get_num s2 "Time" = Ok t1).
  { destruct normalize; [|eauto].
    destruct (normalize_data_returns s1 W1 N1) as (s2 & H2 & _).
    exists s2. split; [assumption|]. eapply normalize_data_has_time; eassumption. }
  destruct E2 as (s2 & H2 & T2). rewrite H2. cbn [bind].
  destruct labels as [rows|]; [|cbn [bind]; eauto].
  destruct add_labels; [|cbn [bind]; eauto].
  destruct (add_label_column_total s2 (Some rows) t1 T2) as (s3 & H3).
  rewrite H3. cbn [bind]. eauto.
Qed.

(** ** Row counts *)

Lemma keeps_preserves_rows data r :
  (forall out, r = Ok out -> keeps data out) -> preserves_rows data r.
Proof.
  intros H out Hout. specialize (H out Hout). split.
  - now apply keeps_nrows.
  - now apply keeps_wf.
Qed.

Lemma clean_data_preserves_rows data : preserves_rows data (clean_data data).
Proof.
  intros out H. apply clean_data_keeps in H. split.
  - now apply keeps_nrows in H.
  - intros Hwf. eapply keeps_wf; [eassumption | now apply wf_fillna_frame].
Qed.

Lemma preserves_rows_bind data r (k : DataFrame -> outcome DataFrame) :
  preserves_rows data r ->
  (forall s, nrows s = nrows data -> preserves_rows s (k s)) ->
  preserves_rows data (bind r k).
Proof.
  intros Hr Hk out H. inv_bind H.
  destruct (Hr a Ha) as [N1 W1]. destruct (Hk a N1 out H) as [N2 W2].
  split; [congruence | auto].
Qed.

Lemma preserves_rows_Ok data : preserves_rows data (Ok data).
Proof. intros out [= <-]. auto. Qed.

Lemma preprocess_data_preserves_rows data labels clean normalize add_labels :
  preserves_rows data (preprocess_data data labels clean normalize add_labels).
Proof.
  unfold preprocess_data.
  apply preserves_rows_bind.
  { destruct clean; [apply clean_data_preserves_rows | apply preserves_rows_Ok]. }
  intros s1 _. apply preserves_rows_bind.
  { destruct normalize; [|apply preserves_rows_Ok].
    apply keeps_preserves_rows. apply normalize_data_keeps. }
  intros s2 _. apply preserves_rows_bind.
  { destruct labels; [|apply preserves_rows_Ok].
    destruct add_labels; [|apply preserves_rows_Ok].
    apply keeps_preserves_rows. apply add_label_column_keeps. }
  intros s3 _. apply preserves_rows_Ok.
Qed.

(** C1. Every stage returns a table with as many rows as its input:
    whenever a stage returns, the row count is that of the input and a
    well-formed table (distinct column names, one value per row in
    every column) stays well formed; and the stages do return, the
    preprocessing stages on a well-formed table whose columns are
    numeric with a [Time] column, the feature stages (run on the
    channels of their input, with a window of at least 1) on a
    well-formed table whose columns other than [label] are numeric
    with a [Time] column. *)
Theorem every_stage_preserves_rows :
  forall (fsqrt : float -> float) (rfft_mag : list float -> nat -> float)
         (data : DataFrame) (labels : option (list LabelRow))
         (selection : option (list string)) (window_size : Z)
         (clean normalize add_labels : bool)
         (include_rolling include_derivatives include_frequency : bool),
    (preserves_rows data (clean_data data) /\
     preserves_rows data (normalize_data data) /\
     preserves_rows data (add_label_column data labels) /\
     preserves_rows data
       (calculate_rolling_statistics fsqrt data window_size selection) /\
     preserves_rows data (calculate_derivatives data selection) /\
     preserves_rows data
       (extract_frequency_features rfft_mag data selection window_size) /\
     preserves_rows data
       (preprocess_data data labels clean normalize add_labels) /\
     preserves_rows data
       (feature_engineering fsqrt rfft_mag data include_rolling
                            include_derivatives include_frequency window_size)) /\
    (wf data -> numeric_except "Time" data ->
     (exists times, get_num data "Time" = Ok times) ->
     returns (clean_data data) /\
     returns (normalize_data data) /\
     returns (add_label_column data labels) /\
     returns (preprocess_data data labels clean normalize add_labels)) /\
    (wf data -> numeric_except "label" data -> In "Time" (columns data) ->
     (1 <= window_size)%Z ->
     returns (calculate_rolling_statistics fsqrt data window_size None) /\
     returns (calculate_derivatives data None) /\
     returns (extract_frequency_features rfft_mag data None window_size) /\
     returns (feature_engineering fsqrt rfft_mag data include_rolling
                                  include_derivatives include_frequency
                                  window_size)).
Proof.
  intros fsqrt rfft_mag data labels selection w clean normalize add_labels r d f.
  split; [|split].
  - split; [apply clean_data_preserves_rows|].
    split; [apply keeps_preserves_rows, normalize_data_keeps|].
    split; [apply keeps_preserves_rows, add_label_column_keeps|].
    split; [apply keeps_preserves_rows; intros out; apply rolling_keeps|].
    split; [apply keeps_preserves_rows, derivatives_keeps|].
    split; [apply keeps_preserves_rows; intros out; apply frequency_keeps|].
    split; [apply preprocess_data_preserves_rows|].
    intros out H. apply feature_engineering_updates in H.
    destruct H as (names & Hup & _). split.
    + eapply updates_nrows; eassumption.
    + eapply updates_wf; eassumption.
  - intros Hwf Hnum (times & Ht).
    split; [|split; [|split]].
    + destruct (clean_data_returns data Hwf Hnum) as (out & H & _). now exists out.
    + destruct (normalize_data_returns data Hwf Hnum) as (out & H & _).
      now exists out.
    + eapply add_label_column_total; eassumption.
    + eapply preprocess_data_total; eassumption.
  - intros Hwf Hnum Htime Hw.
    pose proof (ready_channels data Hwf Hnum Htime) as R.
    assert (Hincl : incl (columns_or_default data None) ("Time" :: channels data)).
    { intros c Hc. now right. }
    split; [|split; [|split]].
    + destruct (rolling_stage_total fsqrt _ data w None R Hincl Hw)
        as (out & H & _). now exists out.
    + destruct (derivatives_stage_total _ data None R Hincl) as (out & H & _);
        [now left | now exists out].
    + destruct (frequency_stage_total rfft_mag _ data w None R Hincl)
        as (out & H & _). now exists out.
    + now apply feature_engineering_total.
Qed.

(** * The claims on the example tables *)

(** C1 on [five_rows]: the table is well formed and numeric, the two
    pipelines return on it, and [clean_data] keeps its five rows. *)
Lemma every_stage_preserves_rows_on_five_rows :
  wf five_rows /\ numeric_except "Time" five_rows /\
  numeric_except "label" five_rows /\
  returns (preprocess_data five_rows (Some one_peak) true true true) /\
  returns (feature_engineering example_sqrt example_spectrum five_rows
                               true true false 20) /\
  forall out, clean_data five_rows = Ok out -> nrows out = 5.
Proof.
  assert (Hwf : wf five_rows).
  { split; [repeat constructor; simpl; intuition discriminate | repeat constructor]. }
  assert (Hnum : forall skip, numeric_except skip five_rows).
  { intros skip name c Hin. simpl in Hin. right.
    destruct Hin as [[= <- <-]|[[= <- <-]|[]]]; eauto. }
  destruct (every_stage_preserves_rows example_sqrt example_spectrum five_rows
              (Some one_peak) None 20 true true true true true false)
    as (Hrows & Hpre & Hfeat).
  split; [exact Hwf|]. split; [apply Hnum|]. split; [apply Hnum|].
  split; [|split].
  - apply Hpre; [exact Hwf | apply Hnum |].
    exists [num 0; num 1; num 2; num 3; num 4]. reflexivity.
  - apply Hfeat; [exact Hwf | apply Hnum | simpl; now left | lia].
  - intros out Hout. destruct Hrows as (Hclean & _).
    apply (Hclean out Hout).
Defined.

(** C2 on [five_rows]: the quartiles of [[1, 2, 3, 4, 100]] are 2 and 4,
    the range is [[-1, 7]], and the outlier 100 becomes 7. *)
Lemma clean_data_clips_five_rows :
  exists cleaned,
    getitem (mkDF 5 [("Time", NumCol [num 0; num 1; num 2; num 3; num 4]);
                     ("value", NumCol [num 1; num 2; num 3; num 4; num 7])])
            "value" = Ok (NumCol cleaned) /\
    nth_error cleaned 4 = Some (num 7) /\
    forall v, In v cleaned -> isna v = false ->
              fle (num (-1)) v = true /\ fle v (num 7) = true.
Proof.
  destruct (clean_data_clips_to_iqr_range five_rows
              (mkDF 5 [("Time", NumCol [num 0; num 1; num 2; num 3; num 4]);
                       ("value", NumCol [num 1; num 2; num 3; num 4; num 7])])
              "value" [num 1; num 2; num 3; num 4; num 100])
    as (cleaned & Hget & _ & _ & _ & Hrow & Hin).
  - split; [repeat constructor; simpl; intuition discriminate | repeat constructor].
  - vm_compute. reflexivity.
  - discriminate.
  - reflexivity.
  - repeat (constructor; [vm_compute; reflexivity|]). constructor.
  - exists cleaned. split; [exact Hget|]. split.
    + apply (Hrow 4 (num 100)). reflexivity.
    + exact Hin.
Defined.


(** C4 on [three_rows] with the interval [[1, 2]]: the row at time 0
    keeps the sentinel, the row at time 2 is labelled. *)
Lemma label_of_last_covering_interval_on_three_rows :
  exists out labels,
    add_label_column three_rows (Some one_peak) = Ok out /\
    get_str out "label" = Ok labels /\
    nth_error labels 0 = Some "NotReady" /\
    nth_error labels 2 = Some "Peak".
Proof.
  destruct (proj1 label_of_last_covering_interval three_rows
              (mkLabel (num 1) (num 1) "Peak") [] [num 0; num 1; num 2])
    as (out & labels & Hout & _ & Hget & _ & Hrows).
  - reflexivity.
  - exists out, labels. split; [exact Hout|]. split; [exact Hget|]. split.
    + apply (Hrows 0 (num 0)); [simpl; lia | reflexivity].
    + apply (Hrows 2 (num 2)); [simpl; lia | reflexivity].
Defined.

(** C6 on [three_rows]. *)
Lemma derivatives_first_rows_zero_on_three_rows :
  exists out deriv1 deriv2,
    calculate_derivatives three_rows None = Ok out /\
    getitem out "value_deriv1" = Ok (NumCol deriv1) /\
    getitem out "value_deriv2" = Ok (NumCol deriv2) /\
    nth_error deriv1 0 = Some f0 /\
    nth_error deriv2 0 = Some f0 /\ nth_error deriv2 1 = Some f0.
Proof.
  destruct derivatives_first_rows_zero as [Hzero Hexample].
  eexists. 
  destruct (Hzero three_rows None _ "value" Hexample)
    as (deriv1 & deriv2 & H1 & H2 & _ & _ & H0 & H01).
  - simpl. now left.
  - exists deriv1, deriv2. split; [exact Hexample|].
    split; [exact H1|]. split; [exact H2|].
    destruct H0 as [A B]; [simpl; lia|].
    split; [exact A|]. split; [exact B|]. apply H01. simpl. lia.
Defined.

(** C7 on [three_rows]: every window holds at most 3 rows. *)
Lemma small_window_reports_zero_on_three_rows :
  exists out dom_freq dom_mag,
    extract_frequency_features example_spectrum three_rows None 100 = Ok out /\
    getitem out "value_dom_freq" = Ok (NumCol dom_freq) /\
    getitem out "value_dom_mag" = Ok (NumCol dom_mag) /\
    nth_error dom_freq 2 = Some f0 /\ nth_error dom_mag 2 = Some f0.
Proof.
  assert (Hout : extract_frequency_features example_spectrum three_rows None 100 =
    Ok (mkDF 3 [("Time", NumCol [num 0; num 1; num 2]);
                ("value", NumCol [num 0; num 10; num 30]);
                ("value_dom_freq", NumCol [f0; f0; f0]);
                ("value_dom_mag", NumCol [f0; f0; f0])]))
    by (vm_compute; reflexivity).
  destruct (small_window_reports_zero example_spectrum three_rows None 100 _
              "value" 2 Hout)
    as (dom_freq & dom_mag & Hf & Hm & Zf & Zm).
  - simpl. now left.
  - simpl. lia.
  - simpl. lia.
  - eexists. exists dom_freq, dom_mag. split; [exact Hout|]. auto.
Defined.


(** C9 on [three_rows]: no timestamp is missing, and [normalize_data]
    and [clean_data] both return the [Time] column of the input. *)
Lemma time_column_after_normalize_three_rows :
  exists normalized cleaned,
    normalize_data three_rows = Ok normalized /\
    getitem normalized "Time" = getitem three_rows "Time" /\
    clean_data three_rows = Ok cleaned /\
    getitem cleaned "Time" = Ok (NumCol [num 0; num 1; num 2]).
Proof.
  assert (Hnorm : normalize_data three_rows =
    Ok (mkDF 3 [("Time", NumCol [num 0; num 1; num 2]);
                ("value", NumCol [Fin 0; Fin (1 # 3); Fin 1])]))
    by (vm_compute; reflexivity).
  assert (Hclean : clean_data three_rows =
    Ok (mkDF 3 [("Time", NumCol [num 0; num 1; num 2]);
                ("value", NumCol [num 0; num 10; num 30])]))
    by (vm_compute; reflexivity).
  eexists. eexists. split; [exact Hnorm|]. split.
  - apply (proj1 (time_column_after_each_step example_sqrt example_spectrum
                    three_rows _ None 20)).
    exact Hnorm.
  - split; [exact Hclean|].
    destruct (time_column_after_each_step example_sqrt example_spectrum
                three_rows
                (mkDF 3 [("Time", NumCol [num 0; num 1; num 2]);
                         ("value", NumCol [num 0; num 10; num 30])])
                None 20) as (_ & _ & _ & _ & Hc).
    destruct (Hc Hclean) as [_ Hsame].
    apply Hsame; [reflexivity | repeat constructor].
Defined.

(** C10 on [twelve_rows], at the last row: a window of 12 samples. *)
Lemma dominant_bin_is_valid_on_twelve_rows :
  exists k idx,
    argmax (tl (rfft_abs example_spectrum twelve_values)) = Ok k /\
    idx = k + 1 /\ idx < List.length (rfftfreq 12).
Proof.
  destruct (dominant_bin_is_valid example_spectrum twelve_rows "value" 100 11
              [] [] twelve_values)
    as (k & idx & Hk & Hidx & Hlt & _).
  - reflexivity.
  - vm_compute. lia.
  - exists k, idx. split; [exact Hk|]. split; [exact Hidx | exact Hlt].
Defined.

(** * Further properties of preprocessing.py *)

(** ** The columns that the cleaning steps keep *)

Lemma setitem_present_columns s name c s' :
  setitem s name c = Ok s' -> In name (columns s) -> columns s' = columns s.
Proof.
  intros H Hin. apply setitem_ok in H. destruct H as [_ ->].
  unfold columns. simpl. now apply names_assign_present.
Qed.

Lemma get_num_in_columns s name vs : get_num s name = Ok vs -> In name (columns s).
Proof.
  intros H. apply get_num_lookup in H. apply lookup_in in H.
  apply (in_map fst) in H. exact H.
Qed.

Lemma getitem_in_columns s name c : getitem s name = Ok c -> In name (columns s).
Proof.
  unfold getitem. destruct (lookup name (cols s)) eqn:E; [|discriminate].
  intros _. apply lookup_in in E. apply (in_map fst) in E. exact E.
Qed.

Lemma clean_step_columns col s s' :
  clean_step col s = Ok s' -> columns s' = columns s.
Proof.
  unfold clean_step. destruct (String.eqb col "Time"); [now intros [= <-]|].
  intros H. inv_bind H. eapply setitem_present_columns; [eassumption|].
  eapply get_num_in_columns; eassumption.
Qed.

Lemma normalize_step_columns col s s' :
  normalize_step col s = Ok s' -> columns s' = columns s.
Proof.
  unfold normalize_step. destruct (String.eqb col "Time"); [now intros [= <-]|].
  intros H. inv_bind H. pose proof (getitem_in_columns _ _ _ Ha) as Hin.
  destruct a as [vs|vs].
  - destruct (fgt (smax vs) (smin vs)); [|now injection H as <-].
    eapply setitem_present_columns; eassumption.
  - destruct (str_min vs), (str_max vs); try (now injection H as <-).
    destruct (String.ltb _ _); [discriminate | now injection H as <-].
Qed.

Lemma clean_data_columns data out :
  clean_data data = Ok out -> columns out = columns data.
Proof.
  intros H. unfold clean_data in H.
  apply (for_each_rel (fun s s' => columns s' = columns s)) in H.
  - now rewrite H, columns_fillna_frame.
  - reflexivity.
  - intros; congruence.
  - intros x s s' _. apply clean_step_columns.
Qed.

Lemma normalize_data_columns data out :
  normalize_data data = Ok out -> columns out = columns data.
Proof.
  intros H. unfold normalize_data in H.
  apply (for_each_rel (fun s s' => columns s' = columns s)) in H.
  - exact H.
  - reflexivity.
  - intros; congruence.
  - intros x s s' _. apply normalize_step_columns.
Qed.

(** X1. [clean_data] and [normalize_data] return the columns of their
    input, under the same names and in the same order. *)
Theorem cleaning_keeps_the_columns :
  forall data out : DataFrame,
    (clean_data data = Ok out -> columns out = columns data) /\
    (normalize_data data = Ok out -> columns out = columns data).
Proof.
  intros data out. split.
  - apply clean_data_columns.
  - apply normalize_data_columns.
Qed.

Lemma cleaning_keeps_the_columns_of_five_rows :
  exists out, clean_data five_rows = Ok out /\ columns out = ["Time"; "value"].
Proof.
  assert (H : clean_data five_rows =
    Ok (mkDF 5 [("Time", NumCol [num 0; num 1; num 2; num 3; num 4]);
                ("value", NumCol [num 1; num 2; num 3; num 4; num 7])]))
    by (vm_compute; reflexivity).
  eexists. split; [exact H|].
  apply (proj1 (cleaning_keeps_the_columns five_rows _) H).
Defined.

(** ** add_label_column: the other columns *)

Lemma updates_label_columns s names s' :
  updates s names s' -> Forall (fun n => n = "label") names ->
  names <> [] ->
  columns s' = if in_dec string_dec "label" (columns s)
               then columns s else (columns s ++ ["label"])%list.
Proof.
  induction 1 as [|s name c s1 names s2 Hset Hup IH]; intros Hall Hne;
    [contradiction|].
  inversion Hall as [|? ? Hname Hall']; subst.
  apply setitem_ok in Hset. destruct Hset as [_ ->].
  assert (Hfirst : columns (mkDF (nrows s) (assign "label" c (cols s))) =
            if in_dec string_dec "label" (columns s)
            then columns s else (columns s ++ ["label"])%list).
  { unfold columns. simpl. destruct (in_dec string_dec "label" (map fst (cols s))).
    - now apply names_assign_present.
    - now apply names_assign_absent. }
  destruct names as [|n names'].
  - inversion Hup; subst. exact Hfirst.
  - rewrite IH; [|assumption|discriminate].
    assert (Hin : In "label" (columns (mkDF (nrows s) (assign "label" c (cols s))))).
    { unfold columns. simpl. apply in_names_assign. now left. }
    destruct (in_dec string_dec "label" _); [exact Hfirst | contradiction].
Qed.

(** X2. [add_label_column] touches the [label] column only: every other
    column of the output is the column of the input; with at least one
    label row the columns of the output are those of the input, with
    [label] appended when the input has none. *)
Theorem add_label_column_touches_label_only :
  forall (data out : DataFrame) (labels : option (list LabelRow)),
    add_label_column data labels = Ok out ->
    (forall name, name <> "label" -> getitem out name = getitem data name) /\
    (forall row rows, labels = Some (row :: rows) ->
       columns out = if in_dec string_dec "label" (columns data)
                     then columns data else (columns data ++ ["label"])%list).
Proof.
  intros data out labels H. split.
  - intros name Hname. apply getitem_lookup.
    destruct labels as [[|row rows]|]; try (now injection H as <-).
    unfold add_label_column in H. inv_bind H.
    apply (for_each_updates (fun _ => ["label"])) in H;
      [|intros r s s'; apply label_step_updates].
    rewrite (updates_lookup _ _ _ name H).
    + apply setitem_ok in Ha. destruct Ha as [_ ->]. simpl.
      apply lookup_assign_other. congruence.
    + intros Hin. apply in_flat_map in Hin. destruct Hin as (r & _ & [E|[]]).
      congruence.
  - intros row rows ->. unfold add_label_column in H. inv_bind H.
    apply (for_each_updates (fun _ => ["label"])) in H;
      [|intros r s s'; apply label_step_updates].
    apply (updates_label_columns data ("label" :: flat_map (fun _ => ["label"]) (row :: rows))).
    + econstructor; eassumption.
    + constructor; [reflexivity|]. apply Forall_forall. intros n Hn.
      apply in_flat_map in Hn. destruct Hn as (r & _ & [E|[]]). now symmetry.
    + discriminate.
Qed.

Lemma add_label_column_touches_label_only_on_three_rows :
  exists out,
    add_label_column three_rows (Some one_peak) = Ok out /\
    getitem out "value" = getitem three_rows "value" /\
    columns out = ["Time"; "value"; "label"].
Proof.
  assert (H : add_label_column three_rows (Some one_peak) =
    Ok (mkDF 3 [("Time", NumCol [num 0; num 1; num 2]);
                ("value", NumCol [num 0; num 10; num 30]);
                ("label", StrCol ["NotReady"; "Peak"; "Peak"])]))
    by (vm_compute; reflexivity).
  destruct (add_label_column_touches_label_only three_rows _ (Some one_peak) H)
    as [Hother Hcols].
  eexists. split; [exact H|]. split.
  - apply Hother. discriminate.
  - rewrite (Hcols (mkLabel (num 1) (num 1) "Peak") [] eq_refl). reflexivity.
Defined.

(** ** clean_data: what the fill leaves *)

Lemma ffill_from_value last vs :
  isna last = false -> Forall (fun v => isna v = false) (ffill_from last vs).
Proof.
  revert last. induction vs as [|v vs IH]; intros last Hlast; simpl; [constructor|].
  destruct (isna v) eqn:E; constructor; auto.
Qed.

Lemma bfill_after_gap k r :
  r <> [] -> Forall (fun v => isna v = false) r ->
  Forall (fun v => isna v = false) (bfill (repeat NaN k ++ r)%list) /\
  bfill (repeat NaN k ++ r)%list <> [].
Proof.
  intros Hne Hr. induction k as [|k [IH1 IH2]]; simpl.
  - rewrite bfill_no_missing by assumption. now split.
  - split; [|discriminate]. constructor; [|assumption].
    destruct (bfill (repeat NaN k ++ r)%list) as [|w ws]; [contradiction|].
    simpl. now inversion IH1.
Qed.

Lemma ffill_gap_then_values vs :
  Exists (fun v => isna v = false) vs ->
  exists k r, ffill vs = (repeat NaN k ++ r)%list /\ r <> [] /\
              Forall (fun v => isna v = false) r.
Proof.
  unfold ffill. induction 1 as [v vs Hv|v vs Hex IH].
  - exists 0, (v :: ffill_from v vs). simpl. rewrite Hv.
    split; [reflexivity|]. split; [discriminate|].
    constructor; [assumption | now apply ffill_from_value].
  - simpl. destruct (isna v) eqn:E.
    + destruct IH as (k & r & Hk & Hr & Hna). exists (S k), r. simpl.
      rewrite Hk. destruct v; try discriminate. auto.
    + exists 0, (v :: ffill_from v vs). simpl.
      split; [reflexivity|]. split; [discriminate|].
      constructor; [assumption | now apply ffill_from_value].
Qed.

Lemma fill_leaves_no_gap vs :
  Exists (fun v => isna v = false) vs ->
  Forall (fun v => isna v = false) (bfill (ffill vs)).
Proof.
  intros Hex. destruct (ffill_gap_then_values vs Hex) as (k & r & -> & Hr & Hna).
  now apply bfill_after_gap.
Qed.

Lemma ffill_from_all_missing last vs :
  Forall (fun v => isna v = true) vs -> ffill_from last vs = map (fun _ => last) vs.
Proof.
  intros H. revert last. induction H as [|v vs Hv Hvs IH]; intros last; simpl;
    [reflexivity|].
  now rewrite Hv, IH.
Qed.

Lemma fill_all_missing vs :
  Forall (fun v => isna v = true) vs -> bfill (ffill vs) = vs.
Proof.
  intros H. unfold ffill. rewrite ffill_from_all_missing by assumption.
  induction H as [|v vs Hv Hvs IH]; simpl; [reflexivity|].
  rewrite IH. destruct v; try discriminate. simpl.
  destruct vs as [|w ws]; [reflexivity|]. inversion Hvs; subst.
  destruct w; try discriminate. reflexivity.
Qed.

Lemma clip_value_keeps_value lower upper v :
  isna v = false ->
  match lower with Some l => isna l = false | None => True end ->
  match upper with Some u => isna u = false | None => True end ->
  isna (clip_value lower upper v) = false.
Proof.
  intros Hv Hl Hu. unfold clip_value. rewrite Hv.
  destruct upper as [u|], lower as [l|];
    repeat match goal with |- context [if ?b then _ else _] => destruct b end;
    assumption.
Qed.

Lemma clip_adds_no_gap lo hi vs :
  Forall (fun v => isna v = false) vs ->
  Forall (fun v => isna v = false) (clip lo hi vs).
Proof.
  intros H. unfold clip.
  destruct (isna lo) eqn:El, (isna hi) eqn:Eh; try destruct (flt hi lo);
    apply Forall_map; (eapply Forall_impl; [|exact H]); intros v Hv;
    apply clip_value_keeps_value; simpl; auto.
Qed.

Lemma all_missing_no_value vs :
  Forall (fun v => isna v = true) vs -> dropna vs = [].
Proof.
  induction 1 as [|v vs Hv Hvs IH]; simpl; [reflexivity|]. now rewrite Hv.
Qed.

(** X3. After [clean_data], a column other than [Time] that had at
    least one value has no missing value left, whatever its values; a
    column that was entirely missing comes back as it was. *)
Theorem clean_data_fills_every_gap :
  forall (data out : DataFrame) (column : string) (vs : list float),
    wf data ->
    clean_data data = Ok out ->
    column <> "Time" ->
    getitem data column = Ok (NumCol vs) ->
    exists cleaned,
      getitem out column = Ok (NumCol cleaned) /\
      (Exists (fun v => isna v = false) vs ->
       Forall (fun v => isna v = false) cleaned) /\
      (Forall (fun v => isna v = true) vs -> cleaned = vs).
Proof.
  intros data out column vs Hwf Hclean Hcol Hget.
  assert (Hlook : lookup column (cols data) = Some (NumCol vs)).
  { unfold getitem in Hget. destruct (lookup column (cols data)); congruence. }
  pose proof (clean_data_column _ _ _ _ Hwf Hclean Hcol Hlook) as Hout.
  exists (iqr_clip (bfill (ffill vs))). unfold getitem. rewrite Hout.
  split; [reflexivity|]. split.
  - intros Hex. unfold iqr_clip. apply clip_adds_no_gap.
    now apply fill_leaves_no_gap.
  - intros Hall. rewrite (fill_all_missing vs Hall). unfold iqr_clip.
    rewrite !(quantile_all_missing _ vs (all_missing_no_value vs Hall)).
    apply clip_no_bounds.
Qed.

Lemma clean_data_fills_the_gaps_in_value :
  exists cleaned,
    getitem (mkDF 4 [("Time", NumCol [num 0; num 1; num 2; num 3]);
                     ("value", NumCol [num 10; num 10; num 10; Fin (45 # 2)])])
            "value" = Ok (NumCol cleaned) /\
    Forall (fun v => isna v = false) cleaned.
Proof.
  destruct (clean_data_fills_every_gap gap_in_value
              (mkDF 4 [("Time", NumCol [num 0; num 1; num 2; num 3]);
                       ("value", NumCol [num 10; num 10; num 10; Fin (45 # 2)])])
              "value" [NaN; num 10; NaN; num 30])
    as (cleaned & Hget & Hfilled & _).
  - split; [repeat constructor; simpl; intuition discriminate | repeat constructor].
  - vm_compute. reflexivity.
  - discriminate.
  - reflexivity.
  - exists cleaned. split; [exact Hget|].
    apply Hfilled. apply Exists_cons_tl. apply Exists_cons_hd. reflexivity.
Defined.

(** ** normalize_data: the unit interval, and a second pass *)












(** ** Tables without a column *)

Lemma get_num_missing s name :
  ~ In name (columns s) -> get_num s name = Err (KeyError name).
Proof.
  intros H. apply lookup_none in H. unfold get_num, getitem. now rewrite H.
Qed.

Lemma get_num_ok s name vs :
  getitem s name = Ok (NumCol vs) -> get_num s name = Ok vs.
Proof. unfold get_num. now intros ->. Qed.

(** X6. On a table without a [Time] column [add_label_column] raises
    [KeyError('Time')] as soon as the label table has a row. *)
Theorem add_label_column_without_time :
  forall (data : DataFrame) (row : LabelRow) (rows : list LabelRow),
    ~ In "Time" (columns data) ->
    add_label_column data (Some (row :: rows)) = Err (KeyError "Time").
Proof.
  intros data row rows Htime. unfold add_label_column, setitem.
  simpl col_len. rewrite repeat_length, Nat.eqb_refl. simpl.
  unfold label_step. rewrite get_num_missing; [reflexivity|].
  unfold columns. simpl. rewrite in_names_assign.
  intros [E|H]; [discriminate | contradiction].
Qed.

Lemma add_label_column_without_time_on_two_rows :
  add_label_column untimed (Some one_peak) = Err (KeyError "Time").
Proof.
  apply (add_label_column_without_time untimed (mkLabel (num 1) (num 1) "Peak") []).
  simpl. intuition discriminate.
Defined.

(** ** add_label_column: labelling again *)

Lemma assign_assign name c c' cs :
  assign name c (assign name c' cs) = assign name c cs.
Proof.
  induction cs as [|[n d] cs IH]; simpl.
  - now rewrite String.eqb_refl.
  - destruct (String.eqb n name) eqn:E; simpl; rewrite E; [reflexivity|].
    now rewrite IH.
Qed.

Lemma updates_label_assign s names s' c :
  updates s names s' -> Forall (fun n => n = "label") names ->
  assign "label" c (cols s') = assign "label" c (cols s).
Proof.
  induction 1 as [|s name c0 s1 names s2 Hset Hup IH]; intros Hall;
    [reflexivity|].
  inversion Hall as [|? ? Hname Hall']; subst.
  rewrite IH by assumption.
  apply setitem_ok in Hset. destruct Hset as [_ ->]. simpl.
  apply assign_assign.
Qed.

(** X7. Labelling a labelled table again with the same label table
    gives the same table: the [label] column is reset to ["NotReady"]
    and filled from [Time] as before. *)
Theorem add_label_column_idempotent :
  forall (data out : DataFrame) (labels : option (list LabelRow)),
    add_label_column data labels = Ok out ->
    add_label_column out labels = Ok out.
Proof.
  intros data out labels H.
  destruct labels as [[|row rows]|]; try reflexivity.
  unfold add_label_column in *. inv_bind H. rename a into s1, Ha into H1.
  assert (Hup : updates s1 (flat_map (fun _ => ["label"]) (row :: rows)) out).
  { apply (for_each_updates (fun _ => ["label"])) in H; [exact H|].
    intros r s s'. apply label_step_updates. }
  assert (Hall : Forall (fun n => n = "label")
                        (flat_map (fun _ : LabelRow => ["label"]) (row :: rows))).
  { apply Forall_forall. intros n Hn. apply in_flat_map in Hn.
    destruct Hn as (r & _ & [E|[]]). now symmetry. }
  pose proof (updates_nrows _ _ _ Hup) as Hn.
  pose proof (updates_label_assign _ _ _
                (StrCol (repeat "NotReady" (nrows data))) Hup Hall) as Hcols.
  apply setitem_ok in H1. destruct H1 as [Hlen E1].
  assert (Hn' : nrows out = nrows data) by (rewrite Hn, E1; reflexivity).
  assert (Hs1 : setitem out "label" (StrCol (repeat "NotReady" (nrows out)))
                = Ok s1).
  { unfold setitem. simpl col_len. rewrite repeat_length, Nat.eqb_refl.
    rewrite Hn', Hcols, E1. simpl. now rewrite assign_assign. }
  rewrite Hs1. simpl bind. exact H.
Qed.

Lemma add_label_column_idempotent_on_three_rows :
  add_label_column
    (mkDF 3 [("Time", NumCol [num 0; num 1; num 2]);
             ("value", NumCol [num 0; num 10; num 30]);
             ("label", StrCol ["NotReady"; "Peak"; "Peak"])])
    (Some one_peak)
  = Ok (mkDF 3 [("Time", NumCol [num 0; num 1; num 2]);
                ("value", NumCol [num 0; num 10; num 30]);
                ("label", StrCol ["NotReady"; "Peak"; "Peak"])]).
Proof.
  apply (add_label_column_idempotent three_rows). vm_compute. reflexivity.
Defined.

(** ** preprocess_data: the columns of the result *)

Lemma add_label_column_columns data labels out :
  add_label_column data labels = Ok out ->
  columns out =
    match labels with
    | Some (_ :: _) =>
        if in_dec string_dec "label" (columns data)
        then columns data else (columns data ++ ["label"])%list
    | _ => columns data
    end.
Proof.
  intros H. destruct labels as [[|row rows]|]; try (now injection H as <-).
  unfold add_label_column in H. inv_bind H.
  apply (for_each_updates (fun _ => ["label"])) in H;
    [|intros r s s'; apply label_step_updates].
  apply (updates_label_columns data
           ("label" :: flat_map (fun _ => ["label"]) (row :: rows))).
  - econstructor; eassumption.
  - constructor; [reflexivity|]. apply Forall_forall. intros n Hn.
    apply in_flat_map in Hn. destruct Hn as (r & _ & [E|[]]). now symmetry.
  - discriminate.
Qed.

(** X8. [preprocess_data] returns the columns of its input under the
    same names and in the same order, whatever steps are switched on;
    the only column it can add is [label], at the end, and it does so
    exactly when labelling is switched on, the label table has a row
    and the input has no [label] column. *)
Theorem preprocess_data_columns :
  forall (data out : DataFrame) (labels : option (list LabelRow))
         (clean normalize add_labels : bool),
    preprocess_data data labels clean normalize add_labels = Ok out ->
    columns out =
      match labels with
      | Some (_ :: _) =>
          if add_labels && negb (if in_dec string_dec "label" (columns data)
                                 then true else false)
          then (columns data ++ ["label"])%list
          else columns data
      | _ => columns data
      end.
Proof.
  intros data out labels clean normalize add_labels H.
  unfold preprocess_data in H.
  inv_bind H. rename a into s1, Ha into H1.
  inv_bind H. rename a into s2, Ha into H2.
  inv_bind H. rename a into s3, Ha into H3. injection H as <-.
  assert (C1 : columns s1 = columns data).
  { destruct clean; [now apply clean_data_columns | now injection H1 as <-]. }
  assert (C2 : columns s2 = columns data).
  { rewrite <- C1.
    destruct normalize; [now apply normalize_data_columns | now injection H2 as <-]. }
  destruct labels as [rows|]; [|injection H3 as <-; exact C2].
  destruct add_labels.
  - apply add_label_column_columns in H3. rewrite H3, C2.
    destruct rows as [|row rows]; [reflexivity|].
    simpl. now destruct (in_dec string_dec "label" (columns data)).
  - injection H3 as <-. rewrite C2. now destruct rows.
Qed.

Lemma preprocess_data_columns_of_three_rows :
  columns (mkDF 3 [("Time", NumCol [num 0; num 1; num 2]);
                   ("value", NumCol [Fin 0; Fin (1 # 3); Fin 1]);
                   ("label", StrCol ["NotReady"; "Peak"; "Peak"])])
  = ["Time"; "value"; "label"].
Proof.
  apply (preprocess_data_columns three_rows _ (Some one_peak) true true true).
  vm_compute. reflexivity.
Defined.

(** ** normalize_data: the order of the values *)






(** ** clean_data: the range of the values *)

Lemma in_ffill_from last vs v :
  In v (ffill_from last vs) -> v = last \/ In v vs.
Proof.
  revert last. induction vs as [|x vs IH]; intros last; simpl; [tauto|].
  destruct (isna x) eqn:E; simpl.
  - intros [<-|H]; [now left|]. destruct (IH _ H); auto.
  - intros [<-|H]; [auto|]. destruct (IH _ H) as [->|]; auto.
Qed.

Lemma in_bfill vs v : In v (bfill vs) -> isna v = false -> In v vs.
Proof.
  induction vs as [|x vs IH]; simpl; [tauto|].
  intros [E|H] Hv; [|auto].
  destruct (isna x) eqn:Ex; [|now left].
  right. apply IH; [|assumption].
  destruct (bfill vs) as [|r rs]; simpl in E.
  - subst v. discriminate.
  - subst v. now left.
Qed.

Lemma in_fill vs v : In v (bfill (ffill vs)) -> isna v = false -> In v vs.
Proof.
  intros H Hv. apply in_bfill in H; [|assumption].
  apply in_ffill_from in H. destruct H as [->|H]; [discriminate | assumption].
Qed.

Lemma in_sort v vs : In v (sort vs) -> In v vs.
Proof.
  induction vs as [|x vs IH]; simpl; [tauto|].
  intros H. apply in_insert_sorted in H. destruct H as [->|H]; auto.
Qed.

Lemma quantile_in_range vs p lo hi :
  Forall (fun v => finite_or_missing v = true) vs -> dropna vs <> [] ->
  (0 <= p)%Q -> (p <= 1)%Q ->
  (forall v, In v (dropna vs) -> (lo <= value_of v)%Q /\ (value_of v <= hi)%Q) ->
  exists q, has_value (quantile p vs) q /\ (lo <= q)%Q /\ (q <= hi)%Q.
Proof.
  intros Hvs Hne Hp0 Hp1 Hb.
  pose proof (dropna_finite vs Hvs) as Hfin.
  set (a := sort (dropna vs)).
  assert (Ha : Forall (fun v => is_finite v = true) a) by now apply Forall_sort.
  assert (Hs : ascending a) by now apply ascending_sort, finite_not_na.
  assert (Hn : a <> []).
  { intros E. apply (f_equal (@List.length float)) in E. unfold a in E.
    rewrite length_sort in E. destruct (dropna vs); [contradiction | discriminate]. }
  exists (interpolate a p). split.
  - apply interpolate_is_quantile; auto.
  - assert (Hlen : 0 < List.length a) by (destruct a; [contradiction | simpl; lia]).
    unfold interpolate.
    destruct (position_bounds p (List.length a - 1)) as (A & B & C & D);
      [assumption..|].
    set (pos := (p * inject_Z (Z.of_nat (List.length a - 1)))%Q) in *.
    set (k := Z.to_nat (Qfloor pos)).
    set (k' := Nat.min (k + 1) (List.length a - 1)).
    assert (Hk : k < List.length a) by (unfold k; lia).
    assert (Hk' : k' < List.length a) by (unfold k'; lia).
    assert (Hel : forall m, m < List.length a ->
              (lo <= value_of (nth m a NaN))%Q /\ (value_of (nth m a NaN) <= hi)%Q).
    { intros m Hm. apply Hb. apply in_sort. now apply nth_In. }
    assert (Hij : (value_of (nth k a NaN) <= value_of (nth k' a NaN))%Q).
    { apply (nth_monotone a Ha Hs); [unfold k'; lia | assumption]. }
    destruct (Hel k Hk) as [L1 _]. destruct (Hel k' Hk') as [_ U2].
    split.
    + apply Qle_trans with (value_of (nth k a NaN)); [assumption|].
      apply lerp_lower; [assumption | lra].
    + apply Qle_trans with (value_of (nth k' a NaN)); [|assumption].
      apply lerp_upper; [assumption | lra].
Qed.

Lemma flt_not_na x y : flt x y = true -> isna x = false /\ isna y = false.
Proof. destruct x, y; simpl; try discriminate; auto. Qed.

Lemma iqr_clip_in_range s lo hi :
  Forall (fun v => finite_or_missing v = true) s ->
  (forall v, In v (dropna s) -> (lo <= value_of v)%Q /\ (value_of v <= hi)%Q) ->
  forall v, In v (iqr_clip s) -> isna v = false ->
    exists q, has_value v q /\ (lo <= q)%Q /\ (q <= hi)%Q.
Proof.
  intros Hs Hb v Hin Hv.
  destruct (dropna s) as [|x0 xs] eqn:Hdrop.
  - exfalso. unfold iqr_clip in Hin.
    rewrite !(quantile_all_missing _ s Hdrop) in Hin. simpl in Hin.
    rewrite clip_no_bounds in Hin.
    apply (dropna_nonempty s v Hin Hv Hdrop).
  - assert (Hne : dropna s <> []) by (rewrite Hdrop; discriminate).
    rewrite <- Hdrop in Hb.
    destruct (quantile_in_range s 0.25 lo hi Hs Hne) as (q1 & H1 & L1 & U1);
      [lra | lra | assumption |].
    destruct (quantile_in_range s 0.75 lo hi Hs Hne) as (q3 & H3 & L3 & U3);
      [lra | lra | assumption |].
    destruct (quartiles_ordered s Hs Hne) as (q1' & q3' & H1' & H3' & Hle).
    pose proof (has_value_unique _ _ _ H1 H1') as E1.
    pose proof (has_value_unique _ _ _ H3 H3') as E3.
    assert (Hord : (q1 <= q3)%Q) by lra.
    set (Q1 := quantile 0.25 s) in *. set (Q3 := quantile 0.75 s) in *.
    assert (HI : has_value (fsub Q3 Q1) (q3 - q1)) by now apply has_value_sub.
    assert (HM : has_value (fmul (Fin 1.5) (fsub Q3 Q1)) (1.5 * (q3 - q1)))
      by (apply has_value_mul; [apply has_value_Fin | exact HI]).
    assert (Hlo : has_value (fsub Q1 (fmul (Fin 1.5) (fsub Q3 Q1)))
                            (q1 - 1.5 * (q3 - q1)))
      by now apply has_value_sub.
    assert (Hhi : has_value (fadd Q3 (fmul (Fin 1.5) (fsub Q3 Q1)))
                            (q3 + 1.5 * (q3 - q1)))
      by now apply has_value_add.
    destruct (iqr_clip_spec s Hs) as [Hrows _].
    fold Q1 Q3 in Hrows. cbv zeta in Hrows.
    apply In_nth_error in Hin. destruct Hin as (i & Hi).
    assert (Hlen : List.length (iqr_clip s) = List.length s)
      by (unfold iqr_clip; apply length_clip).
    destruct (nth_error s i) as [w|] eqn:Hw.
    2:{ apply nth_error_None in Hw.
        assert (i < List.length (iqr_clip s)) by (apply nth_error_Some; congruence).
        lia. }
    set (lower := fsub Q1 (fmul (Fin 1.5) (fsub Q3 Q1))) in *.
    set (upper := fadd Q3 (fmul (Fin 1.5) (fsub Q3 Q1))) in *.
    assert (Ev : v = if flt w lower then lower
                     else if flt upper w then upper else w)
      by (rewrite (Hrows i w Hw) in Hi; congruence).
    clear Hi.
    assert (Hw_in : In w s) by (eapply nth_error_In; eassumption).
    assert (Hwv : isna w = false -> has_value w (value_of w) /\
                    (lo <= value_of w)%Q /\ (value_of w <= hi)%Q).
    { intros Hna. assert (In w (dropna s)) as Hd.
      { apply filter_In. split; [assumption | now rewrite Hna]. }
      split; [eapply finite_in_dropna; eassumption | now apply Hb]. }
    destruct (flt w lower) eqn:F1.
    + subst v. exists (q1 - 1.5 * (q3 - q1))%Q. split; [exact Hlo|].
      assert (Hna : isna w = false) by (apply flt_not_na in F1; tauto).
      destruct (Hwv Hna) as (Vw & Lw & Uw).
      apply (has_value_flt _ _ _ _ Vw Hlo) in F1. split; lra.
    + destruct (flt upper w) eqn:F2.
      * subst v. exists (q3 + 1.5 * (q3 - q1))%Q. split; [exact Hhi|].
        assert (Hna : isna w = false) by (apply flt_not_na in F2; tauto).
        destruct (Hwv Hna) as (Vw & Lw & Uw).
        apply (has_value_flt _ _ _ _ Hhi Vw) in F2. split; lra.
      * subst v. destruct (Hwv Hv) as (Vw & Lw & Uw). eauto.
Qed.

(** X10. [clean_data] leaves every column of finite or missing numbers
    within the range of the values it was given: every value of the
    cleaned column lies between the smallest and the largest value of
    the input column, so neither the fill nor the clip to the quartile
    fences brings in a value outside the range observed. *)
Theorem clean_data_stays_in_observed_range :
  forall (data out : DataFrame) (column : string) (vs : list float),
    wf data ->
    clean_data data = Ok out ->
    column <> "Time" ->
    getitem data column = Ok (NumCol vs) ->
    Forall (fun v => finite_or_missing v = true) vs ->
    exists cleaned,
      getitem out column = Ok (NumCol cleaned) /\
      forall v, In v cleaned -> isna v = false ->
        fle (smin vs) v = true /\ fle v (smax vs) = true.
Proof.
  intros data out column vs Hwf Hclean Hcol Hget Hvs.
  assert (Hlook : lookup column (cols data) = Some (NumCol vs)).
  { unfold getitem in Hget. destruct (lookup column (cols data)); congruence. }
  pose proof (clean_data_column _ _ _ _ Hwf Hclean Hcol Hlook) as Hout.
  exists (iqr_clip (bfill (ffill vs))). unfold getitem. rewrite Hout.
  split; [reflexivity|]. intros v Hin Hv.
  set (s := bfill (ffill vs)) in *.
  assert (Hs : Forall (fun v => finite_or_missing v = true) s)
    by now apply fill_finite_or_missing.
  assert (Hsub : forall x, In x (dropna s) -> In x (dropna vs)).
  { intros x Hx. apply filter_In in Hx. destruct Hx as [Hx Hna].
    apply negb_true_iff in Hna. apply filter_In. split.
    - now apply in_fill.
    - now rewrite Hna. }
  destruct (dropna vs) as [|x0 xs] eqn:Hdrop.
  - exfalso. destruct (dropna s) as [|y ys] eqn:Hds.
    + unfold iqr_clip in Hin. rewrite !(quantile_all_missing _ s Hds) in Hin.
      simpl in Hin. rewrite clip_no_bounds in Hin.
      apply (dropna_nonempty s v Hin Hv Hds).
    + apply (Hsub y). now left.
  - assert (Hne : dropna vs <> []) by (rewrite Hdrop; discriminate).
    rewrite <- Hdrop in Hsub.
    destruct (smin_spec vs Hne) as [Hmin_in Hmin_le].
    destruct (smax_spec vs Hne) as [Hmax_in Hmax_le].
    pose proof (finite_in_dropna vs _ Hvs Hmin_in) as Hmin.
    pose proof (finite_in_dropna vs _ Hvs Hmax_in) as Hmax.
    destruct (iqr_clip_in_range s (value_of (smin vs)) (value_of (smax vs)) Hs)
      with (v := v) as (q & Vq & Lq & Uq); try assumption.
    + intros x Hx. apply Hsub in Hx.
      pose proof (finite_in_dropna vs x Hvs Hx) as Vx. split.
      * apply (has_value_fle _ _ _ _ Hmin Vx). now apply Hmin_le.
      * apply (has_value_fle _ _ _ _ Vx Hmax). now apply Hmax_le.
    + split.
      * now apply (has_value_fle _ _ _ _ Hmin Vq).
      * now apply (has_value_fle _ _ _ _ Vq Hmax).
Qed.

Lemma clean_data_stays_in_observed_range_on_five_rows :
  exists cleaned,
    getitem (mkDF 5 [("Time", NumCol [num 0; num 1; num 2; num 3; num 4]);
                     ("value", NumCol [num 1; num 2; num 3; num 4; num 7])])
            "value" = Ok (NumCol cleaned) /\
    forall v, In v cleaned -> isna v = false ->
      fle (smin [num 1; num 2; num 3; num 4; num 100]) v = true /\
      fle v (smax [num 1; num 2; num 3; num 4; num 100]) = true.
Proof.
  apply (clean_data_stays_in_observed_range five_rows).
  - split; [repeat constructor; simpl; intuition discriminate | repeat constructor].
  - vm_compute. reflexivity.
  - discriminate.
  - reflexivity.
  - repeat constructor.
Defined.

(** ** normalize_data: columns of text *)

Lemma ascii_compare_lt_trans a b c :
  Ascii.compare a b = Lt -> Ascii.compare b c = Lt -> Ascii.compare a c = Lt.
Proof.
  unfold Ascii.compare. rewrite !N.compare_lt_iff. apply N.lt_trans.
Qed.

Lemma string_compare_lt_trans s : forall t u,
  String.compare s t = Lt -> String.compare t u = Lt -> String.compare s u = Lt.
Proof.
  induction s as [|a s IH]; intros [|b t] [|c u]; simpl; try discriminate; auto.
  destruct (Ascii.compare a b) eqn:Eab; try discriminate.
  - apply Ascii.compare_eq_iff in Eab. subst b.
    destruct (Ascii.compare a c); try discriminate; auto. apply IH.
  - intros _. destruct (Ascii.compare b c) eqn:Ebc; try discriminate.
    + apply Ascii.compare_eq_iff in Ebc. subst c. now rewrite Eab.
    + intros _. now rewrite (ascii_compare_lt_trans _ _ _ Eab Ebc).
Qed.

Lemma ltb_trans s t u :
  String.ltb s t = true -> String.ltb t u = true -> String.ltb s u = true.
Proof.
  unfold String.ltb. intros H1 H2.
  destruct (String.compare s t) eqn:E1; try discriminate.
  destruct (String.compare t u) eqn:E2; try discriminate.
  now rewrite (string_compare_lt_trans _ _ _ E1 E2).
Qed.

Lemma ltb_irrefl s : String.ltb s s = false.
Proof.
  unfold String.ltb. pose proof (String.compare_antisym s s) as H.
  destruct (String.compare s s); simpl in H; try discriminate; reflexivity.
Qed.

Lemma ltb_neither s t :
  String.ltb s t = false -> String.ltb t s = false -> s = t.
Proof.
  unfold String.ltb. rewrite (String.compare_antisym t s).
  destruct (String.compare s t) eqn:E; simpl; try discriminate.
  intros _ _. now apply String.compare_eq_iff.
Qed.

Lemma fold_str_min xs : forall x,
  let m := fold_left (fun m v => if String.ltb v m then v else m) xs x in
  forall v, In v (x :: xs) -> String.ltb v m = false.
Proof.
  induction xs as [|y ys IH]; intros x; simpl.
  - intros v [<-|[]]. apply ltb_irrefl.
  - set (x' := if String.ltb y x then y else x).
    assert (Hx : String.ltb x x' = false /\ String.ltb y x' = false).
    { unfold x'. destruct (String.ltb y x) eqn:E.
      - split; [|apply ltb_irrefl].
        destruct (String.ltb x y) eqn:E'; [|reflexivity].
        rewrite <- (ltb_irrefl x). symmetry. eapply ltb_trans; eassumption.
      - split; [apply ltb_irrefl | assumption]. }
    intros v Hv.
    assert (Hm : String.ltb x'
              (fold_left (fun m v => if String.ltb v m then v else m) ys x') = false)
      by (apply (IH x'); now left).
    assert (Hbelow : forall w, String.ltb w x' = false ->
              String.ltb w (fold_left (fun m v => if String.ltb v m then v else m)
                                      ys x') = false).
    { intros w Hw.
      destruct (String.ltb w (fold_left _ ys x')) eqn:E; [|reflexivity].
      destruct (String.ltb (fold_left (fun m v => if String.ltb v m then v else m)
                                      ys x') x') eqn:E2.
      - rewrite <- Hw. symmetry. eapply ltb_trans; eassumption.
      - rewrite (ltb_neither _ _ Hm E2) in Hw. congruence. }
    destruct Hv as [<-|[<-|Hv]].
    + apply Hbelow, Hx.
    + apply Hbelow, Hx.
    + apply (IH x'). now right.
Qed.

Lemma fold_str_max xs : forall x,
  let m := fold_left (fun m v => if String.ltb m v then v else m) xs x in
  forall v, In v (x :: xs) -> String.ltb m v = false.
Proof.
  induction xs as [|y ys IH]; intros x; simpl.
  - intros v [<-|[]]. apply ltb_irrefl.
  - set (x' := if String.ltb x y then y else x).
    assert (Hx : String.ltb x' x = false /\ String.ltb x' y = false).
    { unfold x'. destruct (String.ltb x y) eqn:E.
      - split; [|apply ltb_irrefl].
        destruct (String.ltb y x) eqn:E'; [|reflexivity].
        rewrite <- (ltb_irrefl x). symmetry. eapply ltb_trans; eassumption.
      - split; [apply ltb_irrefl | assumption]. }
    intros v Hv.
    assert (Hm : String.ltb
              (fold_left (fun m v => if String.ltb m v then v else m) ys x') x'
              = false)
      by (apply (IH x'); now left).
    assert (Habove : forall w, String.ltb x' w = false ->
              String.ltb (fold_left (fun m v => if String.ltb m v then v else m)
                                    ys x') w = false).
    { intros w Hw.
      destruct (String.ltb (fold_left _ ys x') w) eqn:E; [|reflexivity].
      destruct (String.ltb x' (fold_left (fun m v => if String.ltb m v then v else m)
                                         ys x')) eqn:E2.
      - rewrite <- Hw. symmetry. eapply ltb_trans; eassumption.
      - rewrite <- (ltb_neither _ _ Hm E2) in Hw. congruence. }
    destruct Hv as [<-|[<-|Hv]].
    + apply Habove, Hx.
    + apply Habove, Hx.
    + apply (IH x'). now right.
Qed.

(** A column that holds two different strings: its largest is above its
    smallest. *)
Lemma str_min_below_max vs a b :
  In a vs -> In b vs -> a <> b ->
  exists lo hi, str_min vs = Some lo /\ str_max vs = Some hi /\
                String.ltb lo hi = true.
Proof.
  intros Ha Hb Hab. destruct vs as [|x xs]; [contradiction|].
  eexists _, _. split; [reflexivity|]. split; [reflexivity|].
  pose proof (fold_str_min xs x) as Hmin. pose proof (fold_str_max xs x) as Hmax.
  simpl in Hmin, Hmax.
  set (lo := fold_left (fun m v => if String.ltb v m then v else m) xs x) in *.
  set (hi := fold_left (fun m v => if String.ltb m v then v else m) xs x) in *.
  destruct (String.ltb lo hi) eqn:E; [reflexivity|]. exfalso.
  assert (Hall : forall v, In v (x :: xs) -> v = lo).
  { intros v Hv. apply ltb_neither; [now apply Hmin|].
    destruct (String.ltb lo v) eqn:E'; [|reflexivity].
    pose proof (Hmax v Hv) as Hhv.
    destruct (String.ltb hi lo) eqn:E2.
    - rewrite <- Hhv. symmetry. eapply ltb_trans; eassumption.
    - rewrite (ltb_neither _ _ E E2) in E'. congruence. }
  apply Hab. rewrite (Hall a Ha), (Hall b Hb). reflexivity.
Qed.

Lemma normalize_step_outcome col s :
  wf s -> In col (columns s) ->
  normalize_step col s = Err TypeError \/
  exists s', normalize_step col s = Ok s'.
Proof.
  intros [_ Hlen] Hin. unfold normalize_step.
  destruct (String.eqb col "Time"); [eauto|].
  unfold getitem. destruct (lookup col (cols s)) as [c|] eqn:Hc.
  2:{ apply lookup_none in Hc. contradiction. }
  simpl. destruct c as [vs|vs].
  - destruct (fgt (smax vs) (smin vs)); [|eauto].
    right. unfold setitem. simpl col_len. rewrite length_map.
    apply lookup_in in Hc. rewrite Forall_forall in Hlen.
    specialize (Hlen _ Hc). simpl in Hlen. rewrite Hlen, Nat.eqb_refl. eauto.
  - destruct (str_min vs), (str_max vs); eauto.
    destruct (String.ltb _ _); eauto.
Qed.

Lemma normalize_loop_refuses name vs lo hi cs :
  name <> "Time" ->
  str_min vs = Some lo -> str_max vs = Some hi -> String.ltb lo hi = true ->
  In name cs ->
  forall s, wf s -> incl cs (columns s) ->
    lookup name (cols s) = Some (StrCol vs) ->
    for_each cs normalize_step s = Err TypeError.
Proof.
  intros Hname Hlo Hhi Hlt. induction cs as [|c cs IH]; [intros []|].
  intros Hin s Hwf Hincl Hcol. simpl.
  destruct (string_dec c name) as [->|Hne].
  - unfold normalize_step at 1.
    destruct (String.eqb_spec name "Time") as [|_]; [contradiction|].
    unfold getitem. rewrite Hcol. simpl. now rewrite Hlo, Hhi, Hlt.
  - destruct (normalize_step_outcome c s Hwf) as [->|(s' & Hs')];
      [apply Hincl; now left | reflexivity |].
    rewrite Hs'. simpl. apply IH.
    + destruct Hin as [E|Hin]; [contradiction | assumption].
    + eapply keeps_wf; [eapply normalize_step_keeps; eassumption | assumption].
    + rewrite (normalize_step_columns _ _ _ Hs').
      intros x Hx. apply Hincl. now right.
    + destruct (normalize_step_column _ _ _ Hs') as [_ Hother].
      rewrite Hother by congruence. exact Hcol.
Qed.

(** X11. [normalize_data] raises [TypeError] on every well-formed table
    that has, beside [Time], a column of strings with two different
    values in it, a [label] column for one: the table has to be
    normalised before it is labelled. *)
Theorem normalize_data_refuses_text :
  forall (data : DataFrame) (name : string) (vs : list string) (a b : string),
    wf data ->
    name <> "Time" ->
    getitem data name = Ok (StrCol vs) ->
    In a vs -> In b vs -> a <> b ->
    normalize_data data = Err TypeError.
Proof.
  intros data name vs a b Hwf Hname Hget Ha Hb Hab.
  assert (Hlook : lookup name (cols data) = Some (StrCol vs)).
  { unfold getitem in Hget. destruct (lookup name (cols data)); congruence. }
  destruct (str_min_below_max vs a b Ha Hb Hab) as (lo & hi & Hlo & Hhi & Hlt).
  unfold normalize_data.
  apply (normalize_loop_refuses name vs lo hi); try assumption.
  - apply lookup_in in Hlook. apply (in_map fst) in Hlook. exact Hlook.
  - apply incl_refl.
Qed.

Lemma normalize_data_refuses_labelled_rows :
  normalize_data labelled_rows = Err TypeError.
Proof.
  apply (normalize_data_refuses_text labelled_rows "label"
           ["NotReady"; "Peak"; "Peak"] "NotReady" "Peak").
  - split; [repeat constructor; simpl; intuition discriminate | repeat constructor].
  - discriminate.
  - reflexivity.
  - simpl. now left.
  - simpl. right. now left.
  - discriminate.
Defined.

(** ** preprocess_data: cleaning, then scaling *)








(** * Further properties of features.py *)

(** ** Feature names never clash *)

Lemma append_suffix_split (s s' t t' : string) :
  s ++ t = s' ++ t' -> String.length t <= String.length t' ->
  exists u, t' = u ++ t /\ s = s' ++ u.
Proof.
  revert s. induction s' as [|a s' IH]; intros s Heq Hlen; simpl in *.
  - exists s. split; [now symmetry | reflexivity].
  - destruct s as [|b s]; simpl in *.
    + apply (f_equal String.length) in Heq. simpl in Heq.
      rewrite length_append in Heq. lia.
    + injection Heq as -> Heq. destruct (IH s Heq Hlen) as (u & Hu & Hs).
      exists u. split; [assumption | now rewrite Hs].
Qed.

Lemma append_split_length (u t t' : string) :
  t' = u ++ t -> String.length u = String.length t' - String.length t.
Proof. intros ->. rewrite length_append. lia. Qed.

Lemma append_nil_r (s : string) : s ++ "" = s.
Proof. induction s as [|a s IH]; simpl; [reflexivity | now rewrite IH]. Qed.

(** From [c ++ suffix = c' ++ suffix'], for two given suffixes: the
    longer ends with the shorter, which a comparison settles. *)
Ltac split_suffixes E :=
  let u := fresh "u" in
  let Hu := fresh "Hu" in
  let Hs := fresh "Hs" in
  let Hl := fresh "Hl" in
  first [ apply append_suffix_split in E; [|simpl; lia]
        | symmetry in E; apply append_suffix_split in E; [|simpl; lia] ];
  destruct E as (u & Hu & Hs);
  pose proof (append_split_length _ _ _ Hu) as Hl; simpl in Hl;
  repeat (destruct u as [|? u]; simpl in Hl; try lia);
  simpl in Hu; try discriminate Hu;
  rewrite append_nil_r in Hs; subst; auto.

Lemma unambiguous_rolling : unambiguous rolling_suffixes.
Proof.
  intros c c' s s' Hs Hs' E. simpl in Hs, Hs'.
  destruct Hs as [<-|[<-|[<-|[<-|[]]]]]; destruct Hs' as [<-|[<-|[<-|[<-|[]]]]];
    split_suffixes E.
Qed.

Lemma unambiguous_derivative : unambiguous derivative_suffixes.
Proof.
  intros c c' s s' Hs Hs' E. simpl in Hs, Hs'.
  destruct Hs as [<-|[<-|[]]]; destruct Hs' as [<-|[<-|[]]]; split_suffixes E.
Qed.

Lemma unambiguous_frequency : unambiguous frequency_suffixes.
Proof.
  intros c c' s s' Hs Hs' E. simpl in Hs, Hs'.
  destruct Hs as [<-|[<-|[]]]; destruct Hs' as [<-|[<-|[]]]; split_suffixes E.
Qed.

(** ** What a stage leaves in the columns it adds *)

Section StageOutputs.

Variable suffixes : list string.
Variable step : string -> DataFrame -> outcome DataFrame.

Hypothesis suffixes_unambiguous : unambiguous suffixes.
Hypothesis step_frame :
  forall c s s', step c s = Ok s' ->
    forall name, ~ In name (with_suffixes suffixes c) ->
                 lookup name (cols s') = lookup name (cols s).

Lemma stage_frame cs : forall s out,
  for_each cs step s = Ok out ->
  forall name, ~ In name (flat_map (with_suffixes suffixes) cs) ->
               lookup name (cols out) = lookup name (cols s).
Proof.
  induction cs as [|c cs IH]; intros s out H name Hname; simpl in H.
  - now injection H as <-.
  - inv_bind H. simpl in Hname. rewrite in_app_iff in Hname.
    rewrite (IH _ _ H) by tauto. apply (step_frame _ _ _ Ha). tauto.
Qed.

Lemma feature_not_written col suffix cs :
  In suffix suffixes -> ~ In col cs ->
  ~ In (col ++ suffix) (flat_map (with_suffixes suffixes) cs).
Proof.
  intros Hs Hcol Hin. apply in_flat_map in Hin. destruct Hin as (c & Hc & Hin).
  apply in_map_iff in Hin. destruct Hin as (s' & E & Hs').
  destruct (suffixes_unambiguous c col s' suffix Hs' Hs E) as [-> _].
  contradiction.
Qed.

Lemma source_not_written col cs :
  no_feature_named suffixes cs -> In col cs ->
  ~ In col (flat_map (with_suffixes suffixes) cs).
Proof.
  intros Hno Hcol Hin. apply in_flat_map in Hin. destruct Hin as (c & Hc & Hin).
  apply in_map_iff in Hin. destruct Hin as (s' & E & Hs').
  apply (Hno c s' Hc Hs'). now rewrite E.
Qed.

(** A property of the column [col ++ suffix] that every iteration for
    [col] establishes holds in the output of the stage. *)
Lemma stage_output_property (suffix : string) (P : string -> option column -> Prop) :
  In suffix suffixes ->
  (forall c s s', step c s = Ok s' -> P c (lookup (c ++ suffix) (cols s'))) ->
  forall cs s out, for_each cs step s = Ok out ->
  forall col, In col cs -> P col (lookup (col ++ suffix) (cols out)).
Proof.
  intros Hs Hstep. induction cs as [|c cs IH]; intros s out H col Hcol;
    simpl in H; [contradiction|].
  inv_bind H. destruct (in_dec string_dec col cs) as [Hin|Hnin].
  - eapply IH; eassumption.
  - destruct Hcol as [<-|Hcol]; [|contradiction].
    rewrite (stage_frame cs _ _ H) by now apply feature_not_written.
    eapply Hstep; eassumption.
Qed.

(** The same for a property that relates the column [col ++ suffix] to
    the column [col] and to [Time] as the iteration finds them: in the
    output it relates it to the columns of the input, provided no
    selected column is named like a feature of a selected column. *)
Lemma stage_output_relation (suffix : string)
  (R : option column -> option column -> option column -> Prop) :
  In suffix suffixes ->
  Forall (fun sfx => 4 < String.length sfx) suffixes ->
  (forall c s s', step c s = Ok s' ->
     R (lookup c (cols s)) (lookup "Time" (cols s))
       (lookup (c ++ suffix) (cols s'))) ->
  forall cs s out, for_each cs step s = Ok out ->
  no_feature_named suffixes cs ->
  forall col, In col cs ->
    R (lookup col (cols s)) (lookup "Time" (cols s))
      (lookup (col ++ suffix) (cols out)).
Proof.
  intros Hs Hlong Hstep. induction cs as [|c cs IH]; intros s out H Hno col Hcol;
    simpl in H; [contradiction|].
  inv_bind H.
  assert (Hno' : no_feature_named suffixes cs).
  { intros x sfx Hx Hsfx Hin. apply (Hno x sfx); simpl; auto. }
  assert (Htime : lookup "Time" (cols a) = lookup "Time" (cols s)).
  { apply (step_frame _ _ _ Ha). now apply with_suffixes_not_Time. }
  assert (Hsrc : forall x, In x (c :: cs) ->
            lookup x (cols a) = lookup x (cols s)).
  { intros x Hx. apply (step_frame _ _ _ Ha). intros Hin.
    apply in_map_iff in Hin. destruct Hin as (sfx & E & Hsfx).
    apply (Hno c sfx); [now left | assumption | now rewrite E]. }
  destruct (in_dec string_dec col cs) as [Hin|Hnin].
  - rewrite <- Htime, <- (Hsrc col Hcol). eapply IH; eassumption.
  - destruct Hcol as [<-|Hcol]; [|contradiction].
    rewrite (stage_frame cs _ _ H) by now apply feature_not_written.
    eapply Hstep; eassumption.
Qed.

End StageOutputs.

(** ** One iteration of each feature stage *)

Lemma setitem_lookup_same s name c s' :
  setitem s name c = Ok s' -> lookup name (cols s') = Some c.
Proof.
  intros H. apply setitem_ok in H. destruct H as [_ ->]. simpl.
  apply lookup_assign_same.
Qed.

Lemma setitem_lookup_other s name c s' other :
  setitem s name c = Ok s' -> name <> other ->
  lookup other (cols s') = lookup other (cols s).
Proof.
  intros H Hne. apply setitem_ok in H. destruct H as [_ ->]. simpl.
  now apply lookup_assign_other.
Qed.

Lemma setitem_get_num_other s name c s' other :
  setitem s name c = Ok s' -> name <> other ->
  get_num s' other = get_num s other.
Proof.
  intros H Hne. unfold get_num, getitem.
  now rewrite (setitem_lookup_other _ _ _ _ _ H Hne).
Qed.

Lemma append_prefix_inj (c s s' : string) : c ++ s = c ++ s' -> s = s'.
Proof. induction c as [|a c IH]; simpl; [auto|]. intros [= H]. auto. Qed.

Lemma append_not_self (c s : string) : s <> "" -> c ++ s <> c.
Proof.
  intros Hs E. apply (f_equal String.length) in E. rewrite length_append in E.
  destruct s; [contradiction | simpl in E; lia].
Qed.

Lemma rolling_inv w f vs m :
  rolling w f vs = Ok m -> (1 <= w)%Z /\ m = rolling_values w f vs.
Proof.
  unfold rolling. destruct (Z.ltb_spec w 1); [discriminate|].
  intros [= <-]. now split.
Qed.

Lemma step_frame_of_updates suffixes (names : string -> list string)
  (step : string -> DataFrame -> outcome DataFrame) :
  (forall c s s', step c s = Ok s' -> updates s (names c) s') ->
  (forall c name, In name (names c) -> In name (with_suffixes suffixes c)) ->
  forall c s s', step c s = Ok s' ->
    forall name, ~ In name (with_suffixes suffixes c) ->
                 lookup name (cols s') = lookup name (cols s).
Proof.
  intros Hup Hnames c s s' H name Hname.
  apply (updates_lookup _ _ _ name (Hup _ _ _ H)). intros Hin. apply Hname.
  now apply Hnames.
Qed.

Lemma derivatives_step_frame c s s' :
  derivatives_step c s = Ok s' ->
  forall name, ~ In name (with_suffixes derivative_suffixes c) ->
               lookup name (cols s') = lookup name (cols s).
Proof.
  apply (step_frame_of_updates derivative_suffixes
           (fun c => with_suffixes derivative_suffixes c
                     ++ with_suffixes derivative_suffixes c)%list).
  - apply derivatives_step_updates.
  - intros col name Hin. apply in_app_iff in Hin. tauto.
Qed.

Section StepSpecs.

Variable fsqrt : float -> float.
Variable rfft_mag : list float -> nat -> float.

Lemma rolling_step_frame w c s s' :
  rolling_step fsqrt w c s = Ok s' ->
  forall name, ~ In name (with_suffixes rolling_suffixes c) ->
               lookup name (cols s') = lookup name (cols s).
Proof.
  apply (step_frame_of_updates rolling_suffixes (with_suffixes rolling_suffixes)).
  - intros col t t'. apply rolling_step_updates.
  - auto.
Qed.

Lemma frequency_step_frame data w c s s' :
  frequency_step rfft_mag data w c s = Ok s' ->
  forall name, ~ In name (with_suffixes frequency_suffixes c) ->
               lookup name (cols s') = lookup name (cols s).
Proof.
  apply (step_frame_of_updates frequency_suffixes
           (with_suffixes frequency_suffixes)).
  - intros col t t'. apply frequency_step_updates.
  - auto.
Qed.

Lemma rolling_step_spec w col s s' :
  rolling_step fsqrt w col s = Ok s' ->
  exists vs,
    get_num s col = Ok vs /\ (1 <= w)%Z /\
    lookup (col ++ "_rolling_mean") (cols s')
      = Some (NumCol (rolling_values w mean vs)) /\
    lookup (col ++ "_rolling_std") (cols s')
      = Some (NumCol (fillna f0 (rolling_values w (std fsqrt) vs))) /\
    lookup (col ++ "_rolling_min") (cols s')
      = Some (NumCol (rolling_values w smin vs)) /\
    lookup (col ++ "_rolling_max") (cols s')
      = Some (NumCol (rolling_values w smax vs)).
Proof.
  unfold rolling_step. intros H.
  assert (Hself : forall sfx, sfx <> "" -> col ++ sfx <> col)
    by (intros; now apply append_not_self).
  assert (Hdiff : forall a b, a <> b -> col ++ a <> col ++ b).
  { intros a b Hab E. apply Hab. eapply append_prefix_inj; eassumption. }
  inv_bind H. rename a into vs, Ha into Hvs.
  inv_bind H. apply rolling_inv in Ha. destruct Ha as [Hw ->].
  inv_bind H. rename a into s1, Ha into H1.
  inv_bind H. rewrite (setitem_get_num_other _ _ _ _ _ H1), Hvs in Ha
    by (apply Hself; discriminate). injection Ha as <-.
  inv_bind H. apply rolling_inv in Ha. destruct Ha as [_ ->].
  inv_bind H. rename a into s2, Ha into H2.
  inv_bind H.
  rewrite (setitem_get_num_other _ _ _ _ _ H2),
          (setitem_get_num_other _ _ _ _ _ H1), Hvs in Ha
    by (apply Hself; discriminate). injection Ha as <-.
  inv_bind H. apply rolling_inv in Ha. destruct Ha as [_ ->].
  inv_bind H. rename a into s3, Ha into H3.
  inv_bind H.
  rewrite (setitem_get_num_other _ _ _ _ _ H3),
          (setitem_get_num_other _ _ _ _ _ H2),
          (setitem_get_num_other _ _ _ _ _ H1), Hvs in Ha
    by (apply Hself; discriminate). injection Ha as <-.
  inv_bind H. apply rolling_inv in Ha. destruct Ha as [_ ->].
  exists vs. split; [assumption|]. split; [assumption|].
  split; [|split; [|split]].
  - rewrite (setitem_lookup_other _ _ _ _ _ H),
            (setitem_lookup_other _ _ _ _ _ H3),
            (setitem_lookup_other _ _ _ _ _ H2)
      by (apply Hdiff; discriminate).
    now apply setitem_lookup_same in H1.
  - rewrite (setitem_lookup_other _ _ _ _ _ H),
            (setitem_lookup_other _ _ _ _ _ H3)
      by (apply Hdiff; discriminate).
    now apply setitem_lookup_same in H2.
  - rewrite (setitem_lookup_other _ _ _ _ _ H) by (apply Hdiff; discriminate).
    now apply setitem_lookup_same in H3.
  - now apply setitem_lookup_same in H.
Qed.

End StepSpecs.

(** ** Trailing windows *)

Lemma window_at_row w i vs v :
  1 <= w -> nth_error vs i = Some v ->
  nth_error (window_at w i vs) (i - (i + 1 - w)) = Some v.
Proof.
  intros Hw Hv. unfold window_at.
  rewrite nth_error_skipn, nth_error_firstn.
  replace (i + 1 - w + (i - (i + 1 - w))) with i by lia.
  destruct (Nat.ltb_spec i (i + 1)); [assumption | lia].
Qed.

Lemma window_at_incl w i vs : incl (window_at w i vs) vs.
Proof.
  unfold window_at. intros x Hx.
  apply (In_nth_error (skipn _ _)) in Hx. destruct Hx as (k & Hk).
  rewrite nth_error_skipn, nth_error_firstn in Hk.
  destruct (Nat.ltb _ _); [|discriminate].
  eapply nth_error_In; eassumption.
Qed.

Lemma window_at_first w v vs : 1 <= w -> window_at w 0 (v :: vs) = [v].
Proof.
  intros Hw. unfold window_at. replace (0 + 1 - w) with 0 by lia.
  simpl. now destruct vs.
Qed.

Lemma window_at_one i vs v : nth_error vs i = Some v -> window_at 1 i vs = [v].
Proof.
  unfold window_at. replace (i + 1 - 1) with i by lia.
  revert vs. induction i as [|i IH]; intros [|x vs]; simpl; try discriminate.
  - intros [= ->]. now destruct vs.
  - apply IH.
Qed.

Lemma inf_to_nan_value v : finite_or_missing v = true -> inf_to_nan v = v.
Proof. destruct v; simpl; try discriminate; reflexivity. Qed.

Lemma map_inf_to_nan vs :
  Forall (fun v => finite_or_missing v = true) vs -> map inf_to_nan vs = vs.
Proof.
  induction 1 as [|v vs Hv _ IH]; simpl; [reflexivity|].
  now rewrite IH, inf_to_nan_value.
Qed.

Lemma nth_error_rolling_values w f vs i :
  i < List.length vs ->
  nth_error (rolling_values w f vs) i
    = Some (f (window_at (Z.to_nat w) i (map inf_to_nan vs))).
Proof.
  intros Hi. unfold rolling_values.
  rewrite nth_error_map, nth_error_seq.
  destruct (Nat.ltb_spec i (List.length vs)); [reflexivity | lia].
Qed.

Lemma length_rolling_values w f vs :
  List.length (rolling_values w f vs) = List.length vs.
Proof. unfold rolling_values. now rewrite length_map, length_seq. Qed.

(** ** Statistics of a window of finite values *)

Lemma dropna_all_values vs :
  Forall (fun v => isna v = false) vs -> dropna vs = vs.
Proof.
  induction 1 as [|v vs Hv Hvs IH]; simpl; [reflexivity|].
  now rewrite Hv, IH.
Qed.

Lemma fsum_from_value xs : forall acc a,
  Forall (fun v => is_finite v = true) xs -> has_value acc a ->
  has_value (fold_left fadd xs acc) (a + total xs).
Proof.
  induction xs as [|x xs IH]; intros acc a Hxs Hacc; simpl.
  - eapply has_value_eq; [eassumption | ring].
  - inversion Hxs as [|? ? Hx Hxs']; subst.
    eapply has_value_eq.
    + apply IH; [assumption|].
      apply has_value_add; [eassumption | now apply has_value_finite].
    + ring.
Qed.

Lemma fsum_value xs :
  Forall (fun v => is_finite v = true) xs -> has_value (fsum xs) (total xs).
Proof.
  intros H. eapply has_value_eq.
  - apply (fsum_from_value xs f0 0 H). apply has_value_Fin.
  - ring.
Qed.

Lemma total_bounds xs lo hi :
  Forall (fun x => (lo <= value_of x)%Q /\ (value_of x <= hi)%Q) xs ->
  (lo * inject_Z (Z.of_nat (List.length xs)) <= total xs)%Q /\
  (total xs <= hi * inject_Z (Z.of_nat (List.length xs)))%Q.
Proof.
  induction 1 as [|x xs [Hlo Hhi] Hxs [IH1 IH2]].
  - cbn [total fold_right List.length Z.of_nat]. change (inject_Z 0) with 0%Q.
    split; lra.
  - cbn [total fold_right List.length]. fold (total xs).
    rewrite Nat2Z.inj_succ. unfold Z.succ. rewrite inject_Z_plus.
    change (inject_Z 1) with 1%Q.
    set (n := inject_Z (Z.of_nat (List.length xs))) in *.
    split; lra.
Qed.

Lemma mean_between win lo hi :
  win <> [] ->
  Forall (fun v => is_finite v = true) win ->
  Forall (fun x => (lo <= value_of x)%Q /\ (value_of x <= hi)%Q) win ->
  exists m, has_value (mean win) m /\ (lo <= m)%Q /\ (m <= hi)%Q.
Proof.
  intros Hne Hfin Hb. unfold mean.
  rewrite (dropna_all_values win (finite_not_na win Hfin)).
  replace (match win with [] => NaN | x :: l => _ end)
    with (fdiv (fsum win) (of_nat (List.length win)))
    by (destruct win; [contradiction | reflexivity]).
  set (n := inject_Z (Z.of_nat (List.length win))).
  assert (Hn : (0 < n)%Q).
  { unfold n. change 0%Q with (inject_Z 0). rewrite <- Zlt_Qlt.
    destruct win; [contradiction | simpl; lia]. }
  destruct (total_bounds win lo hi Hb) as [B1 B2]. fold n in B1, B2.
  exists (total win / n)%Q. split; [|split].
  - apply has_value_div; [now apply fsum_value | apply has_value_Fin | lra].
  - apply Qle_shift_div_l; assumption.
  - apply Qle_shift_div_r; assumption.
Qed.

(** ** calculate_rolling_statistics: the four columns *)

Lemma rolling_stage_outputs fsqrt data w selection out col vs :
  calculate_rolling_statistics fsqrt data w selection = Ok out ->
  no_feature_named rolling_suffixes (columns_or_default data selection) ->
  In col (columns_or_default data selection) ->
  getitem data col = Ok (NumCol vs) ->
  (1 <= w)%Z /\
  getitem out (col ++ "_rolling_mean") = Ok (NumCol (rolling_values w mean vs)) /\
  getitem out (col ++ "_rolling_std")
    = Ok (NumCol (fillna f0 (rolling_values w (std fsqrt) vs))) /\
  getitem out (col ++ "_rolling_min") = Ok (NumCol (rolling_values w smin vs)) /\
  getitem out (col ++ "_rolling_max") = Ok (NumCol (rolling_values w smax vs)).
Proof.
  intros H Hno Hcol Hget. unfold calculate_rolling_statistics in H.
  assert (Hlook : lookup col (cols data) = Some (NumCol vs)).
  { unfold getitem in Hget. destruct (lookup col (cols data)); congruence. }
  assert (Hlong : Forall (fun sfx => 4 < String.length sfx) rolling_suffixes)
    by (repeat constructor; simpl; lia).
  pose proof (fun sfx f Hs Hstep =>
    stage_output_relation rolling_suffixes (rolling_step fsqrt w)
      unambiguous_rolling (rolling_step_frame fsqrt w) sfx
      (fun src _ res => forall xs, src = Some (NumCol xs) ->
         (1 <= w)%Z /\ res = Some (NumCol (f xs)))
      Hs Hlong Hstep _ _ _ H Hno col Hcol vs Hlook) as Hrel.
  assert (Hspec : forall x s s' xs,
    rolling_step fsqrt w x s = Ok s' -> lookup x (cols s) = Some (NumCol xs) ->
    (1 <= w)%Z /\
    lookup (x ++ "_rolling_mean") (cols s')
      = Some (NumCol (rolling_values w mean xs)) /\
    lookup (x ++ "_rolling_std") (cols s')
      = Some (NumCol (fillna f0 (rolling_values w (std fsqrt) xs))) /\
    lookup (x ++ "_rolling_min") (cols s')
      = Some (NumCol (rolling_values w smin xs)) /\
    lookup (x ++ "_rolling_max") (cols s')
      = Some (NumCol (rolling_values w smax xs))).
  { intros x s s' xs Hstep Hx. apply rolling_step_spec in Hstep.
    destruct Hstep as (xs' & Hxs' & Hw & Hrest).
    apply get_num_lookup in Hxs'. rewrite Hx in Hxs'. injection Hxs' as <-.
    now split. }
  unfold getitem.
  destruct (Hrel "_rolling_mean" (rolling_values w mean)) as [Hw ->].
  { simpl. auto. }
  { intros x s s' Hstep xs Hx.
    destruct (Hspec x s s' xs Hstep Hx) as (? & ? & _). now split. }
  destruct (Hrel "_rolling_std"
              (fun xs => fillna f0 (rolling_values w (std fsqrt) xs))) as [_ ->].
  { simpl. auto. }
  { intros x s s' Hstep xs Hx.
    destruct (Hspec x s s' xs Hstep Hx) as (? & _ & ? & _). now split. }
  destruct (Hrel "_rolling_min" (rolling_values w smin)) as [_ ->].
  { simpl. auto. }
  { intros x s s' Hstep xs Hx.
    destruct (Hspec x s s' xs Hstep Hx) as (? & _ & _ & ? & _). now split. }
  destruct (Hrel "_rolling_max" (rolling_values w smax)) as [_ ->].
  { simpl. auto 6. }
  { intros x s s' Hstep xs Hx.
    destruct (Hspec x s s' xs Hstep Hx) as (? & _ & _ & _ & ?). now split. }
  auto.
Qed.

Lemma smin_single v : smin [v] = v.
Proof. unfold smin. simpl. destruct v; reflexivity. Qed.

Lemma smax_single v : smax [v] = v.
Proof. unfold smax. simpl. destruct v; reflexivity. Qed.

Lemma std_single fsqrt v : std fsqrt [v] = NaN.
Proof. unfold std. simpl. destruct (isna v); reflexivity. Qed.

Lemma mean_single v :
  is_finite v = true -> has_value (mean [v]) (value_of v).
Proof.
  intros Hv. destruct (mean_between [v] (value_of v) (value_of v))
    as (m & Hm & H1 & H2).
  - discriminate.
  - now constructor.
  - constructor; [split; apply Qle_refl | constructor].
  - eapply has_value_eq; [exact Hm | now apply Qle_antisym].
Qed.

(** X13. On a channel of finite numbers, at every row the rolling minimum
    and the rolling maximum are values of the trailing window of the
    row, the minimum at most the value of the row and the maximum at
    least; this for any window of at least 1, provided no selected
    column is named like a rolling feature of a selected column. *)
Theorem rolling_min_and_max_bracket_the_row :
  forall (fsqrt : float -> float) (data : DataFrame) (window_size : Z)
         (selection : option (list string)) (out : DataFrame)
         (col : string) (vs : list float),
    calculate_rolling_statistics fsqrt data window_size selection = Ok out ->
    no_feature_named rolling_suffixes (columns_or_default data selection) ->
    In col (columns_or_default data selection) ->
    getitem data col = Ok (NumCol vs) ->
    Forall (fun v => is_finite v = true) vs ->
    exists mins maxs,
      getitem out (col ++ "_rolling_min") = Ok (NumCol mins) /\
      getitem out (col ++ "_rolling_max") = Ok (NumCol maxs) /\
      forall i v, nth_error vs i = Some v ->
        exists lo hi,
          nth_error mins i = Some lo /\
          nth_error maxs i = Some hi /\
          In lo (window_at (Z.to_nat window_size) i vs) /\
          In hi (window_at (Z.to_nat window_size) i vs) /\
          fle lo v = true /\ fle v hi = true.
Proof.
  intros fsqrt data w selection out col vs H Hno Hcol Hget Hfin.
  destruct (rolling_stage_outputs _ _ _ _ _ _ _ H Hno Hcol Hget)
    as (Hw & _ & _ & Hmin & Hmax).
  eexists _, _. split; [exact Hmin|]. split; [exact Hmax|].
  intros i v Hv.
  assert (Hi : i < List.length vs) by (apply nth_error_Some; congruence).
  set (win := window_at (Z.to_nat w) i vs).
  assert (Hin : In v win).
  { apply (nth_error_In win (i - (i + 1 - Z.to_nat w))).
    apply window_at_row; [lia | exact Hv]. }
  assert (Hne : win <> []) by (intros E; rewrite E in Hin; contradiction).
  assert (Hwin : Forall (fun x => is_finite x = true) win).
  { rewrite Forall_forall in Hfin |- *. intros x Hx.
    apply Hfin. now apply (window_at_incl (Z.to_nat w) i vs). }
  pose proof (finite_not_na win Hwin) as Hna.
  assert (Hd : dropna win <> []) by now rewrite dropna_all_values.
  destruct (smin_spec win Hd) as [Imin Lmin].
  destruct (smax_spec win Hd) as [Imax Lmax].
  rewrite dropna_all_values in Imin, Lmin, Imax, Lmax by assumption.
  exists (smin win), (smax win).
  rewrite !nth_error_rolling_values by assumption.
  rewrite map_inf_to_nan.
  2:{ eapply Forall_impl; [|exact Hfin]. intros x Hx.
      unfold finite_or_missing. now rewrite Hx. }
  fold win. repeat split; auto.
Qed.

Lemma rolling_min_and_max_bracket_three_rows :
  exists mins maxs,
    getitem (mkDF 3 [("Time", NumCol [num 0; num 1; num 2]);
                     ("value", NumCol [num 0; num 10; num 30]);
                     ("value_rolling_mean", NumCol [Fin 0; Fin 5; Fin 20]);
                     ("value_rolling_std", NumCol [Fin 0; Fin 7; Fin 14]);
                     ("value_rolling_min", NumCol [Fin 0; Fin 0; Fin 10]);
                     ("value_rolling_max", NumCol [Fin 0; Fin 10; Fin 30])])
            ("value" ++ "_rolling_min") = Ok (NumCol mins) /\
    getitem (mkDF 3 [("Time", NumCol [num 0; num 1; num 2]);
                     ("value", NumCol [num 0; num 10; num 30]);
                     ("value_rolling_mean", NumCol [Fin 0; Fin 5; Fin 20]);
                     ("value_rolling_std", NumCol [Fin 0; Fin 7; Fin 14]);
                     ("value_rolling_min", NumCol [Fin 0; Fin 0; Fin 10]);
                     ("value_rolling_max", NumCol [Fin 0; Fin 10; Fin 30])])
            ("value" ++ "_rolling_max") = Ok (NumCol maxs) /\
    forall i v, nth_error [num 0; num 10; num 30] i = Some v ->
      exists lo hi,
        nth_error mins i = Some lo /\
        nth_error maxs i = Some hi /\
        In lo (window_at (Z.to_nat 2) i [num 0; num 10; num 30]) /\
        In hi (window_at (Z.to_nat 2) i [num 0; num 10; num 30]) /\
        fle lo v = true /\ fle v hi = true.
Proof.
  apply (rolling_min_and_max_bracket_the_row example_sqrt three_rows 2 None
           (mkDF 3 [("Time", NumCol [num 0; num 1; num 2]);
                    ("value", NumCol [num 0; num 10; num 30]);
                    ("value_rolling_mean", NumCol [Fin 0; Fin 5; Fin 20]);
                    ("value_rolling_std", NumCol [Fin 0; Fin 7; Fin 14]);
                    ("value_rolling_min", NumCol [Fin 0; Fin 0; Fin 10]);
                    ("value_rolling_max", NumCol [Fin 0; Fin 10; Fin 30])])
           "value" [num 0; num 10; num 30]).
  - vm_compute. reflexivity.
  - intros c suffix Hc Hs Hin. simpl in Hc, Hs, Hin.
    destruct Hc as [<-|[]]. destruct Hin as [Hin|[]].
    intuition (subst; discriminate).
  - simpl. now left.
  - reflexivity.
  - repeat constructor.
Defined.

(** X14. At row 0 the rolling minimum and maximum are the value of the
    row itself, a number or a missing value, the rolling standard
    deviation is 0,
    and the rolling mean has the value of the row when that is finite;
    with a window of 1 this holds at every row: the minimum and the
    maximum columns are the channel itself and the standard deviation
    is 0 throughout.  This for rows that hold a finite or a missing
    value, provided no selected column is named like a rolling feature
    of a selected column. *)
Theorem rolling_of_a_single_sample :
  forall (fsqrt : float -> float) (data : DataFrame) (window_size : Z)
         (selection : option (list string)) (out : DataFrame)
         (col : string) (vs : list float),
    calculate_rolling_statistics fsqrt data window_size selection = Ok out ->
    no_feature_named rolling_suffixes (columns_or_default data selection) ->
    In col (columns_or_default data selection) ->
    getitem data col = Ok (NumCol vs) ->
    exists means stds mins maxs,
      getitem out (col ++ "_rolling_mean") = Ok (NumCol means) /\
      getitem out (col ++ "_rolling_std") = Ok (NumCol stds) /\
      getitem out (col ++ "_rolling_min") = Ok (NumCol mins) /\
      getitem out (col ++ "_rolling_max") = Ok (NumCol maxs) /\
      (forall i v, nth_error vs i = Some v -> finite_or_missing v = true ->
         i = 0 \/ window_size = 1%Z ->
         nth_error mins i = Some v /\ nth_error maxs i = Some v /\
         nth_error stds i = Some f0 /\
         (is_finite v = true ->
          exists m, nth_error means i = Some m /\ has_value m (value_of v))).
Proof.
  intros fsqrt data w selection out col vs H Hno Hcol Hget.
  destruct (rolling_stage_outputs _ _ _ _ _ _ _ H Hno Hcol Hget)
    as (Hw & Hmean & Hstd & Hmin & Hmax).
  eexists _, _, _, _. split; [exact Hmean|]. split; [exact Hstd|].
  split; [exact Hmin|]. split; [exact Hmax|].
  intros i v Hv Hfm Hedge.
  assert (Hi : i < List.length vs) by (apply nth_error_Some; congruence).
  assert (Hv' : nth_error (map inf_to_nan vs) i = Some v).
  { rewrite nth_error_map, Hv. simpl. now rewrite inf_to_nan_value. }
  assert (Hwin : window_at (Z.to_nat w) i (map inf_to_nan vs) = [v]).
  { destruct Hedge as [->| ->].
    - destruct (map inf_to_nan vs) as [|x xs]; [discriminate|].
      injection Hv' as ->. apply window_at_first. lia.
    - now apply window_at_one. }
  unfold fillna. rewrite nth_error_map, !nth_error_rolling_values by assumption.
  rewrite Hwin, smin_single, smax_single, std_single. simpl.
  repeat split. intros Hfin. eexists. split; [reflexivity|].
  now apply mean_single.
Qed.

Lemma rolling_of_a_single_sample_on_three_rows :
  exists means stds mins maxs,
    getitem (mkDF 3 [("Time", NumCol [num 0; num 1; num 2]);
                     ("value", NumCol [num 0; num 10; num 30]);
                     ("value_rolling_mean", NumCol [Fin 0; Fin 10; Fin 30]);
                     ("value_rolling_std", NumCol [Fin 0; Fin 0; Fin 0]);
                     ("value_rolling_min", NumCol [Fin 0; Fin 10; Fin 30]);
                     ("value_rolling_max", NumCol [Fin 0; Fin 10; Fin 30])])
            ("value" ++ "_rolling_mean") = Ok (NumCol means) /\
    getitem (mkDF 3 [("Time", NumCol [num 0; num 1; num 2]);
                     ("value", NumCol [num 0; num 10; num 30]);
                     ("value_rolling_mean", NumCol [Fin 0; Fin 10; Fin 30]);
                     ("value_rolling_std", NumCol [Fin 0; Fin 0; Fin 0]);
                     ("value_rolling_min", NumCol [Fin 0; Fin 10; Fin 30]);
                     ("value_rolling_max", NumCol [Fin 0; Fin 10; Fin 30])])
            ("value" ++ "_rolling_std") = Ok (NumCol stds) /\
    getitem (mkDF 3 [("Time", NumCol [num 0; num 1; num 2]);
                     ("value", NumCol [num 0; num 10; num 30]);
                     ("value_rolling_mean", NumCol [Fin 0; Fin 10; Fin 30]);
                     ("value_rolling_std", NumCol [Fin 0; Fin 0; Fin 0]);
                     ("value_rolling_min", NumCol [Fin 0; Fin 10; Fin 30]);
                     ("value_rolling_max", NumCol [Fin 0; Fin 10; Fin 30])])
            ("value" ++ "_rolling_min") = Ok (NumCol mins) /\
    getitem (mkDF 3 [("Time", NumCol [num 0; num 1; num 2]);
                     ("value", NumCol [num 0; num 10; num 30]);
                     ("value_rolling_mean", NumCol [Fin 0; Fin 10; Fin 30]);
                     ("value_rolling_std", NumCol [Fin 0; Fin 0; Fin 0]);
                     ("value_rolling_min", NumCol [Fin 0; Fin 10; Fin 30]);
                     ("value_rolling_max", NumCol [Fin 0; Fin 10; Fin 30])])
            ("value" ++ "_rolling_max") = Ok (NumCol maxs) /\
    (forall i v, nth_error [num 0; num 10; num 30] i = Some v ->
       finite_or_missing v = true ->
       i = 0 \/ 1%Z = 1%Z ->
       nth_error mins i = Some v /\ nth_error maxs i = Some v /\
       nth_error stds i = Some f0 /\
       (is_finite v = true ->
        exists m, nth_error means i = Some m /\ has_value m (value_of v))).
Proof.
  apply (rolling_of_a_single_sample example_sqrt three_rows 1 None
           (mkDF 3 [("Time", NumCol [num 0; num 1; num 2]);
                    ("value", NumCol [num 0; num 10; num 30]);
                    ("value_rolling_mean", NumCol [Fin 0; Fin 10; Fin 30]);
                    ("value_rolling_std", NumCol [Fin 0; Fin 0; Fin 0]);
                    ("value_rolling_min", NumCol [Fin 0; Fin 10; Fin 30]);
                    ("value_rolling_max", NumCol [Fin 0; Fin 10; Fin 30])])
           "value" [num 0; num 10; num 30]).
  - vm_compute. reflexivity.
  - intros c suffix Hc Hs Hin. simpl in Hc, Hs, Hin.
    destruct Hc as [<-|[]]. destruct Hin as [Hin|[]].
    intuition (subst; discriminate).
  - simpl. now left.
  - reflexivity.
Defined.

(** ** calculate_derivatives: the two columns *)

Lemma derivatives_stage_outputs data selection out col vs :
  calculate_derivatives data selection = Ok out ->
  no_feature_named derivative_suffixes (columns_or_default data selection) ->
  In col (columns_or_default data selection) ->
  getitem data col = Ok (NumCol vs) ->
  exists ts,
    getitem data "Time" = Ok (NumCol ts) /\
    getitem out (col ++ "_deriv1")
      = Ok (NumCol (fillna f0 (first_derivative vs ts))) /\
    getitem out (col ++ "_deriv2")
      = Ok (NumCol (fillna f0 (second_derivative vs ts))) /\
    List.length (first_derivative vs ts) = nrows data /\
    List.length (second_derivative vs ts) = nrows data.
Proof.
  intros H Hno Hcol Hget.
  pose proof (derivatives_keeps _ _ _ H) as Hkeep. apply keeps_nrows in Hkeep.
  unfold calculate_derivatives in H.
  destruct (derivatives_loop _ _ _ H col Hcol)
    as (d1 & d2 & D1 & D2 & L1 & L2 & _).
  assert (Hlook : lookup col (cols data) = Some (NumCol vs)).
  { unfold getitem in Hget. destruct (lookup col (cols data)); congruence. }
  assert (Hlong : Forall (fun sfx => 4 < String.length sfx) derivative_suffixes)
    by (repeat constructor; simpl; lia).
  pose proof (fun sfx f Hs Hstep =>
    stage_output_relation derivative_suffixes derivatives_step
      unambiguous_derivative derivatives_step_frame sfx
      (fun src time res => forall xs, src = Some (NumCol xs) ->
         exists ts, time = Some (NumCol ts) /\ res = Some (NumCol (f xs ts)))
      Hs Hlong Hstep _ _ _ H Hno col Hcol vs Hlook) as Hrel.
  assert (Hspec : forall x s s' xs,
    derivatives_step x s = Ok s' -> lookup x (cols s) = Some (NumCol xs) ->
    exists ts, lookup "Time" (cols s) = Some (NumCol ts) /\
      lookup (x ++ "_deriv1") (cols s')
        = Some (NumCol (fillna f0 (first_derivative xs ts))) /\
      lookup (x ++ "_deriv2") (cols s')
        = Some (NumCol (fillna f0 (second_derivative xs ts)))).
  { intros x s s' xs Hstep Hx. apply derivatives_step_spec in Hstep.
    destruct Hstep as (v & t & Hv & Ht & H1 & H2 & _).
    apply get_num_lookup in Hv, Ht. rewrite Hx in Hv. injection Hv as <-.
    exists t. auto. }
  destruct (Hrel "_deriv1" (fun xs ts => fillna f0 (first_derivative xs ts)))
    as (ts & Hts & E1).
  { simpl. auto. }
  { intros x s s' Hstep xs Hx.
    destruct (Hspec x s s' xs Hstep Hx) as (t & ? & ? & _). eauto. }
  destruct (Hrel "_deriv2" (fun xs ts => fillna f0 (second_derivative xs ts)))
    as (ts' & Hts' & E2).
  { simpl. auto. }
  { intros x s s' Hstep xs Hx.
    destruct (Hspec x s s' xs Hstep Hx) as (t & ? & _ & ?). eauto. }
  rewrite Hts in Hts'. injection Hts' as <-.
  exists ts. unfold getitem. rewrite Hts, E1, E2.
  rewrite E1 in D1. injection D1 as <-. rewrite E2 in D2. injection D2 as <-.
  rewrite !length_fillna in L1, L2.
  repeat split; congruence.
Qed.

Lemma nth_error_diff_from prev vs i a b :
  nth_error vs i = Some a -> nth_error vs (S i) = Some b ->
  nth_error (diff_from prev vs) (S i) = Some (fsub b a).
Proof.
  revert prev vs. induction i as [|i IH]; intros prev [|x vs]; simpl;
    try discriminate.
  - intros [= ->]. destruct vs as [|y vs]; simpl; [discriminate|].
    now intros [= ->].
  - intros Ha Hb. now apply IH.
Qed.

Lemma nth_error_diff vs i a b :
  nth_error vs i = Some a -> nth_error vs (S i) = Some b ->
  nth_error (diff vs) (S i) = Some (fsub b a).
Proof.
  destruct vs as [|x vs]; [destruct i; discriminate|].
  destruct i as [|i]; simpl.
  - intros [= ->]. destruct vs as [|y vs]; simpl; [discriminate|].
    now intros [= ->].
  - intros Ha Hb. now apply nth_error_diff_from.
Qed.

Lemma nth_error_div_series a b i x y :
  nth_error a i = Some x -> nth_error b i = Some y ->
  nth_error (div_series a b) i = Some (fdiv x y).
Proof.
  revert a b. induction i as [|i IH]; intros [|x' a] [|y' b]; simpl;
    try discriminate.
  - now intros [= ->] [= ->].
  - apply IH.
Qed.

Lemma nth_error_fillna vs i x :
  nth_error vs i = Some x -> isna x = false ->
  nth_error (fillna f0 vs) i = Some x.
Proof.
  intros Hx Hna. unfold fillna. rewrite nth_error_map, Hx. simpl. now rewrite Hna.
Qed.

Lemma fsub_same_value x y q : has_value x q -> has_value y q -> fsub x y = f0.
Proof.
  intros (a & -> & Ha) (b & -> & Hb). unfold fsub, fneg, fadd.
  apply (fin_canonical _ 0). rewrite Qred_correct, Ha, Hb. ring.
Qed.

Lemma fsub_zero_or_missing x y :
  zero_or_missing x -> zero_or_missing y -> zero_or_missing (fsub x y).
Proof. intros [->| ->] [->| ->]; vm_compute; auto. Qed.

Lemma fdiv_zero_or_missing x y : zero_or_missing x -> zero_or_missing (fdiv x y).
Proof.
  intros [->| ->]; [left; now destruct y|].
  destruct y as [b| | |]; unfold zero_or_missing; simpl; auto.
  destruct (Qeq_bool b 0); [now left | right].
  apply (fin_canonical _ 0). unfold Qdiv. ring.
Qed.

Lemma div_series_zero_or_missing a b :
  Forall zero_or_missing a -> Forall zero_or_missing (div_series a b).
Proof.
  intros H. revert b. induction H as [|x a Hx Ha IH]; intros [|y b]; simpl;
    constructor; auto using fdiv_zero_or_missing.
Qed.

Lemma diff_from_constant q prev vs :
  has_value prev q -> Forall (fun v => has_value v q) vs ->
  Forall zero_or_missing (diff_from prev vs).
Proof.
  intros Hp H. revert prev Hp. induction H as [|v vs Hv Hvs IH]; intros prev Hp;
    simpl; constructor; auto.
  right. eapply fsub_same_value; eassumption.
Qed.

Lemma diff_constant q vs :
  Forall (fun v => has_value v q) vs -> Forall zero_or_missing (diff vs).
Proof.
  intros H. destruct H as [|v vs Hv Hvs]; simpl; constructor; [now left|].
  eapply diff_from_constant; eassumption.
Qed.

Lemma diff_from_zero_or_missing prev vs :
  zero_or_missing prev -> Forall zero_or_missing vs ->
  Forall zero_or_missing (diff_from prev vs).
Proof.
  intros Hp H. revert prev Hp. induction H as [|v vs Hv Hvs IH]; intros prev Hp;
    simpl; constructor; auto using fsub_zero_or_missing.
Qed.

Lemma diff_zero_or_missing vs :
  Forall zero_or_missing vs -> Forall zero_or_missing (diff vs).
Proof.
  intros H. destruct H as [|v vs Hv Hvs]; simpl; constructor; [now left|].
  now apply diff_from_zero_or_missing.
Qed.

Lemma fillna_zero_or_missing vs :
  Forall zero_or_missing vs -> Forall (fun d => d = f0) (fillna f0 vs).
Proof.
  intros H. unfold fillna. apply Forall_map.
  eapply Forall_impl; [|exact H]. intros x [->| ->]; reflexivity.
Qed.

(** X15. For a channel that holds one finite value throughout, the two
    derivative columns are 0 at every row, whatever the timestamps are
    (equal, missing or infinite ones included), provided no selected
    column is named like a derivative feature of a selected column. *)
Theorem derivatives_of_a_constant_channel :
  forall (data : DataFrame) (selection : option (list string)) (out : DataFrame)
         (col : string) (vs : list float) (q : Q),
    calculate_derivatives data selection = Ok out ->
    no_feature_named derivative_suffixes (columns_or_default data selection) ->
    In col (columns_or_default data selection) ->
    getitem data col = Ok (NumCol vs) ->
    Forall (fun v => has_value v q) vs ->
    exists deriv1 deriv2,
      getitem out (col ++ "_deriv1") = Ok (NumCol deriv1) /\
      getitem out (col ++ "_deriv2") = Ok (NumCol deriv2) /\
      List.length deriv1 = nrows data /\ List.length deriv2 = nrows data /\
      Forall (fun d => d = f0) deriv1 /\ Forall (fun d => d = f0) deriv2.
Proof.
  intros data selection out col vs q H Hno Hcol Hget Hconst.
  destruct (derivatives_stage_outputs _ _ _ _ _ H Hno Hcol Hget)
    as (ts & _ & H1 & H2 & L1 & L2).
  eexists _, _. split; [exact H1|]. split; [exact H2|].
  rewrite !length_fillna. split; [exact L1|]. split; [exact L2|].
  assert (Z1 : Forall zero_or_missing (first_derivative vs ts)).
  { apply div_series_zero_or_missing. eapply diff_constant; eassumption. }
  split; apply fillna_zero_or_missing; [exact Z1|].
  apply div_series_zero_or_missing. now apply diff_zero_or_missing.
Qed.

Lemma derivatives_of_a_constant_channel_on_three_rows :
  exists deriv1 deriv2,
    getitem (mkDF 3 [("Time", NumCol [num 0; num 1; num 1]);
                     ("value", NumCol [num 5; num 5; num 5]);
                     ("value_deriv1", NumCol [Fin 0; Fin 0; Fin 0]);
                     ("value_deriv2", NumCol [Fin 0; Fin 0; Fin 0])])
            ("value" ++ "_deriv1") = Ok (NumCol deriv1) /\
    getitem (mkDF 3 [("Time", NumCol [num 0; num 1; num 1]);
                     ("value", NumCol [num 5; num 5; num 5]);
                     ("value_deriv1", NumCol [Fin 0; Fin 0; Fin 0]);
                     ("value_deriv2", NumCol [Fin 0; Fin 0; Fin 0])])
            ("value" ++ "_deriv2") = Ok (NumCol deriv2) /\
    List.length deriv1 = nrows steady_channel /\
    List.length deriv2 = nrows steady_channel /\
    Forall (fun d => d = f0) deriv1 /\ Forall (fun d => d = f0) deriv2.
Proof.
  apply (derivatives_of_a_constant_channel steady_channel None
           (mkDF 3 [("Time", NumCol [num 0; num 1; num 1]);
                    ("value", NumCol [num 5; num 5; num 5]);
                    ("value_deriv1", NumCol [Fin 0; Fin 0; Fin 0]);
                    ("value_deriv2", NumCol [Fin 0; Fin 0; Fin 0])])
           "value" [num 5; num 5; num 5] 5%Q).
  - vm_compute. reflexivity.
  - intros c suffix Hc Hs Hin. simpl in Hc, Hs, Hin.
    destruct Hc as [<-|[]]. destruct Hin as [Hin|[]].
    intuition (subst; discriminate).
  - simpl. now left.
  - reflexivity.
  - repeat constructor; apply has_value_Fin.
Defined.

(** X16. Where two consecutive rows have finite values and finite,
    different timestamps, and the two differences and their quotient
    are within [2^1023], [deriv1] at the second row is the difference
    quotient [(v[i+1] - v[i]) / (t[i+1] - t[i])]; this provided no
    selected column is named like a derivative feature of a selected
    column. *)
Theorem first_derivative_is_a_difference_quotient :
  forall (data : DataFrame) (selection : option (list string)) (out : DataFrame)
         (col : string) (vs : list float),
    calculate_derivatives data selection = Ok out ->
    no_feature_named derivative_suffixes (columns_or_default data selection) ->
    In col (columns_or_default data selection) ->
    getitem data col = Ok (NumCol vs) ->
    exists ts deriv1,
      getitem data "Time" = Ok (NumCol ts) /\
      getitem out (col ++ "_deriv1") = Ok (NumCol deriv1) /\
      forall i a b t u,
        nth_error vs i = Some (Fin a) -> nth_error vs (S i) = Some (Fin b) ->
        nth_error ts i = Some (Fin t) -> nth_error ts (S i) = Some (Fin u) ->
        ~ (u == t)%Q ->
        no_overflow (b - a) -> no_overflow (u - t) ->
        no_overflow ((b - a) / (u - t)) ->
        exists d, nth_error deriv1 (S i) = Some d /\
                  has_value d ((b - a) / (u - t)).
Proof.
  intros data selection out col vs H Hno Hcol Hget.
  destruct (derivatives_stage_outputs _ _ _ _ _ H Hno Hcol Hget)
    as (ts & Hts & H1 & _).
  exists ts. eexists. split; [exact Hts|]. split; [exact H1|].
  intros i a b t u Ha Hb Ht Hu Hne _ _ _.
  exists (fdiv (fsub (Fin b) (Fin a)) (fsub (Fin u) (Fin t))).
  assert (Vd : has_value (fdiv (fsub (Fin b) (Fin a)) (fsub (Fin u) (Fin t)))
                 ((b - a) / (u - t))).
  { apply has_value_div;
      [apply has_value_sub; apply has_value_Fin
      |apply has_value_sub; apply has_value_Fin
      |lra]. }
  split; [|exact Vd].
  apply nth_error_fillna; [|eapply has_value_not_na; eassumption].
  unfold first_derivative. apply nth_error_div_series;
    now apply nth_error_diff.
Qed.

Lemma first_derivative_is_a_difference_quotient_on_three_rows :
  exists deriv1 d,
    getitem (mkDF 3 [("Time", NumCol [num 0; num 1; num 2]);
                     ("value", NumCol [num 0; num 10; num 30]);
                     ("value_deriv1", NumCol [Fin 0; Fin 10; Fin 20]);
                     ("value_deriv2", NumCol [Fin 0; Fin 0; Fin 10])])
            ("value" ++ "_deriv1") = Ok (NumCol deriv1) /\
    nth_error deriv1 1 = Some d /\
    has_value d ((10 - 0) / (1 - 0)).
Proof.
  destruct (first_derivative_is_a_difference_quotient three_rows None
           (mkDF 3 [("Time", NumCol [num 0; num 1; num 2]);
                    ("value", NumCol [num 0; num 10; num 30]);
                    ("value_deriv1", NumCol [Fin 0; Fin 10; Fin 20]);
                    ("value_deriv2", NumCol [Fin 0; Fin 0; Fin 10])])
           "value" [num 0; num 10; num 30])
    as (ts & deriv1 & Hts & Hd & Hrow).
  - vm_compute. reflexivity.
  - intros c suffix Hc Hs Hin. simpl in Hc, Hs, Hin.
    destruct Hc as [<-|[]]. destruct Hin as [Hin|[]].
    intuition (subst; discriminate).
  - simpl. now left.
  - reflexivity.
  - injection Hts as <-.
    destruct (Hrow 0 0%Q 10%Q 0%Q 1%Q) as (d & Hd1 & Vd); try reflexivity.
    + discriminate.
    + split; vm_compute; discriminate.
    + split; vm_compute; discriminate.
    + split; vm_compute; discriminate.
    + exists deriv1, d. split; [exact Hd|]. split; assumption.
Defined.

(** ** The columns that are filled with 0 *)

Lemma fillna_no_missing vs : Forall (fun v => isna v = false) (fillna f0 vs).
Proof.
  unfold fillna. apply Forall_map. apply Forall_forall. intros x _.
  destruct (isna x) eqn:E; [reflexivity | exact E].
Qed.

(** X17. The columns that the feature stages fill with 0 hold no missing
    value, whatever the input holds: [_rolling_std] after
    [calculate_rolling_statistics], [_deriv1] and [_deriv2] after
    [calculate_derivatives]. *)
Theorem filled_feature_columns_have_no_gap :
  (forall (fsqrt : float -> float) (data : DataFrame) (window_size : Z)
          (selection : option (list string)) (out : DataFrame) (col : string),
      calculate_rolling_statistics fsqrt data window_size selection = Ok out ->
      In col (columns_or_default data selection) ->
      exists stds,
        getitem out (col ++ "_rolling_std") = Ok (NumCol stds) /\
        Forall (fun v => isna v = false) stds) /\
  (forall (data : DataFrame) (selection : option (list string)) (out : DataFrame)
          (col : string),
      calculate_derivatives data selection = Ok out ->
      In col (columns_or_default data selection) ->
      exists deriv1 deriv2,
        getitem out (col ++ "_deriv1") = Ok (NumCol deriv1) /\
        getitem out (col ++ "_deriv2") = Ok (NumCol deriv2) /\
        Forall (fun v => isna v = false) deriv1 /\
        Forall (fun v => isna v = false) deriv2).
Proof.
  split.
  - intros fsqrt data w selection out col H Hcol.
    unfold calculate_rolling_statistics in H.
    destruct (stage_output_property rolling_suffixes (rolling_step fsqrt w)
                unambiguous_rolling (rolling_step_frame fsqrt w) "_rolling_std"
                (fun _ c => exists stds, c = Some (NumCol stds) /\
                                         Forall (fun v => isna v = false) stds))
      with (cs := columns_or_default data selection) (s := data) (out := out)
           (col := col) as (stds & Hstds & Hall); try assumption.
    + simpl. auto.
    + intros c s s' Hstep. apply rolling_step_spec in Hstep.
      destruct Hstep as (vs & _ & _ & _ & Hstd & _).
      eexists. split; [exact Hstd | apply fillna_no_missing].
    + exists stds. unfold getitem. rewrite Hstds. now split.
  - intros data selection out col H Hcol.
    unfold calculate_derivatives in H.
    pose proof (fun sfx Hs Hstep =>
      stage_output_property derivative_suffixes derivatives_step
        unambiguous_derivative derivatives_step_frame sfx
        (fun _ c => exists ds, c = Some (NumCol ds) /\
                               Forall (fun v => isna v = false) ds)
        Hs Hstep _ _ _ H col Hcol) as Hprop.
    destruct (Hprop "_deriv1") as (d1 & H1 & A1).
    { simpl. auto. }
    { intros c s s' Hstep. apply derivatives_step_spec in Hstep.
      destruct Hstep as (v & t & _ & _ & Hd1 & _).
      eexists. split; [exact Hd1 | apply fillna_no_missing]. }
    destruct (Hprop "_deriv2") as (d2 & H2 & A2).
    { simpl. auto. }
    { intros c s s' Hstep. apply derivatives_step_spec in Hstep.
      destruct Hstep as (v & t & _ & _ & _ & Hd2 & _).
      eexists. split; [exact Hd2 | apply fillna_no_missing]. }
    exists d1, d2. unfold getitem. rewrite H1, H2. auto.
Qed.

Lemma filled_feature_columns_have_no_gap_at_a_duplicate_timestamp :
  exists deriv1 deriv2,
    getitem (mkDF 3 [("Time", NumCol [num 0; num 1; num 1]);
                     ("value", NumCol [num 5; num 5; num 5]);
                     ("value_deriv1", NumCol [Fin 0; Fin 0; Fin 0]);
                     ("value_deriv2", NumCol [Fin 0; Fin 0; Fin 0])])
            ("value" ++ "_deriv1") = Ok (NumCol deriv1) /\
    getitem (mkDF 3 [("Time", NumCol [num 0; num 1; num 1]);
                     ("value", NumCol [num 5; num 5; num 5]);
                     ("value_deriv1", NumCol [Fin 0; Fin 0; Fin 0]);
                     ("value_deriv2", NumCol [Fin 0; Fin 0; Fin 0])])
            ("value" ++ "_deriv2") = Ok (NumCol deriv2) /\
    Forall (fun v => isna v = false) deriv1 /\
    Forall (fun v => isna v = false) deriv2.
Proof.
  apply (proj2 filled_feature_columns_have_no_gap steady_channel None).
  - vm_compute. reflexivity.
  - simpl. now left.
Defined.

(** ** extract_frequency_features: the range of the dominant frequency *)

Lemma nth_rfftfreq n k :
  k < n / 2 + 1 ->
  nth k (rfftfreq n) NaN = fin (inject_Z (Z.of_nat k) / inject_Z (Z.of_nat n)).
Proof.
  intros Hk. unfold rfftfreq.
  rewrite (nth_indep _ NaN (fin (inject_Z (Z.of_nat (n / 2 + 1)) / inject_Z (Z.of_nat n))))
    by (now rewrite length_map, length_seq).
  rewrite (map_nth (fun k => fin (inject_Z (Z.of_nat k) / inject_Z (Z.of_nat n)))
                   (seq 0 (n / 2 + 1)) (n / 2 + 1) k).
  now rewrite seq_nth.
Qed.

Lemma bin_frequency_range n k :
  10 < n -> 1 <= k -> k <= n / 2 ->
  let q := (inject_Z (Z.of_nat k) / inject_Z (Z.of_nat n))%Q in
  (0 < q)%Q /\ (q <= 1 # 2)%Q.
Proof.
  intros Hn Hk1 Hk2 q. subst q.
  assert (Hn' : (0 < inject_Z (Z.of_nat n))%Q).
  { change 0%Q with (inject_Z 0). rewrite <- Zlt_Qlt. lia. }
  assert (Hk' : (0 < inject_Z (Z.of_nat k))%Q).
  { change 0%Q with (inject_Z 0). rewrite <- Zlt_Qlt. lia. }
  assert (H2 : (inject_Z (Z.of_nat k) * 2 <= inject_Z (Z.of_nat n))%Q).
  { change 2%Q with (inject_Z 2). rewrite <- inject_Z_mult, <- Zle_Qle.
    pose proof (Nat.Div0.mul_div_le n 2). lia. }
  split.
  - apply Qlt_shift_div_l; [assumption | lra].
  - apply Qle_shift_div_r; [assumption | lra].
Qed.

Lemma spectral_value_range rfft_mag data col w i f m :
  spectral_value rfft_mag data col w i = Ok (f, m) ->
  f = f0 \/ exists q, has_value f q /\ (0 < q)%Q /\ (q <= 1 # 2)%Q.
Proof.
  unfold spectral_value. intros H. inv_bind H. destruct a as [vs|vs].
  - set (window := slice _ _ vs) in H.
    destruct (Nat.ltb_spec 10 (List.length window)) as [Hlen|_];
      [|injection H as <- _; now left].
    inv_bind H. rewrite length_rfftfreq in H.
    destruct (Nat.ltb_spec (a + 1) (List.length window / 2 + 1)) as [Hidx|_];
      [|injection H as <- _; now left].
    injection H as <- _. right.
    rewrite nth_rfftfreq by assumption.
    eexists. split; [apply has_value_fin|].
    apply bin_frequency_range; lia.
  - destruct (Nat.ltb 10 _); [discriminate|]. injection H as <- _. now left.
Qed.

(** X18. Every value of a [_dom_freq] column is 0 or a frequency in
    cycles per sample above 0 and at most 1/2, whatever the magnitudes
    of the transform are. *)
Theorem dominant_frequency_range :
  forall (rfft_mag : list float -> nat -> float) (data : DataFrame)
         (selection : option (list string)) (window_size : Z) (out : DataFrame)
         (col : string),
    extract_frequency_features rfft_mag data selection window_size = Ok out ->
    In col (columns_or_default data selection) ->
    exists dom_freq,
      getitem out (col ++ "_dom_freq") = Ok (NumCol dom_freq) /\
      List.length dom_freq = nrows data /\
      Forall (fun f => f = f0 \/
                       exists q, has_value f q /\ (0 < q)%Q /\ (q <= 1 # 2)%Q)
             dom_freq.
Proof.
  intros rfft_mag data selection w out col H Hcol.
  unfold extract_frequency_features in H.
  destruct (stage_output_property frequency_suffixes
              (frequency_step rfft_mag data w)
              unambiguous_frequency (frequency_step_frame rfft_mag data w)
              "_dom_freq"
              (fun _ c => exists fs, c = Some (NumCol fs) /\
                 List.length fs = nrows data /\
                 Forall (fun f => f = f0 \/
                           exists q, has_value f q /\ (0 < q)%Q /\ (q <= 1 # 2)%Q)
                        fs))
    with (cs := columns_or_default data selection) (s := data) (out := out)
         (col := col) as (fs & Hfs & Hlen & Hall); try assumption.
  - simpl. auto.
  - intros c s s' Hstep. apply frequency_step_spec in Hstep.
    destruct Hstep as (fs & ms & Hloop & ->).
    exists fs. split.
    + rewrite lookup_assign_other, lookup_assign_same; [reflexivity|].
      intros E. apply append_prefix_inj in E. discriminate.
    + apply spectral_loop in Hloop. destruct Hloop as (L & _ & Hrows).
      simpl in L, Hrows. split; [exact L|].
      apply Forall_forall. intros f Hf.
      apply In_nth_error in Hf. destruct Hf as (k & Hk).
      assert (Hlt : k < nrows data).
      { rewrite <- L. apply nth_error_Some. congruence. }
      destruct (Hrows k Hlt) as (f' & m & Hv & Hf' & _).
      rewrite Hk in Hf'. injection Hf' as <-.
      eapply spectral_value_range; eassumption.
  - exists fs. unfold getitem. rewrite Hfs. auto.
Qed.

Lemma dominant_frequency_range_on_twelve_rows :
  exists dom_freq,
    getitem (mkDF 12 [("Time", NumCol (map (fun k => num (Z.of_nat k)) (seq 0 12)));
                      ("value", NumCol twelve_values);
                      ("value_dom_freq",
                       NumCol [Fin 0; Fin 0; Fin 0; Fin 0; Fin 0; Fin 0; Fin 0;
                               Fin 0; Fin 0; Fin 0; Fin (5 # 11); Fin (1 # 2)]);
                      ("value_dom_mag",
                       NumCol [Fin 0; Fin 0; Fin 0; Fin 0; Fin 0; Fin 0; Fin 0;
                               Fin 0; Fin 0; Fin 0; Fin 5; Fin 9])])
            ("value" ++ "_dom_freq") = Ok (NumCol dom_freq) /\
    List.length dom_freq = nrows twelve_rows /\
    Forall (fun f => f = f0 \/
                     exists q, has_value f q /\ (0 < q)%Q /\ (q <= 1 # 2)%Q)
           dom_freq.
Proof.
  apply (dominant_frequency_range example_spectrum twelve_rows None 100).
  - vm_compute. reflexivity.
  - simpl. now left.
Defined.

(** ** What the feature stages refuse *)

(** X19. On a table without a [Time] column [calculate_derivatives]
    returns a table only when it has no column to work on, and then the
    input as it is; when the first column it works on is a numeric
    column of the table, it raises [KeyError('Time')]. *)
Theorem derivatives_without_time :
  forall (data : DataFrame) (selection : option (list string)),
    ~ In "Time" (columns data) ->
    (forall out, calculate_derivatives data selection = Ok out ->
       columns_or_default data selection = [] /\ out = data) /\
    (forall col rest vs,
       columns_or_default data selection = col :: rest ->
       getitem data col = Ok (NumCol vs) ->
       calculate_derivatives data selection = Err (KeyError "Time")).
Proof.
  intros data selection Htime. unfold calculate_derivatives. split.
  - intros out H. destruct (columns_or_default data selection) as [|c cs].
    + injection H as <-. now split.
    + simpl in H. inv_bind H. apply derivatives_step_spec in Ha.
      destruct Ha as (v & t & _ & Ht & _).
      rewrite (get_num_missing _ _ Htime) in Ht. discriminate.
  - intros col rest vs -> Hcol. simpl. unfold derivatives_step.
    rewrite (get_num_ok _ _ _ Hcol). simpl.
    now rewrite (get_num_missing _ _ Htime).
Qed.

Lemma derivatives_without_time_on_two_rows :
  calculate_derivatives untimed None = Err (KeyError "Time").
Proof.
  apply (proj2 (derivatives_without_time untimed None
                  ltac:(simpl; intuition discriminate))
           "value" [] [num 1; num 2]); reflexivity.
Defined.

(** X20. With a window below 1 [calculate_rolling_statistics] returns a
    table only when it has no column to work on, and then the input as
    it is; when the first column it works on is a numeric column of the
    table, it raises [ValueError]. *)
Theorem rolling_window_below_one :
  forall (fsqrt : float -> float) (data : DataFrame) (window_size : Z)
         (selection : option (list string)),
    (window_size < 1)%Z ->
    (forall out,
       calculate_rolling_statistics fsqrt data window_size selection = Ok out ->
       columns_or_default data selection = [] /\ out = data) /\
    (forall col rest vs,
       columns_or_default data selection = col :: rest ->
       getitem data col = Ok (NumCol vs) ->
       calculate_rolling_statistics fsqrt data window_size selection
         = Err ValueError).
Proof.
  intros fsqrt data w selection Hw. unfold calculate_rolling_statistics. split.
  - intros out H. destruct (columns_or_default data selection) as [|c cs].
    + injection H as <-. now split.
    + simpl in H. inv_bind H. apply rolling_step_spec in Ha.
      destruct Ha as (vs & _ & Hle & _). lia.
  - intros col rest vs -> Hcol. simpl. unfold rolling_step.
    rewrite (get_num_ok _ _ _ Hcol). simpl. unfold rolling.
    destruct (Z.ltb_spec w 1) as [_|Hge]; [reflexivity | lia].
Qed.

Lemma rolling_window_below_one_on_three_rows :
  calculate_rolling_statistics example_sqrt three_rows 0 None = Err ValueError.
Proof.
  apply (proj2 (rolling_window_below_one example_sqrt three_rows 0 None
                  ltac:(lia))
           "value" [] [num 0; num 10; num 30]); reflexivity.
Defined.

(** ** feature_engineering: the columns of the input *)

Lemma updates_columns_prefix s names s' :
  updates s names s' -> exists added, columns s' = (columns s ++ added)%list.
Proof.
  induction 1 as [|s name c s1 names s2 Hset Hup [added IH]].
  - exists []. now rewrite app_nil_r.
  - apply setitem_ok in Hset. destruct Hset as [_ ->].
    unfold columns in *. simpl in IH. rewrite IH.
    destruct (in_dec string_dec name (map fst (cols s))) as [Hin|Hnin].
    + rewrite names_assign_present by assumption. eauto.
    + rewrite names_assign_absent by assumption.
      rewrite <- app_assoc. eauto.
Qed.

(** X21. [feature_engineering] leaves the table it is given in place:
    the columns of the output begin with the columns of the input, in
    the same order; a column whose name is not that of a feature of a
    channel is returned with the values it had, and so is the [label]
    column in every case. *)
Theorem feature_engineering_keeps_the_input :
  forall (fsqrt : float -> float) (rfft_mag : list float -> nat -> float)
         (data out : DataFrame)
         (include_rolling include_derivatives include_frequency : bool)
         (window_size : Z),
    feature_engineering fsqrt rfft_mag data include_rolling include_derivatives
                        include_frequency window_size = Ok out ->
    (exists added, columns out = (columns data ++ added)%list) /\
    (forall name,
        (forall channel suffix,
            In channel (channels data) ->
            In suffix (enabled_suffixes include_rolling include_derivatives
                                        include_frequency) ->
            name <> channel ++ suffix) ->
        getitem out name = getitem data name) /\
    getitem out "label" = getitem data "label".
Proof.
  intros fsqrt rfft_mag data out r d f w H.
  apply feature_engineering_updates in H. destruct H as (names & Hup & Hnames).
  assert (Hkeep : forall name,
    (forall channel suffix,
        In channel (channels data) -> In suffix (enabled_suffixes r d f) ->
        name <> channel ++ suffix) ->
    getitem out name = getitem data name).
  { intros name Hname. apply getitem_lookup.
    apply (updates_lookup _ _ _ name Hup). intros Hin.
    apply Hnames in Hin. destruct Hin as (c & sfx & Hc & Hs & E).
    exact (Hname c sfx Hc Hs E). }
  split; [eapply updates_columns_prefix; eassumption|].
  split; [exact Hkeep|].
  apply Hkeep. intros c sfx _ Hs E.
  apply (f_equal last_char) in E.
  unfold enabled_suffixes in Hs.
  rewrite last_char_append in E
    by (destruct r, d, f; simpl in Hs; intuition (subst; discriminate)).
  destruct r, d, f; simpl in Hs; intuition (subst; discriminate).
Qed.

Lemma feature_engineering_keeps_the_input_of_three_rows :
  (exists added,
      columns (mkDF 3 [("Time", NumCol [num 0; num 1; num 2]);
                       ("value", NumCol [num 0; num 10; num 30]);
                       ("value_deriv1", NumCol [Fin 0; Fin 10; Fin 20]);
                       ("value_deriv2", NumCol [Fin 0; Fin 0; Fin 10])])
      = (columns three_rows ++ added)%list) /\
  getitem (mkDF 3 [("Time", NumCol [num 0; num 1; num 2]);
                   ("value", NumCol [num 0; num 10; num 30]);
                   ("value_deriv1", NumCol [Fin 0; Fin 10; Fin 20]);
                   ("value_deriv2", NumCol [Fin 0; Fin 0; Fin 10])]) "value"
  = getitem three_rows "value".
Proof.
  destruct (feature_engineering_keeps_the_input example_sqrt example_spectrum
              three_rows
              (mkDF 3 [("Time", NumCol [num 0; num 1; num 2]);
                       ("value", NumCol [num 0; num 10; num 30]);
                       ("value_deriv1", NumCol [Fin 0; Fin 10; Fin 20]);
                       ("value_deriv2", NumCol [Fin 0; Fin 0; Fin 10])])
              false true false 20) as (Hcols & Hkeep & _).
  - vm_compute. reflexivity.
  - split; [exact Hcols|]. apply Hkeep.
    intros c sfx Hc Hs. simpl in Hc, Hs.
    destruct Hc as [<-|[]]. intuition (subst; discriminate).
Defined.

(** ** feature_engineering: the stages do not see each other *)

Lemma no_feature_named_app A B cs :
  no_feature_named (A ++ B) cs ->
  no_feature_named A cs /\ no_feature_named B cs.
Proof.
  intros H. split; intros c sfx Hc Hs; apply H; auto; apply in_app_iff; auto.
Qed.

(** A feature of one stage is not named like a feature of another:
    their suffixes end differently. *)
Lemma feature_of_other_stage (A B : list string) c sfx cs :
  In sfx A -> ~ In "" A -> ~ In "" B ->
  (forall a b, In a A -> In b B -> last_char a <> last_char b) ->
  ~ In (c ++ sfx) (flat_map (with_suffixes B) cs).
Proof.
  intros Hs HA HB Hlast Hin. apply in_suffixed in Hin.
  destruct Hin as (c' & b & _ & Hb & E).
  apply (f_equal last_char) in E. rewrite !last_char_append in E.
  - exact (Hlast sfx b Hs Hb E).
  - intros ->. contradiction.
  - intros ->. contradiction.
Qed.

Ltac other_stage A :=
  apply (feature_of_other_stage A);
  [ assumption
  | simpl; intuition discriminate
  | simpl; intuition discriminate
  | let a := fresh "a" in
    let b := fresh "b" in
    let Ha := fresh "Ha" in
    let Hb := fresh "Hb" in
    intros a b Ha Hb; simpl in Ha, Hb;
    repeat (destruct Ha as [<-|Ha]; [|]);
    try contradiction;
    repeat (destruct Hb as [<-|Hb]; [discriminate|]);
    contradiction ].

Lemma derivative_names cs name :
  In name (flat_map (fun col => with_suffixes derivative_suffixes col
                                ++ with_suffixes derivative_suffixes col)%list cs) ->
  In name (flat_map (with_suffixes derivative_suffixes) cs).
Proof.
  intros H. apply in_flat_map in H. destruct H as (c & Hc & H).
  apply in_flat_map. exists c. split; [assumption|].
  apply in_app_iff in H. tauto.
Qed.

Lemma spectral_value_same_column rfft_mag s data col w i :
  lookup col (cols s) = lookup col (cols data) ->
  spectral_value rfft_mag s col w i = spectral_value rfft_mag data col w i.
Proof. intros H. unfold spectral_value, getitem. now rewrite H. Qed.

Lemma frequency_stage_outputs rfft_mag data selection w out col :
  extract_frequency_features rfft_mag data selection w = Ok out ->
  In col (columns_or_default data selection) ->
  exists dom_freq dom_mag,
    getitem out (col ++ "_dom_freq") = Ok (NumCol dom_freq) /\
    getitem out (col ++ "_dom_mag") = Ok (NumCol dom_mag) /\
    forall i, i < nrows data ->
      exists f m,
        spectral_value rfft_mag data col w i = Ok (f, m) /\
        nth_error dom_freq i = Some f /\ nth_error dom_mag i = Some m.
Proof.
  intros H Hcol. unfold extract_frequency_features in H.
  pose proof (fun sfx pick Hs Hstep =>
    stage_output_property frequency_suffixes (frequency_step rfft_mag data w)
      unambiguous_frequency (frequency_step_frame rfft_mag data w) sfx
      (fun c res => exists xs, res = Some (NumCol xs) /\
         forall i, i < nrows data ->
           exists p, spectral_value rfft_mag data c w i = Ok p /\
                     nth_error xs i = Some (pick p))
      Hs Hstep _ _ _ H col Hcol) as Hprop.
  assert (Hstep : forall c s s',
    frequency_step rfft_mag data w c s = Ok s' ->
    exists fs ms,
      lookup (c ++ "_dom_freq") (cols s') = Some (NumCol fs) /\
      lookup (c ++ "_dom_mag") (cols s') = Some (NumCol ms) /\
      forall i, i < nrows data ->
        exists p, spectral_value rfft_mag data c w i = Ok p /\
                  nth_error fs i = Some (fst p) /\ nth_error ms i = Some (snd p)).
  { intros c s s' Hs. apply frequency_step_spec in Hs.
    destruct Hs as (fs & ms & Hloop & ->). exists fs, ms.
    split; [|split].
    - rewrite lookup_assign_other, lookup_assign_same; [reflexivity|].
      intros E. apply append_prefix_inj in E. discriminate.
    - apply lookup_assign_same.
    - apply spectral_loop in Hloop. destruct Hloop as (_ & _ & Hrows).
      intros i Hi. destruct (Hrows i Hi) as (f & m & Hv & Hf & Hm).
      exists (f, m). simpl in *. auto. }
  destruct (Hprop "_dom_freq" fst) as (fs & Hfs & Hf).
  { simpl. auto. }
  { intros c s s' Hs. destruct (Hstep c s s' Hs) as (fs & ms & E1 & _ & Hrows).
    exists fs. split; [exact E1|]. intros i Hi.
    destruct (Hrows i Hi) as (p & Hp & Hf & _). eauto. }
  destruct (Hprop "_dom_mag" snd) as (ms & Hms & Hm).
  { simpl. auto. }
  { intros c s s' Hs. destruct (Hstep c s s' Hs) as (fs' & ms & _ & E2 & Hrows).
    exists ms. split; [exact E2|]. intros i Hi.
    destruct (Hrows i Hi) as (p & Hp & _ & Hm). eauto. }
  exists fs, ms. unfold getitem. rewrite Hfs, Hms.
  split; [reflexivity|]. split; [reflexivity|].
  intros i Hi. destruct (Hf i Hi) as (p & Hp & Hfp).
  destruct (Hm i Hi) as (p' & Hp' & Hmp). rewrite Hp in Hp'. injection Hp' as <-.
  exists (fst p), (snd p). rewrite <- surjective_pairing. auto.
Qed.

(** X22. In [feature_engineering] no stage sees the work of another:
    provided no channel of the input is named like a feature of a
    channel, the features returned for a channel of finite or missing
    numbers are those of the channel as the input has it, over the [Time] column of the input --
    the rolling statistics over the window, the difference quotients,
    and the dominant bin of each window of five times the size --
    whichever other stages are switched on. *)
Theorem feature_engineering_features_of_the_input :
  forall (fsqrt : float -> float) (rfft_mag : list float -> nat -> float)
         (data out : DataFrame)
         (include_rolling include_derivatives include_frequency : bool)
         (window_size : Z) (channel : string) (vs : list float),
    feature_engineering fsqrt rfft_mag data include_rolling include_derivatives
                        include_frequency window_size = Ok out ->
    no_feature_named (enabled_suffixes include_rolling include_derivatives
                                       include_frequency)
                     (channels data) ->
    In channel (channels data) ->
    getitem data channel = Ok (NumCol vs) ->
    Forall (fun v => finite_or_missing v = true) vs ->
    (include_rolling = true ->
       getitem out (channel ++ "_rolling_mean")
         = Ok (NumCol (rolling_values window_size mean vs)) /\
       getitem out (channel ++ "_rolling_std")
         = Ok (NumCol (fillna f0 (rolling_values window_size (std fsqrt) vs))) /\
       getitem out (channel ++ "_rolling_min")
         = Ok (NumCol (rolling_values window_size smin vs)) /\
       getitem out (channel ++ "_rolling_max")
         = Ok (NumCol (rolling_values window_size smax vs))) /\
    (include_derivatives = true ->
       exists ts,
         getitem data "Time" = Ok (NumCol ts) /\
         getitem out (channel ++ "_deriv1")
           = Ok (NumCol (fillna f0 (first_derivative vs ts))) /\
         getitem out (channel ++ "_deriv2")
           = Ok (NumCol (fillna f0 (second_derivative vs ts)))) /\
    (include_frequency = true ->
       exists dom_freq dom_mag,
         getitem out (channel ++ "_dom_freq") = Ok (NumCol dom_freq) /\
         getitem out (channel ++ "_dom_mag") = Ok (NumCol dom_mag) /\
         forall i, i < nrows data ->
           exists f m,
             spectral_value rfft_mag data channel (window_size * 5) i = Ok (f, m) /\
             nth_error dom_freq i = Some f /\ nth_error dom_mag i = Some m).
Proof.
  intros fsqrt rfft_mag data out r d f w c vs H Hno Hc Hget _.
  unfold feature_engineering in H.
  inv_bind H. rename a into s1, Ha into H1.
  inv_bind H. rename a into s2, Ha into H2.
  inv_bind H. rename a into s3, Ha into H3. injection H as <-.
  unfold enabled_suffixes in Hno.
  apply no_feature_named_app in Hno. destruct Hno as [Nr Hno].
  apply no_feature_named_app in Hno. destruct Hno as [Nd Nf].
  assert (U1 : updates data
            (if r then flat_map (with_suffixes rolling_suffixes) (channels data)
             else []) s1).
  { destruct r; [now apply rolling_updates in H1 | injection H1 as <-; constructor]. }
  assert (U2 : exists names, updates s1 names s2 /\
            forall name, In name names ->
              In name (if d then flat_map (with_suffixes derivative_suffixes)
                                          (channels data) else [])).
  { destruct d.
    - apply derivatives_updates in H2. eexists. split; [exact H2|].
      intros name. apply derivative_names.
    - injection H2 as <-. exists []. split; [constructor | auto]. }
  destruct U2 as (names2 & U2 & N2).
  assert (U3 : updates s2
            (if f then flat_map (with_suffixes frequency_suffixes) (channels data)
             else []) s3).
  { destruct f; [now apply frequency_updates in H3 | injection H3 as <-; constructor]. }
  pose proof (updates_nrows _ _ _ U1) as R1.
  pose proof (updates_nrows _ _ _ U2) as R2.
  assert (S1 : forall x, In x (channels data) ->
            lookup x (cols s1) = lookup x (cols data)).
  { intros x Hx. apply (updates_lookup _ _ _ x U1).
    destruct r; [|auto]. now apply source_not_written. }
  assert (S2 : forall x, In x (channels data) ->
            lookup x (cols s2) = lookup x (cols data)).
  { intros x Hx. rewrite <- (S1 x Hx). apply (updates_lookup _ _ _ x U2).
    intros Hin. apply N2 in Hin. destruct d; [|auto].
    revert Hin. now apply source_not_written. }
  assert (T1 : lookup "Time" (cols s1) = lookup "Time" (cols data)).
  { apply (updates_lookup _ _ _ "Time" U1). destruct r; [|auto].
    apply suffixed_not_Time. repeat constructor; simpl; lia. }
  assert (Hlook : lookup c (cols data) = Some (NumCol vs)).
  { unfold getitem in Hget. destruct (lookup c (cols data)); congruence. }
  split; [|split].
  - intros ->.
    destruct (rolling_stage_outputs fsqrt data w (Some (channels data)) s1 c vs
                H1 Nr Hc Hget) as (_ & Em & Es & En & Ex).
    assert (Hkeep : forall sfx, In sfx rolling_suffixes ->
              getitem s3 (c ++ sfx) = getitem s1 (c ++ sfx)).
    { intros sfx Hs. apply getitem_lookup.
      rewrite (updates_lookup _ _ _ (c ++ sfx) U3).
      - apply (updates_lookup _ _ _ (c ++ sfx) U2). intros Hin. apply N2 in Hin.
        destruct d; [|auto]. revert Hin. other_stage rolling_suffixes.
      - destruct f; [|auto]. other_stage rolling_suffixes. }
    rewrite !Hkeep by (simpl; auto 6). auto.
  - intros ->.
    destruct (derivatives_stage_outputs s1 (Some (channels data)) s2 c vs H2 Nd Hc)
      as (ts & Hts & E1 & E2 & _).
    { unfold getitem. now rewrite (S1 c Hc), Hlook. }
    assert (Hkeep : forall sfx, In sfx derivative_suffixes ->
              getitem s3 (c ++ sfx) = getitem s2 (c ++ sfx)).
    { intros sfx Hs. apply getitem_lookup.
      apply (updates_lookup _ _ _ (c ++ sfx) U3).
      destruct f; [|auto]. other_stage derivative_suffixes. }
    exists ts. rewrite !Hkeep by (simpl; auto). split; [|auto].
    unfold getitem in *. now rewrite <- T1.
  - intros ->.
    destruct (frequency_stage_outputs rfft_mag s2 (Some (channels data)) (w * 5)
                s3 c H3 Hc) as (fs & ms & Ef & Em & Hrows).
    exists fs, ms. split; [exact Ef|]. split; [exact Em|].
    intros i Hi. rewrite <- (spectral_value_same_column rfft_mag s2 data c)
      by now apply S2.
    apply Hrows. now rewrite R2, R1.
Qed.

Lemma feature_engineering_features_of_three_rows :
  exists ts,
    getitem three_rows "Time" = Ok (NumCol ts) /\
    getitem (mkDF 3 [("Time", NumCol [num 0; num 1; num 2]);
                     ("value", NumCol [num 0; num 10; num 30]);
                     ("value_rolling_mean", NumCol [Fin 0; Fin 5; Fin (40 # 3)]);
                     ("value_rolling_std", NumCol [Fin 0; Fin 7; Fin 26]);
                     ("value_rolling_min", NumCol [Fin 0; Fin 0; Fin 0]);
                     ("value_rolling_max", NumCol [Fin 0; Fin 10; Fin 30]);
                     ("value_deriv1", NumCol [Fin 0; Fin 10; Fin 20]);
                     ("value_deriv2", NumCol [Fin 0; Fin 0; Fin 10])])
            ("value" ++ "_deriv1")
      = Ok (NumCol (fillna f0 (first_derivative [num 0; num 10; num 30] ts))) /\
    getitem (mkDF 3 [("Time", NumCol [num 0; num 1; num 2]);
                     ("value", NumCol [num 0; num 10; num 30]);
                     ("value_rolling_mean", NumCol [Fin 0; Fin 5; Fin (40 # 3)]);
                     ("value_rolling_std", NumCol [Fin 0; Fin 7; Fin 26]);
                     ("value_rolling_min", NumCol [Fin 0; Fin 0; Fin 0]);
                     ("value_rolling_max", NumCol [Fin 0; Fin 10; Fin 30]);
                     ("value_deriv1", NumCol [Fin 0; Fin 10; Fin 20]);
                     ("value_deriv2", NumCol [Fin 0; Fin 0; Fin 10])])
            ("value" ++ "_deriv2")
      = Ok (NumCol (fillna f0 (second_derivative [num 0; num 10; num 30] ts))).
Proof.
  refine (proj1 (proj2 (feature_engineering_features_of_the_input
            example_sqrt example_spectrum three_rows _ true true false 20
            "value" [num 0; num 10; num 30] _ _ _ _ _)) eq_refl).
  - vm_compute. reflexivity.
  - intros c suffix Hc Hs Hin. simpl in Hc, Hs, Hin.
    destruct Hc as [<-|[]]. destruct Hin as [Hin|[]].
    intuition (subst; discriminate).
  - simpl. now left.
  - reflexivity.
  - repeat constructor.
Defined.
